(* ===== verification/_CoqProject ===== *)
-Q . S2P
Prelude.v
Model.v
Store.v
Handlers.v
Invariants.v
Router.v
Lifecycle.v
Abstract.v
Interleaving.v
Independence.v
Progress.v
Creation.v
Isolation.v
Accepts.v
Quiet.v
Frame.v
Wire.v
Http.v
