(* ===== verification/Prelude.v ===== *)
(** * Last-Mile Logistics API: a verification development

    The program (src/main.py) is a FastAPI service that matches freight
    jobs to drivers.  All of its state is three module-level globals: the
    list [drivers] (seeded, never changed), the list [jobs] (seeded with
    two jobs, appended to by [create_job], its elements mutated in place by
    [accept_job], [assign_driver] and [complete_job]) and the counter
    [next_job_id].  Seven route handlers read and write that state; the
    framework calls one handler per request, on a thread of its pool.

    ** Files, in dependency order

    - [Prelude] (this file): what the components share.  The type
      [outcome] of a Python call (it returns a value or raises), the
      state-and-exception monad [prog] in which handlers are written, with
      stdpp's [x ← m; k] notation, and [for_first], the model of the
      source's loop [for x in xs: if <test x>: <body>; return].  The body
      of that loop runs in the monad whose state is the element found,
      which is how in-place mutation of a list element is modelled.
      [for_first_Some] characterises the loop by the first position that
      passes the test; the other lemmas relate it to stdpp's [list_find]
      and [alter], so every later proof about a scan is a lookup argument.
    - [Model]: the pydantic models [Job], [JobCreate], [Driver] as records
      in modules of those names (the source's field names are kept:
      [Job.id], [Job.status], ...), attribute assignment as setters, and
      [HTTPException].  A status is a string, as in the source.
    - [Store]: the in-memory database [Db.t] holding the three globals, the
      seed state [Db.init], and [for_job], the scan of [jobs] by id.  Two
      observations, [Db.find_job] and [Db.update_job], describe a scan
      from outside; [find_job_update_job] is their lookup-after-update
      law.
    - [Handlers]: one definition per route handler of src/main.py
      ([home], [get_jobs], [create_job], [accept_job], [assign_driver],
      [complete_job], [get_drivers]), with the statements in source order,
      and the functional specification of each on every branch (success,
      400, 404, the error payloads): the [_run] equations, and the
      theorems on accepting twice, assigning and completing.
    - [Invariants]: the well-formedness invariant [wf] of the database
      (ids are exactly 1, 2, ..., next_job_id - 1 in list order; every
      status is one of the three literals; an available job has no driver;
      the drivers are the seed), its preservation by every handler, and
      what it gives: a scan is an array access, a created job has a fresh
      id and is found under it.
    - [Router]: the validated requests [Request] (one constructor per
      route decorator), the responses, the route table [dispatch], the
      class [Server] of things that answer requests, with [run] over any
      server, and the specification of the service as a labelled
      transition relation [step].  [step_dispatch] shows that the rules
      are the code; the theorems on single requests and on runs (the
      invariant on all reachable databases, the frame property, the
      stability of assignments, the two error conventions, the scenario
      of the specification) are stated of [dispatch] and [run].
    - [Lifecycle]: what the routes do to one job.  The database after any
      route but [create_job] is one [Db.update_job] by [job_effect]; hence
      the moves a status can make ([status_lifecycle],
      [status_step_realised]), the indifference of the database and of
      the responses to the order in which updates of different jobs are
      served ([dispatch_swap], [run_updates_perm]) and the idempotence of
      every route but creation ([dispatch_idempotent]).
    - [Abstract]: the specification of the service over a finite map from
      ids to jobs ([Board.t], a stdpp [gmap]), a second [Server].
      [run_refines] is the refinement theorem: on well-formed databases
      the code answers every sequence of requests as the board does.
      [run_equiv] shows that databases with the same board cannot be
      told apart by the routes that scan.  ([concr_abs] and [abs_concr]
      are lemmas on the specification itself: well-formed databases and
      well-formed boards are in bijection.)
    - [Interleaving]: handlers as threads that take one step per access
      to the shared state, and schedules of such threads.
      [thread_atomic] and [exec_serial] show that the handlers of the
      other files are the threads without interference;
      [exec_job_ok] and [exec_keeps] are what every schedule preserves;
      [double_accept], [duplicate_id] and [torn_read] are the races: two
      accepts that both succeed, two creations with one id, a list of
      the jobs that shows an accept half done.
    - [Independence]: requests that update different jobs do not
      interfere.  A thread reads and writes the jobs with its id only, so
      in every schedule each thread is where it would be had it run alone
      for the steps the schedule has given it ([sim], a simulation kept
      by every step); [exec_independent] is serialisability: once all
      threads have finished, the database and the responses are those of
      serving the requests one after the other; [exec_wait_free] is
      progress: a request has returned after as many steps of its own as
      there are jobs, plus five, whatever the other threads do.
    - [Progress]: no request waits for another.  [exec_returns]: in any
      schedule of any requests, a request has returned once its thread
      has taken a number of steps bounded by the jobs at the start and
      the number of requests; the measure is [steps_left].
    - [Creation]: any number of concurrent creations, in any schedule.
      [exec_creations] bounds what the race on the counter can do: every
      request gets the job made from its body, the jobs returned are the
      jobs appended, each once, and the ids and the counter stay within
      the number of requests of the counter at the start;
      [creations_counter_behind] shows the counter going backwards.
    - [Isolation]: updates and creations together.  A configuration has
      two sides, the updating threads on the jobs of the start
      ([updates], [below]) and the creating threads on the jobs appended
      ([creations], [above]); a step of a thread is a step of its side
      and leaves the other as it is, so the invariants of [Independence]
      and [Creation] hold side by side ([isolated]).  [exec_isolated]:
      the updates of jobs of the list end as in their serial run, the
      creations as [exec_creations] says; [exec_isolated_wait_free]: the
      bound on the steps of an update holds while jobs are appended;
      [update_sees_creation]: a request for a job that is being created
      is answered as the schedule has it.
    - [Accepts]: any number of concurrent accepts of one available job.
      [exec_accepts] bounds the race of [double_accept]: at least one
      request is answered 200, the job ends assigned to the driver of a
      request answered 200, and the others are answered 400; a request
      answered 200 can be shown the driver of another
      ([accept_shown_other_driver]).  The invariant [accepts] follows the
      job through the writes ([held]).
    - [Quiet]: requests that leave the database as it is when served
      alone (the reads, the accepts that are refused, the updates of a
      job that is not there).  [exec_quiet]: in every schedule of such
      requests the database is untouched and each is answered as if
      alone, within the steps of its handler; concurrent accepts of a
      job that is taken are all refused.
    - [Frame]: the frame of a schedule.  [exec_frame]: whatever requests
      are in progress and however they are interleaved, a job whose id
      none of them names is left where it is and as it is.  The races
      are confined to the jobs the racing requests name or create.
    - [Wire]: the wire format.  Parsed JSON values ([json]); the declared
      fields of the three models as schemas ([Job_schema],
      [JobCreate_schema], [Driver_schema]) with the check [conforms]; the
      class [Json] of encoders with their decoders and the round-trip law,
      and its instances for the models ([Job_to_json] writes the fields of
      [class Job] under their names, in order); [encode], the body of a
      response.  The encoding is the framework's: it is modelled from
      the field declarations and the specification of the interface, not
      from code of src/main.py.  [dispatch_shape] shows that on
      well-formed databases the jobs sent have the shape the
      specification promises, status included.
    - [Http]: the application as the framework sees it.  The application
      object and the middleware of lines 6-21 ([app], [middleware]); one
      [Route] per decorator of lines 65-134 (method, path template,
      [response_model], and the function's signature as the binding of
      path, query and body parameters to a [Request]), gathered in
      [routes]; raw requests [Raw.t]; [parse], which finds the first route
      that matches and binds its parameters; [serve_http], which runs
      [dispatch] on the result and encodes the response.  The class
      [Validator] is what the routes rely on from the framework's
      conversions.  [parse_Valid] shows that the route table implements
      the HTTP surface [denotes]; [routes_unambiguous] that no request
      matches two routes; [run_http_render] that the service over HTTP
      is the service of [Router]; [accept_job_ignores_body] that the
      accept route reads its driver from the query only;
      [create_job_missing_field] that an incomplete body changes nothing.

    ** Modelling choices

    - Python integers are unbounded: ids are [Z].  Nothing wraps.
    - Strings are [string]; the status field is compared with the
      literals the source uses.
    - A handler is [handler R := prog Db.t HTTPException.t R]: a function
      from the database to an outcome and the database after the call.
      State survives a raise, as in Python; the handlers of this program
      raise before they mutate, which is proved ([error_status]), not
      assumed.
    - Every loop of a handler is structural recursion over the job list,
      so the handlers are total and evaluate by [vm_compute] without
      fuel.  Only [run_thread] takes fuel, and [thread_atomic] shows that
      the length of the job list plus five steps is enough for any
      request.  The same bound holds under interleaving for requests on
      jobs of their own ([exec_wait_free]), also while other threads
      append jobs, when the job is in the list at the start
      ([exec_isolated_wait_free]): the scan stops at the job and never
      reaches what is appended.  A scan for an id that is not in the list
      runs to the end of a list that may grow, by one job for each
      request that creates one: the bound for any request among any
      others is the length of the list plus the number of requests plus
      five ([exec_returns]).  Requests that change nothing keep the
      bound of the handler alone ([exec_quiet]).
    - In [Handlers] the job a handler returns is the value of the job
      when the handler returns.  In [Interleaving] a thread holds its job
      by position and reads it when it returns, so a write by another
      thread in between shows in the response.
    - The granularity of interleaving is one access to shared state per
      step; the two halves of [next_job_id += 1] are separate steps.
      A handler returns the object itself and the framework encodes it
      afterwards: the last step of a thread stands for that encoding,
      which a schedule can place at any moment after the handler's last
      statement, and which reads the object at once.  The theorems on
      every schedule ([exec_independent], [exec_isolated],
      [exec_accepts], [exec_quiet], [exec_frame]) do not depend on when
      the encoding happens; that it is one step is used by the
      schedules exhibited only ([double_accept], [torn_read]).
    - No handler of src/main.py takes a lock, and none is modelled.
    - A raw request is a method, the list of the segments of its path,
      the query as a finite map and an optional parsed JSON body.  A path
      parameter takes one segment that is not empty.  A JSON object is the
      list of its members with distinct names; a JSON number is an
      integer, since the service sends and reads no other.
    - The framework's conversions are an interface, not a definition:
      [Validator] asks only that the canonical decimal of an integer is
      converted to it and that a JSON string is accepted as a [str].
      Whether ["+1"], ["01"] or a JSON number for a [str] field are
      accepted differs between versions of the framework; theorems hold
      for every validator, and the examples use [strict].  The law is
      asked of every integer: the limit some interpreters put on the
      length of a decimal they convert (thousands of digits) is outside
      the model, as is any bound on the size of a request.
    - A request that fails validation is [Unprocessable] (status 422) and
      a request that no route of the file matches is [Unrouted] (404, 405,
      a redirect or one of the framework's own documentation routes):
      both leave the database as it is.

    ** Not modelled

    What is left out is code of the libraries that src/main.py imports
    and only calls; none of it is in the repository, and its behaviour
    differs between versions.
    - The server and the framework below the route table: the bytes of
      HTTP, the text of URLs and of JSON.  Requests and bodies are parsed
      values.
    - The conversions of pydantic and the body of a 422 response (the
      list of errors): the routes are proved correct for every
      [Validator].
    - What the CORS middleware does with the configuration it is given
      (the headers it adds, its answers to preflight requests): the
      configuration is data ([middleware]), and only the test of an
      origin against it is defined.
    - The thread pool itself: every schedule is considered.
    - Lines 1-4 of src/main.py are imports.
    Every line of src/main.py that is a statement is the source of a
    definition; the lines no definition maps to are the imports, the
    blank lines and the comment banners.

    ** Plan for extension

    Accepts beside assignments and completions of the same job; the
    remedies the specification proposes for the races (a lock around the
    handlers, an atomic test-and-set in [accept_job]), once one is in
    the source; schedules of raw requests. *)

From stdpp Require Export base tactics option strings numbers list.

#[global] Open Scope Z_scope.

Declare Scope prog_scope.
Delimit Scope prog_scope with prog.
#[global] Open Scope prog_scope.

(** ** Outcomes: a call returns or raises *)

Inductive outcome (E A : Type) : Type :=
| Return (a : A)
| Raise (e : E).

Arguments Return {E A} a.
Arguments Raise {E A} e.

#[global] Instance outcome_eq_dec `{EqDecision E, EqDecision A} :
  EqDecision (outcome E A).
Proof. solve_decision. Defined.

(** ** The state-and-exception monad

    [prog S E A] is a computation over a mutable state [S] that returns an
    [A] or raises an [E].  The state reached before a raise is kept. *)

Definition prog (S E A : Type) : Type := S → outcome E A * S.

Definition prog_ret {S E A} (a : A) : prog S E A := λ s, (Return a, s).

Definition prog_bind {S E A B} (f : A → prog S E B) (m : prog S E A) : prog S E B :=
  λ s, match m s with
       | (Return a, s') => f a s'
       | (Raise e, s') => (Raise e, s')
       end.

#[global] Instance prog_mret {S E} : MRet (prog S E) := @prog_ret S E.
#[global] Instance prog_mbind {S E} : MBind (prog S E) := @prog_bind S E.

Definition get {S E} : prog S E S := λ s, (Return s, s).
Definition gets {S E A} (f : S → A) : prog S E A := λ s, (Return (f s), s).
Definition modify {S E} (f : S → S) : prog S E unit := λ s, (Return (), f s).
Definition raise {S E A} (e : E) : prog S E A := λ s, (Raise e, s).

(** ** The scan loop

    [for_first P body l] models
    [for x in l: if P x: <body, which ends in return or raise>]:
    the first element that satisfies [P] is handed to [body] as its state,
    and what [body] leaves takes the element's place in the list.  [None]
    means the loop ran off the end of the list. *)

Section scan_loop.
Context {A E R : Type} (P : A → Prop) `{!∀ x, Decision (P x)}.

Fixpoint for_first (body : prog A E R) (l : list A) : option (outcome E R * list A) :=
  match l with
  | [] => None
  | x :: l =>
      if decide (P x) then let '(r, x') := body x in Some (r, x' :: l)
      else prod_map id (cons x) <$> for_first body l
  end.

(** The reference definition: find the position, then update it. *)
Definition find_update (body : prog A E R) (l : list A) : option (outcome E R * list A) :=
  '(i, x) ← list_find P l; Some ((body x).1, <[i := (body x).2]> l).

End scan_loop.

(** ** Association lists

    [assoc k l] is the value of the first pair of [l] whose key is [k]. *)

Fixpoint assoc {K V} `{EqDecision K} (k : K) (l : list (K * V)) : option V :=
  match l with
  | [] => None
  | (k', v) :: l => if decide (k = k') then Some v else assoc k l
  end.

(** ** Tactics *)

(** Unfold the monad's operations and compute. *)
Ltac prog_unfold :=
  unfold mbind, mret, prog_mbind, prog_mret, prog_bind, prog_ret,
    get, gets, modify, raise in *.

Ltac prog_simpl := prog_unfold; simpl in *.

(** Prove a decidable proposition by evaluating its decision procedure. *)
Ltac by_compute := apply (bool_decide_unpack _); vm_compute; exact I.

Create HintDb prog discriminated.

(** ** Monad laws, pointwise *)

Section prog_laws.
Context {S E A B C : Type}.
Implicit Types (m : prog S E A) (f : A → prog S E B) (g : B → prog S E C).

Lemma prog_bind_ret_l a f s : (mret a ≫= f) s = f a s.
Proof. done. Qed.

Lemma prog_bind_ret_r m s : (m ≫= mret) s = m s.
Proof. prog_unfold. by destruct (m s) as [[]]. Qed.

Lemma prog_bind_assoc m f g s : ((m ≫= f) ≫= g) s = (m ≫= (λ a, f a ≫= g)) s.
Proof. prog_unfold. by destruct (m s) as [[]]. Qed.

Lemma prog_bind_raise (e : E) f s : (raise e ≫= f) s = (Raise e, s).
Proof. done. Qed.

End prog_laws.

(** ** Lemmas on the scan loop *)

Section for_first_lemmas.
Context {A E R : Type} (P : A → Prop) `{!∀ x, Decision (P x)}.
Implicit Types (body : prog A E R) (l : list A).

(** The loop is the reference definition. *)
Lemma for_first_as_find_update body l : for_first P body l = find_update P body l.
Proof.
  unfold find_update. induction l as [|x l IH]; simpl; [done|].
  case_decide; simpl; [by destruct (body x)|].
  rewrite IH. by destruct (list_find P l) as [[]|].
Qed.

(** The loop runs off the end exactly when no element passes the test. *)
Lemma for_first_None body l : for_first P body l = None ↔ Forall (λ x, ¬ P x) l.
Proof.
  rewrite for_first_as_find_update, <-(list_find_None P). unfold find_update.
  destruct (list_find P l) as [[]|]; naive_solver.
Qed.

(** C9. The scan loop stops at the first element that passes the test
    and nowhere else: it yields [(r, l')] exactly when some position [i]
    holds the first such element [x], no earlier element passes the test,
    [r] is the outcome of the body run on [x], and [l'] is [l] with
    position [i] overwritten by what the body left of [x]. *)
Theorem for_first_Some body l r l' :
  for_first P body l = Some (r, l') ↔
  ∃ i x, l !! i = Some x ∧ P x ∧ (∀ j y, l !! j = Some y → (j < i)%nat → ¬ P y) ∧
    r = (body x).1 ∧ l' = <[i := (body x).2]> l.
Proof.
  rewrite for_first_as_find_update. unfold find_update. split.
  - destruct (list_find P l) as [[i x]|] eqn:Hf; [|done].
    apply list_find_Some in Hf. intros [= <- <-]. naive_solver.
  - intros (i&x&Hi&HP&Hmin&->&->).
    by rewrite (proj2 (list_find_Some P l i x)).
Qed.

End for_first_lemmas.

(** ** Lists updated in place *)

(** Overwriting a position with a function of what is there. *)
Lemma list_insert_as_alter {A} (f : A → A) (l : list A) i x :
  l !! i = Some x → <[i := f x]> l = alter f i l.
Proof.
  intros Hi. rewrite list_insert_alter. apply list_alter_ext; [|done].
  intros y Hy. congruence.
Qed.

Lemma list_alter_fixed {A} (f : A → A) (l : list A) i x :
  l !! i = Some x → f x = x → alter f i l = l.
Proof.
  intros Hi Hx. rewrite <-(list_insert_as_alter f l i x), Hx by done.
  by apply list_insert_id.
Qed.

Section find_after_alter.
Context {A : Type} (P : A → Prop) `{!∀ x, Decision (P x)}.
Implicit Types (f : A → A) (l : list A).

(** An update that does not change which elements satisfy [P] does not
    change where the first of them is. *)
Lemma list_find_alter f l i :
  (∀ x, P (f x) ↔ P x) →
  list_find P (alter f i l)
  = (λ '(j, x), (j, if decide (j = i) then f x else x)) <$> list_find P l.
Proof.
  intros Hf. revert i. induction l as [|x l IH]; intros [|i]; simpl; [done..| |].
  - repeat case_decide; try naive_solver.
    by destruct (list_find P l) as [[]|].
  - case_decide; [done|]. change (list_alter f i l) with (alter f i l).
    rewrite IH. destruct (list_find P l) as [[j y]|]; simpl; [|done].
    repeat case_decide; done || lia.
Qed.

Lemma list_find_alter_found f l i x :
  (∀ x, P (f x) ↔ P x) →
  list_find P l = Some (i, x) → list_find P (alter f i l) = Some (i, f x).
Proof.
  intros Hf Hl. rewrite list_find_alter, Hl by done. simpl.
  by rewrite decide_True.
Qed.

Lemma list_find_alter_ne f l i x :
  (∀ x, P (f x) ↔ P x) →
  l !! i = Some x → ¬ P x → list_find P (alter f i l) = list_find P l.
Proof.
  intros Hf Hi Hx. rewrite list_find_alter by done.
  destruct (list_find P l) as [[j y]|] eqn:Hl; simpl; [|done].
  apply list_find_Some in Hl as (?&?&_).
  rewrite decide_False; [done|]. intros ->. naive_solver.
Qed.

End find_after_alter.

(** In a list whose keys are pairwise distinct, the first element with a
    given key is the only one, and sits wherever that key is looked up. *)
Lemma list_find_key_NoDup {A K} `{EqDecision K} (key : A → K) (l : list A) i x :
  NoDup (key <$> l) → l !! i = Some x →
  list_find (λ y, key y = key x) l = Some (i, x).
Proof.
  intros Hnd Hi. apply list_find_Some. split_and!; [done..|].
  intros j y Hj ? Hk. assert (j = i); [|lia].
  eapply NoDup_lookup; [done| |by rewrite list_lookup_fmap, Hi].
  rewrite list_lookup_fmap, Hj. simpl. by rewrite Hk.
Qed.

(** ** Lists with one element replaced

    What replacing the element at a position does to the count of the
    elements that pass a test and to the values found in the list. *)

Section replaced.
Context {A B : Type}.
Implicit Types (l : list A) (i : nat) (x : A).

Lemma list_insert_middle l1 l2 x x' :
  <[length l1 := x']> (l1 ++ x :: l2) = l1 ++ x' :: l2.
Proof. by rewrite <-(Nat.add_0_r (length l1)), insert_app_r. Qed.

Lemma filter_insert_length (P : A → Prop) `{!∀ x, Decision (P x)} l i x x' :
  l !! i = Some x →
  (length (filter P (<[i := x']> l)) + (if decide (P x) then 1 else 0)
   = length (filter P l) + (if decide (P x') then 1 else 0))%nat.
Proof.
  intros (l1&l2&->&->)%list_elem_of_split_length.
  rewrite list_insert_middle, !filter_app, !filter_cons, !length_app.
  repeat case_decide; simpl; lia.
Qed.

Lemma omap_insert_None (f : A → option B) l i x x' :
  l !! i = Some x → f x = None →
  omap f (<[i := x']> l) ≡ₚ option_list (f x') ++ omap f l.
Proof.
  intros (l1&l2&->&->)%list_elem_of_split_length Hx.
  rewrite list_insert_middle, !omap_app. simpl. rewrite Hx.
  destruct (f x'); simpl; [|done]. by rewrite <-Permutation_middle.
Qed.

Lemma omap_insert_eq (f : A → option B) l i x x' :
  l !! i = Some x → f x' = f x → omap f (<[i := x']> l) = omap f l.
Proof.
  intros (l1&l2&->&->)%list_elem_of_split_length Hx.
  rewrite list_insert_middle, !omap_app. simpl. by rewrite Hx.
Qed.

Lemma omap_ext_Forall (f g : A → option B) l :
  Forall (λ x, f x = g x) l → omap f l = omap g l.
Proof. induction 1 as [|x l Hx _ IH]; csimpl; [done|]. by rewrite Hx, IH. Qed.

Lemma prefix_app_drop l1 l2 : l1 `prefix_of` l2 → l2 = l1 ++ drop (length l1) l2.
Proof. intros [l ->]. by rewrite drop_app_length. Qed.

End replaced.

(** ** Lists of consecutive integers *)

Lemma seqZ_snoc (m n : Z) : 0 ≤ n → seqZ m (n + 1) = seqZ m n ++ [m + n].
Proof. intros. by rewrite seqZ_app by lia. Qed.

(** ** Looking a list of keys up *)

Section keys.
Context {A B : Type} (f : A → option B) (g : B → A).

(** Looking up the keys of a list of values gives the values back. *)
Lemma omap_fmap_Some (l : list B) :
  (∀ y, y ∈ l → f (g y) = Some y) → omap f (g <$> l) = l.
Proof.
  intros Hf. induction l as [|y l IH]; simpl; [done|].
  rewrite Hf by constructor. simpl. f_equal. apply IH.
  intros. apply Hf. by constructor.
Qed.

(** The keys of the values found under a list of keys are these keys. *)
Lemma fmap_omap_Some (l : list A) :
  (∀ x, x ∈ l → ∃ y, f x = Some y ∧ g y = x) → g <$> omap f l = l.
Proof.
  intros Hf. induction l as [|x l IH]; simpl; [done|].
  destruct (Hf x) as (y&->&Hy); [constructor|]. simpl. rewrite Hy. f_equal.
  apply IH. intros. apply Hf. by constructor.
Qed.

End keys.
