(* ===== verification/Model.v ===== *)
(** * The data models of src/main.py

    One module per pydantic model, with the source's field names, so that
    [Job.id], [Driver.id] and [JobCreate.pickup_location] read as in the
    code.  An attribute assignment [job.status = v] is the setter
    [Job.set_status v].  [HTTPException] is the exception the handlers
    raise; [Dict] is the shape of the dictionaries some handlers return. *)

From S2P Require Import Prelude.

(** ** Job *)

Module Job.

Record t : Type := mk {
  id : Z;
  pickup_location : string;
  dropoff_location : string;
  load_description : string;
  status : string;
  driver_id : option Z;
}.

#[global] Instance eq_dec : EqDecision t.
Proof. solve_decision. Defined.

(** [job.status = v] *)
Definition set_status (v : string) (job : t) : t :=
  mk (id job) (pickup_location job) (dropoff_location job)
     (load_description job) v (driver_id job).

(** [job.driver_id = v] *)
Definition set_driver_id (v : option Z) (job : t) : t :=
  mk (id job) (pickup_location job) (dropoff_location job)
     (load_description job) (status job) v.

(** The fields no handler assigns. *)
Definition description (job : t) : Z * string * string * string :=
  (id job, pickup_location job, dropoff_location job, load_description job).

End Job.

(** The values the status field takes (the comment on the field). *)
Definition statuses : list string := ["available"; "assigned"; "completed"].

(** ** JobCreate *)

Module JobCreate.

Record t : Type := mk {
  pickup_location : string;
  dropoff_location : string;
  load_description : string;
}.

#[global] Instance eq_dec : EqDecision t.
Proof. solve_decision. Defined.

End JobCreate.

(** ** Driver *)

Module Driver.

Record t : Type := mk {
  id : Z;
  name : string;
  current_location : string;
}.

#[global] Instance eq_dec : EqDecision t.
Proof. solve_decision. Defined.

End Driver.

(** ** HTTPException *)

Module HTTPException.

Record t : Type := mk {
  status_code : Z;
  detail : string;
}.

#[global] Instance eq_dec : EqDecision t.
Proof. solve_decision. Defined.

End HTTPException.

(** ** Dictionaries returned by handlers

    [{"message": m}], [{"message": m, "job": job}] and [{"error": e}]. *)

Inductive Dict : Type :=
| Message (message : string)
| MessageJob (message : string) (job : Job.t)
| Error (error : string).

#[global] Instance Dict_eq_dec : EqDecision Dict.
Proof. solve_decision. Defined.

(** ** Jobs as values *)

Section job_values.
Implicit Types (job : Job.t) (s : string) (d : option Z).

(** A job is its description, its status and its driver: two jobs that
    agree on the three are the same job. *)
Lemma job_eq job1 job2 :
  Job.description job1 = Job.description job2 →
  Job.status job1 = Job.status job2 →
  Job.driver_id job1 = Job.driver_id job2 →
  job1 = job2.
Proof. destruct job1, job2. unfold Job.description. naive_solver. Qed.

(** The description is the part of a job that identifies it. *)
Lemma description_id job1 job2 :
  Job.description job1 = Job.description job2 → Job.id job1 = Job.id job2.
Proof. unfold Job.description. naive_solver. Qed.

End job_values.
