(* ===== verification/Store.v ===== *)
(** * The in-memory database of src/main.py

    The module-level globals [drivers], [jobs] and [next_job_id] as one
    record [Db.t], their seed values as [Db.init], and [for_job], the loop
    [for job in jobs: if job.id == job_id: ...] that three handlers share.

    Two observations describe the job list from outside: [Db.find_job],
    the job a scan for an id stops at, and [Db.update_job], the list after
    that job has been mutated.  [for_job_as_update] states the loop in
    those terms, and the lookup-after-update equations below are all that
    the handlers' proofs use of the list. *)

From S2P Require Import Prelude Model.

Module Db.

Record t : Type := mk {
  drivers : list Driver.t;
  jobs : list Job.t;
  next_job_id : Z;
}.

#[global] Instance eq_dec : EqDecision t.
Proof. solve_decision. Defined.

Definition set_jobs (v : list Job.t) (db : t) : t :=
  mk (drivers db) v (next_job_id db).

Definition set_next_job_id (v : Z) (db : t) : t :=
  mk (drivers db) (jobs db) v.

(** The state when the module has been loaded. *)
Definition init : t :=
  mk [ Driver.mk 1 "John Doe" "Seattle";
       Driver.mk 2 "Sarah Lee" "Bellevue" ]
     [ Job.mk 1 "Amazon SODO" "Bellevue Downtown" "Pallet of boxes"
         "available" None;
       Job.mk 2 "Port of Seattle Terminal 18" "Redmond Microsoft Campus"
         "Electronics container" "available" None ]
     3.

(** The ids of the jobs, in list order. *)
Definition job_ids (db : t) : list Z := Job.id <$> jobs db.

(** The job with a given id: the first one in list order. *)
Definition find_job (job_id : Z) (db : t) : option Job.t :=
  snd <$> list_find (λ job, Job.id job = job_id) (jobs db).

(** The database after the first job with a given id has been changed by
    [f] where it stands. *)
Definition update_job (job_id : Z) (f : Job.t → Job.t) (db : t) : t :=
  match list_find (λ job, Job.id job = job_id) (jobs db) with
  | Some (i, _) => set_jobs (alter f i (jobs db)) db
  | None => db
  end.

End Db.

(** A route handler: a program over the database that may raise. *)
Abbreviation handler := (prog Db.t HTTPException.t).

(** [for job in jobs: if job.id == job_id: body], then [orelse] when the
    loop ends without a match.  [body] runs with the matching job as its
    state; the job it leaves is the one in the list afterwards. *)
Definition for_job {R} (job_id : Z) (body : prog Job.t HTTPException.t R)
    (orelse : handler R) : handler R :=
  λ db,
    match for_first (λ job, Job.id job = job_id) body (Db.jobs db) with
    | Some (r, jobs) => (r, Db.set_jobs jobs db)
    | None => orelse db
    end.

(** ** Finding a job *)

Section finding.
Implicit Types (db : Db.t) (job : Job.t) (job_id : Z).

Lemma find_job_Some job_id db job :
  Db.find_job job_id db = Some job →
  Job.id job = job_id ∧ job ∈ Db.jobs db.
Proof.
  unfold Db.find_job. intros ([i ?]&(?&?&_)%list_find_Some&->)%fmap_Some.
  split; [done|by eapply list_elem_of_lookup_2].
Qed.

Lemma find_job_None job_id db :
  Db.find_job job_id db = None ↔ job_id ∉ Db.job_ids db.
Proof.
  unfold Db.find_job, Db.job_ids. rewrite fmap_None, list_find_None.
  rewrite Forall_forall, list_elem_of_fmap. naive_solver.
Qed.

Lemma find_job_is_Some job_id db :
  is_Some (Db.find_job job_id db) ↔ job_id ∈ Db.job_ids db.
Proof.
  rewrite <-not_eq_None_Some, find_job_None.
  destruct (decide (job_id ∈ Db.job_ids db)); naive_solver.
Qed.

(** When ids are pairwise distinct, a job is found under its id wherever
    it stands in the list. *)
Lemma find_job_elem_of db job :
  NoDup (Db.job_ids db) → job ∈ Db.jobs db →
  Db.find_job (Job.id job) db = Some job.
Proof.
  intros Hnd (i&Hi)%list_elem_of_lookup_1. unfold Db.find_job.
  by rewrite (list_find_key_NoDup Job.id _ i job).
Qed.

End finding.

(** ** Updating a job *)

Section updating.
Context (f : Job.t → Job.t).
Implicit Types (db : Db.t) (job : Job.t) (job_id : Z).

Lemma drivers_update_job job_id db :
  Db.drivers (Db.update_job job_id f db) = Db.drivers db.
Proof. unfold Db.update_job. by repeat case_match. Qed.

Lemma next_job_id_update_job job_id db :
  Db.next_job_id (Db.update_job job_id f db) = Db.next_job_id db.
Proof. unfold Db.update_job. by repeat case_match. Qed.

(** An update that changes nothing of the job found changes nothing. *)
Lemma update_job_fixed job_id db job :
  Db.find_job job_id db = Some job → f job = job →
  Db.update_job job_id f db = db.
Proof.
  unfold Db.find_job, Db.update_job.
  intros ([i x]&Hf&->)%fmap_Some Hj. rewrite Hf.
  apply list_find_Some in Hf as (Hi&_).
  rewrite (list_alter_fixed f _ i x) by done. by destruct db.
Qed.

(** Only what [f] does to the job found matters. *)
Lemma update_job_ext (g : Job.t → Job.t) job_id db :
  (∀ job, Db.find_job job_id db = Some job → f job = g job) →
  Db.update_job job_id f db = Db.update_job job_id g db.
Proof.
  unfold Db.find_job, Db.update_job. intros Hfg.
  destruct (list_find _ _) as [[i x]|] eqn:Hf; [|done].
  apply list_find_Some in Hf as (Hi&_). f_equal.
  apply list_alter_ext; [|done]. intros y ?. simplify_eq. by apply Hfg.
Qed.

Lemma update_job_not_found job_id db :
  Db.find_job job_id db = None → Db.update_job job_id f db = db.
Proof. unfold Db.find_job, Db.update_job. by intros ->%fmap_None. Qed.

(** A property of jobs that [f] preserves still holds of every job. *)
Lemma update_job_Forall (Q : Job.t → Prop) job_id db :
  (∀ job, Job.id job = job_id → Q job → Q (f job)) →
  Forall Q (Db.jobs db) → Forall Q (Db.jobs (Db.update_job job_id f db)).
Proof.
  intros HQ Hl. unfold Db.update_job.
  destruct (list_find _ _) as [[i x]|] eqn:Hf; [|done].
  apply list_find_Some in Hf as (Hi&?&_).
  apply Forall_alter; [done|]. intros y ?. simplify_eq. by apply HQ.
Qed.

(** What [f] leaves alone of a job is the same all along the list. *)
Lemma update_job_fmap {B} (g : Job.t → B) job_id db :
  (∀ job, g (f job) = g job) →
  g <$> Db.jobs (Db.update_job job_id f db) = g <$> Db.jobs db.
Proof.
  intros Hg. unfold Db.update_job.
  destruct (list_find _ _) as [[i x]|]; [|done]. simpl.
  rewrite (list_fmap_alter g f id) by by apply Forall_true.
  by apply list_alter_id.
Qed.

Lemma length_update_job job_id db :
  length (Db.jobs (Db.update_job job_id f db)) = length (Db.jobs db).
Proof.
  unfold Db.update_job. repeat case_match; simpl; by rewrite ?length_alter.
Qed.

Context (Hid : ∀ job, Job.id (f job) = Job.id job).

Lemma job_ids_update_job job_id db :
  Db.job_ids (Db.update_job job_id f db) = Db.job_ids db.
Proof. by apply update_job_fmap. Qed.

(** Lookup after update, at the id updated. *)
Lemma find_job_update_job_eq job_id db :
  Db.find_job job_id (Db.update_job job_id f db) = f <$> Db.find_job job_id db.
Proof.
  unfold Db.find_job, Db.update_job.
  destruct (list_find _ (Db.jobs db)) as [[i x]|] eqn:Hf; simpl.
  - erewrite list_find_alter_found; [done| |done]. intros y. by rewrite Hid.
  - by rewrite Hf.
Qed.

(** Lookup after update, at another id. *)
Lemma find_job_update_job_ne job_id job_id' db :
  job_id' ≠ job_id →
  Db.find_job job_id' (Db.update_job job_id f db) = Db.find_job job_id' db.
Proof.
  intros Hne. unfold Db.find_job, Db.update_job.
  destruct (list_find _ (Db.jobs db)) as [[i x]|] eqn:Hf; simpl; [|done].
  apply list_find_Some in Hf as (Hi&?&_).
  erewrite list_find_alter_ne; [done| |done|congruence].
  intros y. by rewrite Hid.
Qed.

(** A job found before the update is found after it, changed by [f] if it
    is the one updated and as it was otherwise. *)
Lemma find_job_update_job_Some job_id job_id' db job :
  Db.find_job job_id' db = Some job →
  Db.find_job job_id' (Db.update_job job_id f db)
  = Some (if decide (job_id' = job_id) then f job else job).
Proof.
  intros Hf. case_decide as Hk; [subst|].
  - by rewrite find_job_update_job_eq, Hf.
  - by rewrite find_job_update_job_ne.
Qed.

(** Lookup after update: when a job is mutated in place by a
    function that keeps its id, a later scan for the same id finds the
    mutated job, a scan for any other id finds what it found before, and
    a scan that found nothing still finds nothing. *)
Lemma find_job_update_job job_id job_id' db :
  Db.find_job job_id' (Db.update_job job_id f db)
  = if decide (job_id' = job_id) then f <$> Db.find_job job_id db
    else Db.find_job job_id' db.
Proof.
  case_decide as Hk; [subst; apply find_job_update_job_eq|].
  by apply find_job_update_job_ne.
Qed.

End updating.

(** ** Two updates *)

Section updating_twice.
Context (f g : Job.t → Job.t).
Context (Hf : ∀ job, Job.id (f job) = Job.id job).
Context (Hg : ∀ job, Job.id (g job) = Job.id job).
Implicit Types (db : Db.t) (k : Z).

(** Two updates of the same job are one. *)
Lemma update_job_update_job k db :
  Db.update_job k f (Db.update_job k g db) = Db.update_job k (f ∘ g) db.
Proof.
  unfold Db.update_job.
  destruct (list_find _ (Db.jobs db)) as [[i x]|] eqn:Hx; simpl; [|by rewrite Hx].
  erewrite list_find_alter_found; [|by intros; rewrite Hg|done].
  simpl. by rewrite list_alter_alter_eq.
Qed.

(** Updates of different jobs commute. *)
Lemma update_job_commute k1 k2 db :
  k1 ≠ k2 →
  Db.update_job k1 f (Db.update_job k2 g db)
  = Db.update_job k2 g (Db.update_job k1 f db).
Proof.
  intros Hne. unfold Db.update_job.
  destruct (list_find (λ job, Job.id job = k1) (Db.jobs db))
    as [[i1 x1]|] eqn:H1;
  destruct (list_find (λ job, Job.id job = k2) (Db.jobs db))
    as [[i2 x2]|] eqn:H2; simpl; rewrite ?H1, ?H2; try done.
  - pose proof H1 as (Hi1&?&_)%list_find_Some.
    pose proof H2 as (Hi2&?&_)%list_find_Some.
    rewrite (list_find_alter_ne _ g _ i2 x2), H1
      by (by intros; rewrite ?Hg || congruence).
    rewrite (list_find_alter_ne _ f _ i1 x1), H2
      by (by intros; rewrite ?Hf || congruence).
    unfold Db.set_jobs. simpl. f_equal. apply list_alter_alter_ne.
    intros ->. congruence.
  - pose proof H1 as (Hi1&?&_)%list_find_Some.
    rewrite list_find_alter, H2; [done|]. by intros; rewrite Hf.
  - pose proof H2 as (Hi2&?&_)%list_find_Some.
    rewrite list_find_alter, H1; [done|]. by intros; rewrite Hg.
Qed.

End updating_twice.

(** ** The loop, in terms of find and update *)

Section scanning.
Context {R : Type}.
Implicit Types (body : prog Job.t HTTPException.t R) (orelse : handler R).
Implicit Types (db : Db.t) (job : Job.t).

Lemma for_job_as_update job_id body orelse db :
  for_job job_id body orelse db =
    match Db.find_job job_id db with
    | Some job => ((body job).1, Db.update_job job_id (λ job, (body job).2) db)
    | None => orelse db
    end.
Proof.
  unfold for_job, Db.find_job, Db.update_job.
  rewrite for_first_as_find_update. unfold find_update.
  destruct (list_find _ _) as [[i x]|] eqn:Hf; simpl; [|done].
  apply list_find_Some in Hf as (Hi&_).
  by rewrite (list_insert_as_alter (λ job, (body job).2) _ i x).
Qed.

End scanning.
