(* ===== verification/Handlers.v ===== *)
(** * The route handlers of src/main.py

    One definition per handler, written in the handler monad with the
    statements in source order.  The theorems give each handler's result
    and final database on every branch, in terms of [Db.find_job] and
    [Db.update_job]. *)

From S2P Require Import Prelude Model Store.

(** ** Handlers *)

(** [GET /] *)
Definition home : handler Dict :=
  mret (Message "Last-Mile Logistics API is live!").

(** [GET /jobs] *)
Definition get_jobs : handler (list Job.t) :=
  gets Db.jobs.

(** [POST /jobs] *)
Definition create_job (job : JobCreate.t) : handler Job.t :=
  next_job_id ← gets Db.next_job_id;
  let new_job :=
    Job.mk next_job_id
      (JobCreate.pickup_location job)
      (JobCreate.dropoff_location job)
      (JobCreate.load_description job)
      "available"
      None in
  modify (λ db, Db.set_jobs (Db.jobs db ++ [new_job]) db);;
  modify (λ db, Db.set_next_job_id (Db.next_job_id db + 1) db);;
  mret new_job.

(** [POST /jobs/{job_id}/accept] *)
Definition accept_job (job_id : Z) (driver_id : option Z) : handler Job.t :=
  for_job job_id
    (status ← gets Job.status;
     if decide (status ≠ "available") then
       raise (HTTPException.mk 400 "Job already assigned or completed")
     else
       modify (Job.set_status "assigned");;
       modify (Job.set_driver_id driver_id);;
       get)
    (raise (HTTPException.mk 404 "Job not found")).

(** [POST /assign/{job_id}/{driver_id}] *)
Definition assign_driver (job_id driver_id : Z) : handler Dict :=
  for_job job_id
    (modify (Job.set_status "assigned");;
     modify (Job.set_driver_id (Some driver_id));;
     job ← get;
     mret (MessageJob "Driver assigned" job))
    (mret (Error "Job not found")).

(** [POST /complete/{job_id}] *)
Definition complete_job (job_id : Z) : handler Dict :=
  for_job job_id
    (modify (Job.set_status "completed");;
     job ← get;
     mret (MessageJob "Job completed" job))
    (mret (Error "Job not found")).

(** [GET /drivers] *)
Definition get_drivers : handler (list Driver.t) :=
  gets Db.drivers.

(** ** What the handlers do to a job *)

(** The job after [job.status = "assigned"; job.driver_id = driver_id]. *)
Definition assigned (driver_id : option Z) (job : Job.t) : Job.t :=
  Job.set_driver_id driver_id (Job.set_status "assigned" job).

(** What [accept_job] does to the job it finds: the assignment is
    guarded by the status. *)
Definition accept_effect (driver_id : option Z) (job : Job.t) : Job.t :=
  if decide (Job.status job = "available") then assigned driver_id job else job.

(** The job after [job.status = "completed"]. *)
Definition completed (job : Job.t) : Job.t :=
  Job.set_status "completed" job.

(** The job [create_job] builds from a request body and an id. *)
Definition new_job (job_id : Z) (job : JobCreate.t) : Job.t :=
  Job.mk job_id (JobCreate.pickup_location job) (JobCreate.dropoff_location job)
    (JobCreate.load_description job) "available" None.

(** The two exceptions of [accept_job]. *)
Definition job_unavailable : HTTPException.t :=
  HTTPException.mk 400 "Job already assigned or completed".

Definition job_not_found : HTTPException.t :=
  HTTPException.mk 404 "Job not found".

(** ** Tactics *)

(** Put a scanning handler in find/update form and split on the scan. *)
Ltac handler_unfold h :=
  unfold h; rewrite for_job_as_update;
  destruct (Db.find_job _ _) as [?job|] eqn:?Hfind; prog_simpl.

(** ** Lemmas on the job transformers *)

Lemma id_assigned d job : Job.id (assigned d job) = Job.id job.
Proof. done. Qed.

Lemma id_completed job : Job.id (completed job) = Job.id job.
Proof. done. Qed.

Lemma description_assigned d job :
  Job.description (assigned d job) = Job.description job.
Proof. done. Qed.

Lemma description_completed job :
  Job.description (completed job) = Job.description job.
Proof. done. Qed.

#[export] Hint Resolve id_assigned id_completed description_assigned
  description_completed : prog.

(** ** Functional specification, one equation per handler *)

Theorem create_job_run job db :
  create_job job db =
    (Return (new_job (Db.next_job_id db) job),
     Db.mk (Db.drivers db)
       (Db.jobs db ++ [new_job (Db.next_job_id db) job])
       (Db.next_job_id db + 1)).
Proof. done. Qed.

Theorem accept_job_run job_id driver_id db :
  accept_job job_id driver_id db =
    match Db.find_job job_id db with
    | Some job =>
        if decide (Job.status job = "available")
        then (Return (assigned driver_id job),
              Db.update_job job_id (assigned driver_id) db)
        else (Raise job_unavailable, db)
    | None => (Raise job_not_found, db)
    end.
Proof.
  handler_unfold accept_job; [|done].
  destruct (decide (Job.status job = "available")) as [Hs|Hs].
  - rewrite decide_False by naive_solver. simpl. f_equal.
    apply update_job_ext. intros ? ?. simplify_eq.
    by rewrite decide_False by naive_solver.
  - rewrite decide_True by done. simpl. f_equal.
    eapply update_job_fixed; [done|]. by rewrite decide_True.
Qed.

Theorem assign_driver_run job_id driver_id db :
  assign_driver job_id driver_id db =
    match Db.find_job job_id db with
    | Some job =>
        (Return (MessageJob "Driver assigned" (assigned (Some driver_id) job)),
         Db.update_job job_id (assigned (Some driver_id)) db)
    | None => (Return (Error "Job not found"), db)
    end.
Proof. by handler_unfold assign_driver. Qed.

Theorem complete_job_run job_id db :
  complete_job job_id db =
    match Db.find_job job_id db with
    | Some job =>
        (Return (MessageJob "Job completed" (completed job)),
         Db.update_job job_id completed db)
    | None => (Return (Error "Job not found"), db)
    end.
Proof. by handler_unfold complete_job. Qed.

(** ** The final database of each scanning handler, as one update *)

Lemma id_accept_effect d job : Job.id (accept_effect d job) = Job.id job.
Proof. unfold accept_effect. by case_decide. Qed.

Lemma description_accept_effect d job :
  Job.description (accept_effect d job) = Job.description job.
Proof. unfold accept_effect. by case_decide. Qed.

#[export] Hint Resolve id_accept_effect description_accept_effect : prog.

Section final_db.
Implicit Types (db : Db.t) (job : Job.t) (job_id : Z).

Lemma accept_job_db job_id d db :
  (accept_job job_id d db).2 = Db.update_job job_id (accept_effect d) db.
Proof.
  rewrite accept_job_run. destruct (Db.find_job job_id db) as [job|] eqn:Hf.
  - unfold accept_effect at 1. case_decide as Hs; simpl.
    + apply update_job_ext. intros ? ?. simplify_eq. unfold accept_effect.
      by rewrite decide_True.
    + symmetry. eapply update_job_fixed; [done|]. unfold accept_effect.
      by rewrite decide_False.
  - by rewrite update_job_not_found.
Qed.

Lemma assign_driver_db job_id d db :
  (assign_driver job_id d db).2 = Db.update_job job_id (assigned (Some d)) db.
Proof.
  rewrite assign_driver_run. destruct (Db.find_job job_id db) eqn:?; [done|].
  by rewrite update_job_not_found.
Qed.

Lemma complete_job_db job_id db :
  (complete_job job_id db).2 = Db.update_job job_id completed db.
Proof.
  rewrite complete_job_run. destruct (Db.find_job job_id db) eqn:?; [done|].
  by rewrite update_job_not_found.
Qed.

End final_db.

(** ** accept_job, branch by branch *)

Section accepting_branches.
Implicit Types (db : Db.t) (job : Job.t) (job_id : Z) (d : option Z).

Lemma accept_job_ok job_id d db job :
  Db.find_job job_id db = Some job → Job.status job = "available" →
  accept_job job_id d db
  = (Return (assigned d job), Db.update_job job_id (assigned d) db).
Proof. intros Hf Hs. by rewrite accept_job_run, Hf, decide_True. Qed.

Lemma accept_job_unavailable job_id d db job :
  Db.find_job job_id db = Some job → Job.status job ≠ "available" →
  accept_job job_id d db = (Raise job_unavailable, db).
Proof. intros Hf Hs. by rewrite accept_job_run, Hf, decide_False. Qed.

Lemma accept_job_missing job_id d db :
  Db.find_job job_id db = None →
  accept_job job_id d db = (Raise job_not_found, db).
Proof. intros Hf. by rewrite accept_job_run, Hf. Qed.

(** A call that returns found an available job and assigned it. *)
Lemma accept_job_Return_inv job_id d db job' db' :
  accept_job job_id d db = (Return job', db') →
  ∃ job, Db.find_job job_id db = Some job ∧ Job.status job = "available" ∧
    job' = assigned d job ∧ db' = Db.update_job job_id (assigned d) db.
Proof.
  rewrite accept_job_run. intros Hrun.
  destruct (Db.find_job job_id db) as [job|]; [|done].
  case_decide; naive_solver.
Qed.

(** Accepting is a no-op on failure: a call to [accept_job] that
    raises has left the database exactly as it was, and it raised either
    404 "Job not found", when no job has the id, or 400 "Job already
    assigned or completed", when the job with the id is not available. *)
Lemma accept_job_Raise_inv job_id d db e db' :
  accept_job job_id d db = (Raise e, db') →
  db' = db ∧
  ((e = job_not_found ∧ Db.find_job job_id db = None) ∨
   (e = job_unavailable ∧
    ∃ job, Db.find_job job_id db = Some job ∧ Job.status job ≠ "available")).
Proof.
  rewrite accept_job_run. intros Hrun.
  destruct (Db.find_job job_id db) as [job|]; [|naive_solver].
  case_decide; naive_solver.
Qed.

(** After an accept that returned, the job is found assigned to the
    driver given. *)
Lemma accept_job_find job_id d db job' db' :
  accept_job job_id d db = (Return job', db') →
  Db.find_job job_id db' = Some job' ∧
  Job.status job' = "assigned" ∧ Job.driver_id job' = d.
Proof.
  intros (job&Hf&_&->&->)%accept_job_Return_inv.
  by rewrite find_job_update_job_eq, Hf by auto with prog.
Qed.

(** C4. Accepting a job twice: once [accept_job] has returned for a job,
    a second call for the same job, by the same or by another driver,
    raises 400 "Job already assigned or completed" and leaves the
    database, and so the first assignment, unchanged. *)
Theorem accept_job_twice job_id d d' db job' db' :
  accept_job job_id d db = (Return job', db') →
  accept_job job_id d' db' = (Raise job_unavailable, db').
Proof.
  intros (Hf&Hs&_)%accept_job_find.
  apply (accept_job_unavailable _ _ _ job'); [done|]. by rewrite Hs.
Qed.

Lemma accept_job_twice_witness :
  let job1 := Job.mk 1 "Amazon SODO" "Bellevue Downtown" "Pallet of boxes"
                "assigned" (Some 2) in
  let db1 := Db.update_job 1 (assigned (Some 2)) Db.init in
  accept_job 1 (Some 2) Db.init = (Return job1, db1) ∧
  accept_job 1 (Some 1) db1 = (Raise job_unavailable, db1).
Proof.
  split; [done|].
  exact (accept_job_twice 1 (Some 2) (Some 1) Db.init _ _ eq_refl).
Defined.

(** An accept, of any job by any driver, leaves every job that is not
    available as it is. *)
Lemma accept_job_keeps job_id d db k job :
  Db.find_job k db = Some job → Job.status job ≠ "available" →
  Db.find_job k (accept_job job_id d db).2 = Some job.
Proof.
  intros Hf Hs. rewrite accept_job_db.
  rewrite (find_job_update_job_Some _ (id_accept_effect d) _ _ _ _ Hf).
  case_decide; [|done]. unfold accept_effect. by rewrite decide_False.
Qed.

End accepting_branches.

(** ** create_job and the jobs already there *)

Section creating.
Implicit Types (db : Db.t) (job : Job.t) (body : JobCreate.t) (job_id : Z).

(** A job found before is found afterwards. *)
Lemma create_job_find_Some body db job_id job :
  Db.find_job job_id db = Some job →
  Db.find_job job_id (create_job body db).2 = Some job.
Proof.
  rewrite create_job_run. unfold Db.find_job. simpl.
  intros ([i x]&Hf&->)%fmap_Some. by erewrite list_find_app_l.
Qed.

(** Every id but the one issued is found as before. *)
Lemma create_job_find_ne db body job_id :
  job_id ≠ Db.next_job_id db →
  Db.find_job job_id (create_job body db).2 = Db.find_job job_id db.
Proof.
  intros Hne. destruct (Db.find_job job_id db) as [job|] eqn:Hf.
  { by apply create_job_find_Some. }
  rewrite create_job_run. unfold Db.find_job in *. simpl.
  apply fmap_None in Hf. rewrite list_find_app_r by done. simpl.
  by rewrite decide_False.
Qed.

(** When the id issued is not in use, it finds the new job. *)
Lemma create_job_find_new db body :
  Db.find_job (Db.next_job_id db) db = None →
  Db.find_job (Db.next_job_id db) (create_job body db).2
  = Some (new_job (Db.next_job_id db) body).
Proof.
  intros Hf. rewrite create_job_run. unfold Db.find_job in *. simpl.
  apply fmap_None in Hf. rewrite list_find_app_r by done. simpl.
  by rewrite decide_True.
Qed.

End creating.

(** ** assign_driver and complete_job, branch by branch *)

Section assign_complete.
Implicit Types (db : Db.t) (job : Job.t) (job_id d : Z).

Lemma assign_driver_found job_id d db job :
  Db.find_job job_id db = Some job →
  assign_driver job_id d db
  = (Return (MessageJob "Driver assigned" (assigned (Some d) job)),
     Db.update_job job_id (assigned (Some d)) db).
Proof. intros Hf. by rewrite assign_driver_run, Hf. Qed.

Lemma assign_driver_missing job_id d db :
  Db.find_job job_id db = None →
  assign_driver job_id d db = (Return (Error "Job not found"), db).
Proof. intros Hf. by rewrite assign_driver_run, Hf. Qed.

(** Assignment has no precondition on the status: whatever state
    the job with the id was in, completed included, after [assign_driver]
    it is found with status "assigned" and the driver given, its other
    fields unchanged. *)
Lemma assign_driver_find job_id d db job :
  Db.find_job job_id db = Some job →
  Db.find_job job_id (assign_driver job_id d db).2
  = Some (assigned (Some d) job).
Proof.
  intros Hf. by rewrite assign_driver_db, find_job_update_job_eq, Hf
    by auto with prog.
Qed.

Lemma complete_job_found job_id db job :
  Db.find_job job_id db = Some job →
  complete_job job_id db
  = (Return (MessageJob "Job completed" (completed job)),
     Db.update_job job_id completed db).
Proof. intros Hf. by rewrite complete_job_run, Hf. Qed.

Lemma complete_job_missing job_id db :
  Db.find_job job_id db = None →
  complete_job job_id db = (Return (Error "Job not found"), db).
Proof. intros Hf. by rewrite complete_job_run, Hf. Qed.

(** Completion has no precondition either: whatever state the job
    with the id was in, a never-accepted available job included, after
    [complete_job] it is found with status "completed", and its driver
    and other fields are what they were. *)
Lemma complete_job_find job_id db job :
  Db.find_job job_id db = Some job →
  Db.find_job job_id (complete_job job_id db).2 = Some (completed job).
Proof.
  intros Hf. by rewrite complete_job_db, find_job_update_job_eq, Hf
    by auto with prog.
Qed.

End assign_complete.
