(* ===== verification/Invariants.v ===== *)
(** * The invariant of the database

    [wf db] collects what every database reachable from the seed
    satisfies:
    - the counter is positive and the ids of the jobs, in list order, are
      exactly 1, 2, ..., [next_job_id - 1]: ids are issued in sequence,
      never reused and no job is ever removed or reordered;
    - every status is one of ["available"], ["assigned"], ["completed"];
    - an available job has no driver;
    - the drivers are the seed drivers.
    The invariant is decidable, so it can be checked on a concrete
    database by evaluation.  Each handler preserves it; what it gives in
    return is that a scan by id finds the only job with that id, at the
    position the id names. *)

From S2P Require Import Prelude Model Store Handlers.

(** ** Definitions *)

(** A job's status and driver fit together. *)
Definition job_ok (job : Job.t) : Prop :=
  Job.status job ∈ statuses ∧
  (Job.status job = "available" → Job.driver_id job = None).

Definition wf (db : Db.t) : Prop :=
  1 ≤ Db.next_job_id db ∧
  Db.job_ids db = seqZ 1 (Db.next_job_id db - 1) ∧
  Forall job_ok (Db.jobs db) ∧
  Db.drivers db = Db.drivers Db.init.

#[global] Instance job_ok_dec job : Decision (job_ok job).
Proof. unfold job_ok. apply _. Defined.

#[global] Instance wf_dec db : Decision (wf db).
Proof. unfold wf. apply _. Defined.

(** ** What the invariant gives *)

Section wf_facts.
Context (db : Db.t) (Hwf : wf db).
Implicit Types (job : Job.t) (job_id : Z).

Lemma wf_job_ids : Db.job_ids db = seqZ 1 (Db.next_job_id db - 1).
Proof. apply Hwf. Qed.

Lemma wf_NoDup : NoDup (Db.job_ids db).
Proof. rewrite wf_job_ids. apply NoDup_seqZ. Qed.

Lemma wf_length : Z.of_nat (length (Db.jobs db)) = Db.next_job_id db - 1.
Proof.
  destruct Hwf as (?&Hids&_). apply (f_equal length) in Hids.
  unfold Db.job_ids in Hids. rewrite length_fmap, length_seqZ in Hids. lia.
Qed.

(** The ids in use are those from 1 up to the counter, the counter
    excluded. *)
Lemma wf_elem_of_job_ids job_id :
  job_id ∈ Db.job_ids db ↔ 1 ≤ job_id < Db.next_job_id db.
Proof. rewrite wf_job_ids, elem_of_seqZ. lia. Qed.

Lemma wf_id_bounds job :
  job ∈ Db.jobs db → 1 ≤ Job.id job < Db.next_job_id db.
Proof.
  intros Hjob. apply wf_elem_of_job_ids. unfold Db.job_ids.
  by apply list_elem_of_fmap_2.
Qed.

Lemma wf_job_ok job : job ∈ Db.jobs db → job_ok job.
Proof. destruct Hwf as (_&_&Hok&_). by apply Forall_forall. Qed.

(** The job with id [k] is the [k]-th of the list. *)
Lemma wf_lookup_id i job : Db.jobs db !! i = Some job → Job.id job = Z.of_nat i + 1.
Proof.
  intros Hi. pose proof wf_job_ids as Hids.
  apply (f_equal (.!! i)) in Hids. unfold Db.job_ids in Hids.
  rewrite list_lookup_fmap, Hi in Hids. simpl in Hids. symmetry in Hids.
  apply lookup_seqZ in Hids. lia.
Qed.

(** A scan finds a job exactly when it is in the list under that id. *)
Lemma wf_find_job job_id job :
  Db.find_job job_id db = Some job ↔ job ∈ Db.jobs db ∧ Job.id job = job_id.
Proof.
  split; [intros ?%find_job_Some; naive_solver|].
  intros [? <-]. apply find_job_elem_of; [apply wf_NoDup|done].
Qed.

(** A scan succeeds exactly on the ids issued so far. *)
Lemma wf_find_job_is_Some job_id :
  is_Some (Db.find_job job_id db) ↔ 1 ≤ job_id < Db.next_job_id db.
Proof. by rewrite find_job_is_Some, wf_elem_of_job_ids. Qed.

Lemma wf_find_job_None job_id :
  Db.find_job job_id db = None ↔ ¬ (1 ≤ job_id < Db.next_job_id db).
Proof. by rewrite find_job_None, wf_elem_of_job_ids. Qed.

(** The counter is not the id of any job. *)
Lemma wf_next_job_id_fresh : Db.find_job (Db.next_job_id db) db = None.
Proof. apply wf_find_job_None. lia. Qed.

End wf_facts.

(** In a well-formed database the linear scan is an array access:
    the scan for an id finds a job exactly when the id is at least 1 and
    the job stands at position [id - 1] of the list. *)
Lemma wf_find_job_lookup db job_id job :
  wf db →
  Db.find_job job_id db = Some job ↔
  1 ≤ job_id ∧ Db.jobs db !! Z.to_nat (job_id - 1) = Some job.
Proof.
  intros Hwf. rewrite (wf_find_job db Hwf), list_elem_of_lookup. split.
  - intros [[i Hi] <-]. rewrite (wf_lookup_id db Hwf i job Hi).
    split; [lia|]. by replace (Z.to_nat _) with i by lia.
  - intros [? Hi]. split; [eauto|]. rewrite (wf_lookup_id db Hwf _ job Hi). lia.
Qed.

(** ** Preservation *)

Section job_ok_facts.
Implicit Types (job : Job.t).

Lemma job_ok_new_job job_id (body : JobCreate.t) : job_ok (new_job job_id body).
Proof. split; [|done]. by apply (bool_decide_unpack _). Qed.

Lemma job_ok_assigned d job : job_ok (assigned d job).
Proof. split; [|done]. by apply (bool_decide_unpack _). Qed.

Lemma job_ok_completed job : job_ok (completed job).
Proof. split; [|done]. by apply (bool_decide_unpack _). Qed.

Lemma job_ok_accept_effect d job : job_ok job → job_ok (accept_effect d job).
Proof. unfold accept_effect. case_decide; [|done]. intros _. apply job_ok_assigned. Qed.

End job_ok_facts.

#[export] Hint Resolve job_ok_new_job job_ok_assigned job_ok_completed
  job_ok_accept_effect : prog.

Section preservation.
Implicit Types (db : Db.t) (job : Job.t) (job_id : Z).

Lemma wf_init : wf Db.init.
Proof. by apply (bool_decide_unpack _). Qed.

(** Any in-place update that keeps ids and keeps jobs consistent. *)
Lemma wf_update_job (f : Job.t → Job.t) job_id db :
  (∀ job, Job.id (f job) = Job.id job) →
  (∀ job, job_ok job → job_ok (f job)) →
  wf db → wf (Db.update_job job_id f db).
Proof.
  intros Hid Hok (?&?&?&?). unfold wf.
  rewrite next_job_id_update_job, job_ids_update_job, drivers_update_job by done.
  split_and!; [done..| |done]. apply update_job_Forall; auto.
Qed.

Lemma wf_create_job (body : JobCreate.t) db : wf db → wf (create_job body db).2.
Proof.
  intros (?&Hids&?&?). rewrite create_job_run. unfold wf, Db.job_ids in *. simpl.
  split_and!; [lia| | |done].
  - rewrite fmap_app, Hids. simpl.
    replace (Db.next_job_id db + 1 - 1) with (Db.next_job_id db - 1 + 1) by lia.
    rewrite seqZ_snoc by lia. do 2 f_equal. lia.
  - apply Forall_app. split; [done|]. apply Forall_singleton. auto with prog.
Qed.

Lemma wf_accept_job job_id d db : wf db → wf (accept_job job_id d db).2.
Proof. rewrite accept_job_db. apply wf_update_job; auto with prog. Qed.

Lemma wf_assign_driver job_id d db : wf db → wf (assign_driver job_id d db).2.
Proof. rewrite assign_driver_db. apply wf_update_job; auto with prog. Qed.

Lemma wf_complete_job job_id db : wf db → wf (complete_job job_id db).2.
Proof. rewrite complete_job_db. apply wf_update_job; auto with prog. Qed.

End preservation.

(** ** Creating a job in a well-formed database *)

(** C24. Creating a job in a well-formed database returns a job whose id
    is strictly greater than the id of every job already there, with the
    fields of the request, status "available" and no driver; the job is
    the last of the list that [get_jobs] returns afterwards. *)
Theorem create_job_fresh db (body : JobCreate.t) :
  wf db →
  ∃ new db',
    create_job body db = (Return new, db') ∧
    (∀ job, job ∈ Db.jobs db → Job.id job < Job.id new) ∧
    new = new_job (Db.next_job_id db) body ∧
    Job.status new = "available" ∧ Job.driver_id new = None ∧
    get_jobs db' = (Return (Db.jobs db ++ [new]), db').
Proof.
  intros Hwf. eexists _, _. split; [apply create_job_run|].
  split_and!; try done.
  intros job ?%wf_id_bounds; [|done]. simpl. lia.
Qed.

(** C25. The job created in a well-formed database is the one a scan for
    its id finds afterwards, so the id returned to the client names the
    job in later requests. *)
Theorem create_job_find db (body : JobCreate.t) new db' :
  wf db →
  create_job body db = (Return new, db') →
  Db.find_job (Job.id new) db' = Some new.
Proof.
  intros Hwf Hrun. pose proof (wf_create_job body db Hwf) as Hwf'.
  rewrite create_job_run in Hrun. rewrite create_job_run in Hwf'.
  simplify_eq. apply (wf_find_job _ Hwf'). simpl. split; [|done].
  apply elem_of_app. right. by apply list_elem_of_singleton.
Qed.

(** ** Witnesses *)

Lemma create_job_fresh_witness :
  wf Db.init ∧
  ∃ new db',
    create_job (JobCreate.mk "Dock 4" "Kirkland" "Crates") Db.init
    = (Return new, db') ∧
    (∀ job, job ∈ Db.jobs Db.init → Job.id job < Job.id new) ∧
    new = new_job (Db.next_job_id Db.init)
            (JobCreate.mk "Dock 4" "Kirkland" "Crates") ∧
    Job.status new = "available" ∧ Job.driver_id new = None ∧
    get_jobs db' = (Return (Db.jobs Db.init ++ [new]), db').
Proof. split; [by_compute|]. apply create_job_fresh. by_compute. Defined.

Lemma create_job_find_witness :
  let body := JobCreate.mk "Dock 4" "Kirkland" "Crates" in
  wf Db.init ∧
  create_job body Db.init
  = (Return (new_job 3 body), (create_job body Db.init).2) ∧
  Db.find_job 3 (create_job body Db.init).2 = Some (new_job 3 body).
Proof.
  split_and!; [by_compute|done|].
  exact (create_job_find Db.init
           (JobCreate.mk "Dock 4" "Kirkland" "Crates")
           (new_job 3 (JobCreate.mk "Dock 4" "Kirkland" "Crates")) _
           ltac:(by_compute) eq_refl).
Defined.
