(* ===== verification/Router.v ===== *)
(** * The routes of src/main.py and the service as a transition system

    [Request] has one constructor per route decorator, carrying the path,
    query and body parameters after validation.  [dispatch] calls the
    route's handler and turns its outcome into a response the way the
    framework does: a returned value is sent with status 200, a raised
    [HTTPException] with its own status code and its detail.

    [step] is the specification of the service: a labelled transition
    relation with one rule per route and branch, written in terms of
    [Db.find_job] and [Db.update_job] only.  [step_dispatch] shows that
    the rules are exactly what the code does.  [run] serves a sequence of
    requests, and [reachable] are the databases the code can be in.  The
    theorems on single requests are stated of [dispatch], the code, and
    proved by case analysis on the rules. *)

From S2P Require Import Prelude Model Store Handlers Invariants.

(** ** Requests and responses *)

Inductive Method : Type := GET | POST.

#[global] Instance Method_eq_dec : EqDecision Method.
Proof. solve_decision. Defined.

Inductive Request : Type :=
| Home
| GetJobs
| CreateJob (job : JobCreate.t)
| AcceptJob (job_id : Z) (driver_id : option Z)
| AssignDriver (job_id driver_id : Z)
| CompleteJob (job_id : Z)
| GetDrivers.

#[global] Instance Request_eq_dec : EqDecision Request.
Proof. solve_decision. Defined.

#[global] Instance Request_inhabited : Inhabited Request := populate Home.

(** The method the route is registered under. *)
Definition method (req : Request) : Method :=
  match req with
  | Home | GetJobs | GetDrivers => GET
  | CreateJob _ | AcceptJob _ _ | AssignDriver _ _ | CompleteJob _ => POST
  end.

(** What a response carries. *)
Inductive Content : Type :=
| JsonDict (d : Dict)
| JsonJob (job : Job.t)
| JsonJobs (jobs : list Job.t)
| JsonDrivers (drivers : list Driver.t)
| JsonDetail (detail : string).

#[global] Instance Content_eq_dec : EqDecision Content.
Proof. solve_decision. Defined.

Module Response.

Record t : Type := mk {
  status_code : Z;
  content : Content;
}.

#[global] Instance eq_dec : EqDecision t.
Proof. solve_decision. Defined.

End Response.

(** A returned value is a 200; an [HTTPException] is its status code and
    detail. *)
Definition respond {R} (to_content : R → Content)
    (o : outcome HTTPException.t R) : Response.t :=
  match o with
  | Return r => Response.mk 200 (to_content r)
  | Raise e =>
      Response.mk (HTTPException.status_code e)
        (JsonDetail (HTTPException.detail e))
  end.

(** Run a handler and respond. *)
Definition serve {S R} (to_content : R → Content)
    (h : prog S HTTPException.t R) : S → Response.t * S :=
  λ s, let '(o, s') := h s in (respond to_content o, s').

(** A server: what answers a request in a state with a response and a
    state.  The code is one ([dispatch], below); its specifications are
    others. *)
Class Server (S : Type) := handle : Request → S → Response.t * S.
#[global] Hint Mode Server ! : typeclass_instances.

(** The route table. *)
Definition dispatch (req : Request) : Db.t → Response.t * Db.t :=
  match req with
  | Home => serve JsonDict home
  | GetJobs => serve JsonJobs get_jobs
  | CreateJob job => serve JsonJob (create_job job)
  | AcceptJob job_id driver_id => serve JsonJob (accept_job job_id driver_id)
  | AssignDriver job_id driver_id => serve JsonDict (assign_driver job_id driver_id)
  | CompleteJob job_id => serve JsonDict (complete_job job_id)
  | GetDrivers => serve JsonDrivers get_drivers
  end.

#[global] Instance db_server : Server Db.t := dispatch.

(** Serve requests one after the other. *)
Fixpoint run {S} `{!Server S} (reqs : list Request) (s : S) : list Response.t * S :=
  match reqs with
  | [] => ([], s)
  | req :: reqs =>
      let '(resp, s) := handle req s in
      let '(resps, s) := run reqs s in
      (resp :: resps, s)
  end.

(** The id of the job a request may change or create, if any. *)
Definition target (req : Request) (db : Db.t) : option Z :=
  match req with
  | CreateJob _ => Some (Db.next_job_id db)
  | AcceptJob job_id _ | AssignDriver job_id _ | CompleteJob job_id => Some job_id
  | Home | GetJobs | GetDrivers => None
  end.

(** The requests routed to [accept_job]. *)
Definition is_accept (req : Request) : Prop :=
  if req is AcceptJob _ _ then True else False.

#[global] Instance is_accept_dec req : Decision (is_accept req).
Proof. destruct req; apply _. Defined.

(** ** The transition relation *)

Definition ok (c : Content) : Response.t := Response.mk 200 c.

Definition error (e : HTTPException.t) : Response.t :=
  Response.mk (HTTPException.status_code e) (JsonDetail (HTTPException.detail e)).

Inductive step : Db.t → Request → Response.t → Db.t → Prop :=
| step_home db :
    step db Home (ok (JsonDict (Message "Last-Mile Logistics API is live!"))) db
| step_get_jobs db :
    step db GetJobs (ok (JsonJobs (Db.jobs db))) db
| step_get_drivers db :
    step db GetDrivers (ok (JsonDrivers (Db.drivers db))) db
| step_create_job db body :
    step db (CreateJob body)
      (ok (JsonJob (new_job (Db.next_job_id db) body)))
      (Db.mk (Db.drivers db)
         (Db.jobs db ++ [new_job (Db.next_job_id db) body])
         (Db.next_job_id db + 1))
| step_accept_job db job_id d job :
    Db.find_job job_id db = Some job →
    Job.status job = "available" →
    step db (AcceptJob job_id d)
      (ok (JsonJob (assigned d job)))
      (Db.update_job job_id (assigned d) db)
| step_accept_job_unavailable db job_id d job :
    Db.find_job job_id db = Some job →
    Job.status job ≠ "available" →
    step db (AcceptJob job_id d) (error job_unavailable) db
| step_accept_job_missing db job_id d :
    Db.find_job job_id db = None →
    step db (AcceptJob job_id d) (error job_not_found) db
| step_assign_driver db job_id d job :
    Db.find_job job_id db = Some job →
    step db (AssignDriver job_id d)
      (ok (JsonDict (MessageJob "Driver assigned" (assigned (Some d) job))))
      (Db.update_job job_id (assigned (Some d)) db)
| step_assign_driver_missing db job_id d :
    Db.find_job job_id db = None →
    step db (AssignDriver job_id d) (ok (JsonDict (Error "Job not found"))) db
| step_complete_job db job_id job :
    Db.find_job job_id db = Some job →
    step db (CompleteJob job_id)
      (ok (JsonDict (MessageJob "Job completed" (completed job))))
      (Db.update_job job_id completed db)
| step_complete_job_missing db job_id :
    Db.find_job job_id db = None →
    step db (CompleteJob job_id) (ok (JsonDict (Error "Job not found"))) db.

Notation "db '-[' req '/' resp ']->' db'" := (step db req resp db')
  (at level 70, req at level 39, resp at level 39) : prog_scope.

(** The databases the service can be in: the seed, and what serving a
    request leaves. *)
Inductive reachable : Db.t → Prop :=
| reachable_init : reachable Db.init
| reachable_dispatch db req :
    reachable db → reachable (dispatch req db).2.

#[export] Hint Constructors step reachable : prog.

(** ** The relation is the code *)

Section relation_is_code.
Implicit Types (db : Db.t) (req : Request) (resp : Response.t).

Lemma dispatch_step db req :
  db -[req / (dispatch req db).1]-> (dispatch req db).2.
Proof.
  destruct req as [| |body|job_id d|job_id d|job_id|]; unfold dispatch, serve;
    try by constructor.
  - rewrite accept_job_run. destruct (Db.find_job job_id db) eqn:?;
      [case_decide|]; simpl; eauto with prog.
  - rewrite assign_driver_run. destruct (Db.find_job job_id db) eqn:?; simpl;
      eauto with prog.
  - rewrite complete_job_run. destruct (Db.find_job job_id db) eqn:?; simpl;
      eauto with prog.
Qed.

Lemma step_dispatch_1 db req resp db' :
  db -[req / resp]-> db' → dispatch req db = (resp, db').
Proof.
  destruct 1; unfold dispatch, serve; try done.
  - by erewrite accept_job_ok.
  - by erewrite accept_job_unavailable.
  - by rewrite accept_job_missing.
  - by erewrite assign_driver_found.
  - by rewrite assign_driver_missing.
  - by erewrite complete_job_found.
  - by rewrite complete_job_missing.
Qed.

Lemma dispatch_step_inv db req resp db' :
  dispatch req db = (resp, db') → db -[req / resp]-> db'.
Proof. intros Hd. pose proof (dispatch_step db req) as Hs. by rewrite Hd in Hs. Qed.

(** The database after a request is the database after its handler. *)
Lemma dispatch_db db req :
  (dispatch req db).2 =
    match req with
    | CreateJob job => (create_job job db).2
    | AcceptJob job_id d => (accept_job job_id d db).2
    | AssignDriver job_id d => (assign_driver job_id d db).2
    | CompleteJob job_id => (complete_job job_id db).2
    | Home | GetJobs | GetDrivers => db
    end.
Proof. destruct req; unfold dispatch, serve; try done; by case_match. Qed.

(** C1. The transition rules are the code: the service answers a request
    [req] in database [db] with response [resp] and ends in database
    [db'] by one of the eleven rules of [step] (one per route and branch:
    the status codes, the payloads, the job found by the scan and the
    in-place update) exactly when running the route's handler through
    [dispatch] gives that response and that database. *)
Theorem step_dispatch db req resp db' :
  step db req resp db' ↔ dispatch req db = (resp, db').
Proof. split; [apply step_dispatch_1|apply dispatch_step_inv]. Qed.

(** Every request is served: whatever the database and the request,
    the handler terminates with a response and a database (the scan is
    over a finite list and nothing else loops). *)
Lemma step_total db req : ∃ resp db', step db req resp db'.
Proof. eauto using dispatch_step. Qed.

(** The service is deterministic: a request in a database has one
    response and one database after it. *)
Lemma step_deterministic db req resp1 db1 resp2 db2 :
  step db req resp1 db1 → step db req resp2 db2 →
  resp1 = resp2 ∧ db1 = db2.
Proof.
  intros H1%step_dispatch_1 H2%step_dispatch_1. rewrite H1 in H2.
  by simplify_eq.
Qed.

End relation_is_code.

(** Case analysis on what the code does with a request, by the rules:
    [dispatch req db] becomes the response and the database of a rule. *)
Ltac by_step db req :=
  let Hd := fresh "Hd" in
  destruct (dispatch req db) as [? ?] eqn:Hd; simpl;
  apply dispatch_step_inv in Hd; destruct Hd.

(** ** Runs *)

Section any_server.
Context {S} `{!Server S}.
Implicit Types (s : S) (req : Request) (reqs : list Request).

Lemma run_app reqs1 reqs2 s :
  run (reqs1 ++ reqs2) s =
    let '(resps1, s1) := run reqs1 s in
    let '(resps2, s2) := run reqs2 s1 in
    (resps1 ++ resps2, s2).
Proof.
  revert s. induction reqs1 as [|req reqs1 IH]; intros s; simpl.
  - by destruct (run reqs2 s).
  - destruct (handle req s) as [resp s1]. rewrite IH.
    destruct (run reqs1 s1) as [resps1 s2]. by destruct (run reqs2 s2).
Qed.

Lemma run_cons req reqs s :
  (run (req :: reqs) s).2 = (run reqs (handle req s).2).2.
Proof.
  simpl. destruct (handle req s) as [resp s1]. simpl.
  by destruct (run reqs s1).
Qed.

Lemma run_snoc reqs req s :
  (run (reqs ++ [req]) s).2 = (handle req (run reqs s).2).2.
Proof.
  rewrite run_app. destruct (run reqs s) as [resps s1]. simpl.
  by destruct (handle req s1).
Qed.

(** An invariant of single requests is an invariant of runs. *)
Lemma run_invariant (inv : S → Prop) reqs s :
  (∀ req s, inv s → inv (handle req s).2) → inv s → inv (run reqs s).2.
Proof.
  intros Hinv. revert s. induction reqs as [|req reqs IH]; intros s Hs; [done|].
  rewrite run_cons. auto.
Qed.

Lemma run_cons_eq req reqs s :
  run (req :: reqs) s
  = ((handle req s).1 :: (run reqs (handle req s).2).1,
     (run reqs (handle req s).2).2).
Proof.
  simpl. destruct (handle req s) as [resp s1]. simpl.
  by destruct (run reqs s1).
Qed.

Lemma run_snoc_eq reqs req s :
  run (reqs ++ [req]) s
  = ((run reqs s).1 ++ [(handle req (run reqs s).2).1],
     (handle req (run reqs s).2).2).
Proof.
  rewrite run_app. destruct (run reqs s) as [resps s1]. simpl.
  by destruct (handle req s1).
Qed.

(** Every request is answered. *)
Lemma run_length reqs s : length (run reqs s).1 = length reqs.
Proof.
  revert s. induction reqs as [|req reqs IH]; intros s; [done|].
  rewrite run_cons_eq. simpl. by rewrite IH.
Qed.

End any_server.

(** A server that answers each request as another does, through a map of
    states and on an invariant, answers every run as the other does. *)
Section simulation.
Context {S1 S2} `{!Server S1, !Server S2} (f : S1 → S2) (inv : S1 → Prop).
Context (Hinv : ∀ req s, inv s → inv (handle req s).2).
Context (Hsim : ∀ req s, inv s →
  handle req (f s) = ((handle req s).1, f (handle req s).2)).

Lemma run_simulation reqs s :
  inv s → run reqs (f s) = ((run reqs s).1, f (run reqs s).2).
Proof.
  revert s. induction reqs as [|req reqs IH]; intros s Hs; [done|].
  rewrite !run_cons_eq, Hsim by done. simpl. by rewrite IH by auto.
Qed.

End simulation.

Section runs.
Implicit Types (db : Db.t) (req : Request) (reqs : list Request).

Lemma run_reachable reqs db : reachable db → reachable (run reqs db).2.
Proof. apply (run_invariant reachable). intros. by constructor. Qed.

(** Reachability is what runs reach: a database is reachable exactly
    when serving some finite sequence of requests from the seed database
    ends in it. *)
Lemma reachable_run db : reachable db ↔ ∃ reqs, (run reqs Db.init).2 = db.
Proof.
  split; [|intros [reqs <-]; apply run_reachable; constructor].
  induction 1 as [|db req _ [reqs Hrun]]; [by exists []|].
  exists (reqs ++ [req]). by rewrite run_snoc, Hrun.
Qed.

(** The rules reach the same databases as the code. *)
Lemma reachable_by_steps db req resp db' :
  reachable db → db -[req / resp]-> db' → reachable db'.
Proof.
  intros Hdb Hs%step_dispatch_1. change db' with (resp, db').2.
  rewrite <-Hs. by constructor.
Qed.

End runs.

(** ** What every step preserves *)

Section dispatch_invariants.
Implicit Types (db : Db.t) (req : Request) (resp : Response.t) (job : Job.t).

Lemma dispatch_wf db req : wf db → wf (dispatch req db).2.
Proof.
  rewrite dispatch_db.
  destruct req; auto using wf_create_job, wf_accept_job, wf_assign_driver,
    wf_complete_job.
Qed.

(** A request adds at most one job. *)
Lemma dispatch_length db req :
  (length (Db.jobs (dispatch req db).2) ≤ length (Db.jobs db) + 1)%nat.
Proof.
  by_step db req; rewrite ?length_update_job; simpl;
    rewrite ?length_app; simpl; lia.
Qed.

(** C2. Every database the service can reach is well formed: the counter
    is positive; the ids of the jobs, in list order, are exactly 1, 2,
    ..., next_job_id - 1 (so ids are unique, issued in sequence and never
    reused, and no job is removed); every status is one of "available",
    "assigned", "completed"; a job whose status is "available" has no
    driver; the drivers are the seed drivers. *)
Theorem reachable_wf db : reachable db → wf db.
Proof. induction 1; auto using wf_init, dispatch_wf. Qed.

(** C10. Frame: a request changes at most the job it names.  For every
    id other than the one in the request's path (for [create_job], other
    than the id being issued), a scan finds after the request exactly
    what it found before. *)
Theorem dispatch_frame db req job_id :
  target req db ≠ Some job_id →
  Db.find_job job_id (dispatch req db).2 = Db.find_job job_id db.
Proof.
  by_step db req; intros Ht; try done;
    try (apply find_job_update_job_ne; [auto with prog|simpl in Ht; congruence]).
  apply (create_job_find_ne db body). simpl in Ht. congruence.
Qed.

(** Jobs are never deleted or reordered and the fields that no handler
    assigns (id, pickup, dropoff, load description) never change: the
    list of job descriptions before a request is a prefix of the list
    after it. *)
Lemma dispatch_descriptions db req :
  Job.description <$> Db.jobs db
  `prefix_of` Job.description <$> Db.jobs (dispatch req db).2.
Proof.
  by_step db req; try done; try (by rewrite update_job_fmap by auto with prog).
  simpl. rewrite fmap_app. by apply prefix_app_r.
Qed.

(** The id counter moves only when a job is created, and then by
    exactly one: it is never reset, and no other route touches it. *)
Lemma dispatch_next_job_id db req :
  Db.next_job_id (dispatch req db).2 =
    if req is CreateJob _ then Db.next_job_id db + 1 else Db.next_job_id db.
Proof. by_step db req; try done; by rewrite next_job_id_update_job. Qed.

(** C8. A job that has left "available" never returns to it: if a scan
    finds a job whose status is not "available", then after any request
    the scan for the same id still finds a job, and its status is still
    not "available". *)
Theorem dispatch_unavailable_stable db req job_id job :
  Db.find_job job_id db = Some job → Job.status job ≠ "available" →
  ∃ job', Db.find_job job_id (dispatch req db).2 = Some job' ∧
    Job.status job' ≠ "available".
Proof.
  by_step db req; intros Hf Hst; eauto;
    try (eexists; split;
         [by apply find_job_update_job_Some; auto with prog
         |by case_decide]).
  exists job. split; [|done]. by apply (create_job_find_Some body).
Qed.

(** Listing is pure: a GET request (home, the job list, the driver
    list) leaves the database as it is, so repeating it gives the same
    response. *)
Lemma get_pure db req :
  method req = GET →
  (dispatch req db).2 = db ∧
  dispatch req (dispatch req db).2 = dispatch req db.
Proof. by destruct req. Qed.

(** C34. The two error conventions: a response whose status is not 200
    can only come from [accept_job], it is the 400 or the 404 of that
    handler, and the database is unchanged.  The assign and complete
    routes report an unknown id in a 200 response. *)
Theorem error_status db req :
  Response.status_code (dispatch req db).1 ≠ 200 →
  (dispatch req db).2 = db ∧ ∃ job_id d, req = AcceptJob job_id d ∧
    ((dispatch req db).1 = error job_unavailable ∨
     (dispatch req db).1 = error job_not_found).
Proof. by_step db req; naive_solver. Qed.

End dispatch_invariants.

(** ** Accepting *)

Section accepting.
Implicit Types (db : Db.t) (req : Request) (job : Job.t).

(** An available job can always be accepted: a request to accept
    it, with or without a driver id, is answered 200 with the job
    assigned to that driver, and the job is updated in place. *)
Lemma accept_available db job_id d job :
  Db.find_job job_id db = Some job → Job.status job = "available" →
  dispatch (AcceptJob job_id d) db
  = (ok (JsonJob (assigned d job)), Db.update_job job_id (assigned d) db).
Proof. intros. apply step_dispatch_1. by constructor. Qed.

(** Accepting an id that was never issued: in a well-formed database, a
    request to accept a job whose id is below 1 or not below the counter
    is answered 404 "Job not found" and changes nothing. *)
Lemma accept_unissued db job_id d :
  wf db → ¬ (1 ≤ job_id < Db.next_job_id db) →
  dispatch (AcceptJob job_id d) db = (error job_not_found, db).
Proof.
  intros Hwf Hk. apply step_dispatch_1. constructor.
  by apply wf_find_job_None.
Qed.

(** C7. The first assignment stands against later accepts: once a job is
    not available, no sequence of accept requests, for any jobs and by
    any drivers, changes it. *)
Theorem accepts_keep_assignment reqs db job_id job :
  Forall is_accept reqs →
  Db.find_job job_id db = Some job → Job.status job ≠ "available" →
  Db.find_job job_id (run reqs db).2 = Some job.
Proof.
  intros Hreqs. revert db.
  induction Hreqs as [|req reqs Hreq _ IH]; intros db Hf Hst; [done|].
  rewrite run_cons. apply IH; [|done].
  destruct req as [| | |k d| | |]; try done.
  change (handle (AcceptJob k d) db) with (dispatch (AcceptJob k d) db).
  rewrite dispatch_db. by apply accept_job_keeps.
Qed.

End accepting.

(** ** The scenario of the specification *)

(** From the seed database: accepting job 1 for driver 2 succeeds,
    accepting it again is refused with 400, completing it succeeds,
    accepting the unknown job 9 is refused with 404; at the end job 1 is
    completed with driver 2 and job 2 is untouched. *)
Example scenario :
  let reqs := [AcceptJob 1 (Some 2); AcceptJob 1 (Some 2); CompleteJob 1;
               AcceptJob 9 None] in
  Response.status_code <$> (run reqs Db.init).1 = [200; 400; 200; 404] ∧
  (run reqs Db.init).1 !! 0%nat
  = Some (ok (JsonJob (Job.mk 1 "Amazon SODO" "Bellevue Downtown"
                         "Pallet of boxes" "assigned" (Some 2)))) ∧
  Db.find_job 1 (run reqs Db.init).2
  = Some (Job.mk 1 "Amazon SODO" "Bellevue Downtown" "Pallet of boxes"
            "completed" (Some 2)) ∧
  Db.find_job 2 (run reqs Db.init).2 = Db.find_job 2 Db.init.
Proof. by vm_compute. Qed.

(** ** What the invariant does not say *)

(** C38. The driver of a job is not checked.  A job can be assigned
    without a driver: accepting a job with no driver id leaves it with
    status "assigned" and no driver, so the converse of "available
    implies no driver" does not hold.  And driver ids are not checked
    against the drivers: a job can be assigned to a driver id that no
    driver has. *)
Theorem driver_unchecked :
  (∃ db job, reachable db ∧ Db.find_job 1 db = Some job ∧
     Job.status job = "assigned" ∧ Job.driver_id job = None) ∧
  (∃ db job d, reachable db ∧ job ∈ Db.jobs db ∧
     Job.driver_id job = Some d ∧ d ∉ Driver.id <$> Db.drivers db).
Proof.
  split.
  - exists (run [AcceptJob 1 None] Db.init).2. eexists.
    split; [apply run_reachable; constructor|]. by vm_compute.
  - exists (run [AssignDriver 1 99] Db.init).2. eexists _, 99.
    split; [apply run_reachable; constructor|].
    split_and!; [by apply list_elem_of_here|done|by_compute].
Qed.

(** ** Witnesses: the theorems at concrete requests *)

Lemma reachable_wf_witness :
  wf (run [CreateJob (JobCreate.mk "Dock 4" "Kirkland" "Crates");
           AcceptJob 3 (Some 1); CompleteJob 1; AssignDriver 2 2] Db.init).2.
Proof. apply reachable_wf, run_reachable. constructor. Defined.

Lemma dispatch_frame_witness :
  let req := AcceptJob 1 (Some 2) in
  target req Db.init ≠ Some 2 ∧
  Db.find_job 2 (dispatch req Db.init).2 = Db.find_job 2 Db.init.
Proof.
  split; [done|]. by apply (dispatch_frame Db.init (AcceptJob 1 (Some 2)) 2).
Defined.

Lemma dispatch_unavailable_stable_witness :
  let db1 := (run [AcceptJob 1 (Some 2)] Db.init).2 in
  let job1 := Job.mk 1 "Amazon SODO" "Bellevue Downtown" "Pallet of boxes"
                "assigned" (Some 2) in
  let req := CompleteJob 1 in
  Db.find_job 1 db1 = Some job1 ∧ Job.status job1 ≠ "available" ∧
  ∃ job', Db.find_job 1 (dispatch req db1).2 = Some job' ∧
    Job.status job' ≠ "available".
Proof.
  split_and!; [done..|].
  by apply (dispatch_unavailable_stable
    (run [AcceptJob 1 (Some 2)] Db.init).2 (CompleteJob 1) 1
    (Job.mk 1 "Amazon SODO" "Bellevue Downtown" "Pallet of boxes"
       "assigned" (Some 2))).
Defined.

Lemma error_status_witness :
  let req := AcceptJob 9 None in
  Response.status_code (dispatch req Db.init).1 ≠ 200 ∧
  (dispatch req Db.init).2 = Db.init ∧ ∃ job_id d, req = AcceptJob job_id d ∧
    ((dispatch req Db.init).1 = error job_unavailable ∨
     (dispatch req Db.init).1 = error job_not_found).
Proof.
  split; [done|]. by apply (error_status Db.init (AcceptJob 9 None)).
Defined.

Lemma accepts_keep_assignment_witness :
  let db1 := (run [AcceptJob 1 (Some 2)] Db.init).2 in
  let job1 := Job.mk 1 "Amazon SODO" "Bellevue Downtown" "Pallet of boxes"
                "assigned" (Some 2) in
  let reqs := [AcceptJob 1 (Some 1); AcceptJob 2 None; AcceptJob 1 None] in
  Forall is_accept reqs ∧
  Db.find_job 1 db1 = Some job1 ∧ Job.status job1 ≠ "available" ∧
  Db.find_job 1 (run reqs db1).2 = Some job1.
Proof.
  assert (Forall is_accept
    [AcceptJob 1 (Some 1); AcceptJob 2 None; AcceptJob 1 None]) as Hreqs
    by by_compute.
  split_and!; [done..|].
  by apply (accepts_keep_assignment _
    (run [AcceptJob 1 (Some 2)] Db.init).2 1
    (Job.mk 1 "Amazon SODO" "Bellevue Downtown" "Pallet of boxes"
       "assigned" (Some 2)) Hreqs).
Defined.
