(* ===== verification/Lifecycle.v ===== *)
(** * The life of a job, and the order of requests

    What the routes of src/main.py do to one job, put together:
    [job_effect] is the change a route makes to the job it names, so the
    database after any route but [create_job] is one [Db.update_job]
    ([dispatch_db_effect]).  From this:
    - the moves of a status are those of [status_step], and each of them
      can be made ([status_lifecycle], [status_step_realised]);
    - requests that update different jobs can be served in any order:
      they leave the same database and each is answered as if served
      alone ([dispatch_swap], [run_updates_perm]);
    - serving a request a second time changes nothing more
      ([dispatch_idempotent]). *)

From S2P Require Import Prelude Model Store Handlers Invariants Router.

(** ** Definitions *)

(** What a route does to the job it names. *)
Definition job_effect (req : Request) : Job.t → Job.t :=
  match req with
  | AcceptJob _ driver_id => accept_effect driver_id
  | AssignDriver _ driver_id => assigned (Some driver_id)
  | CompleteJob _ => completed
  | _ => id
  end.

(** The routes that update a job in place. *)
Definition is_update (req : Request) : Prop :=
  match req with
  | AcceptJob _ _ | AssignDriver _ _ | CompleteJob _ => True
  | _ => False
  end.

#[global] Instance is_update_dec req : Decision (is_update req).
Proof. destruct req; apply _. Defined.

Definition is_create (req : Request) : Prop :=
  if req is CreateJob _ then True else False.

#[global] Instance is_create_dec req : Decision (is_create req).
Proof. destruct req; apply _. Defined.

(** The moves of a status that one request can make: none, to
    "assigned" and to "completed", from any status. *)
Inductive status_step : string → string → Prop :=
| status_stay s : status_step s s
| status_assign s : status_step s "assigned"
| status_complete s : status_step s "completed".

#[global] Instance status_step_dec s s' : Decision (status_step s s').
Proof.
  refine (cast_if (decide (s' = s ∨ s' = "assigned" ∨ s' = "completed")));
    [destruct_or!; subst; constructor|intros Hs; destruct Hs; naive_solver].
Defined.

(** ** A request as one update *)

Section effects.
Implicit Types (db : Db.t) (req : Request) (k : Z) (job : Job.t).

Lemma id_job_effect req job : Job.id (job_effect req job) = Job.id job.
Proof. destruct req; simpl; auto with prog. Qed.

Lemma job_effect_idemp req job :
  job_effect req (job_effect req job) = job_effect req job.
Proof.
  destruct req; try done. simpl. unfold accept_effect.
  repeat case_decide; naive_solver.
Qed.

Lemma is_update_not_create req : is_update req → ¬ is_create req.
Proof. destruct req; simpl; tauto. Qed.

Lemma target_update req db db' : is_update req → target req db = target req db'.
Proof. by destruct req. Qed.

(** The database after a request that does not create a job. *)
Lemma dispatch_db_effect req db k :
  target req db = Some k → ¬ is_create req →
  (dispatch req db).2 = Db.update_job k (job_effect req) db.
Proof.
  rewrite dispatch_db. destruct req; try done; intros [= <-] _;
    auto using accept_job_db, assign_driver_db, complete_job_db.
Qed.

(** The response to a request that updates a job depends on that job
    only. *)
Lemma dispatch_response_find req db1 db2 k :
  is_update req → target req db1 = Some k →
  Db.find_job k db1 = Db.find_job k db2 →
  (dispatch req db1).1 = (dispatch req db2).1.
Proof.
  destruct req; try done; intros _ [= <-] Hk; unfold dispatch, serve;
    rewrite ?accept_job_run, ?assign_driver_run, ?complete_job_run, Hk;
    destruct (Db.find_job _ db2); try done; by case_decide.
Qed.

(** A request that updates a job is answered the same after an update
    of another job. *)
Lemma dispatch_response_update req db k k' (f : Job.t → Job.t) :
  is_update req → target req db = Some k → k ≠ k' →
  (∀ job, Job.id (f job) = Job.id job) →
  (dispatch req (Db.update_job k' f db)).1 = (dispatch req db).1.
Proof.
  intros Hreq Ht Hne Hf. apply (dispatch_response_find req _ _ k); [done| |].
  - by rewrite <-(target_update req db).
  - by apply find_job_update_job_ne.
Qed.

End effects.

(** ** The order of requests *)

Section order.
Implicit Types (db : Db.t) (req : Request) (k : Z) (job : Job.t).

(** Two updates of different jobs leave the same database in either
    order. *)
Lemma dispatch_swap req1 req2 db :
  is_update req1 → is_update req2 → target req1 db ≠ target req2 db →
  (dispatch req2 (dispatch req1 db).2).2 = (dispatch req1 (dispatch req2 db).2).2.
Proof.
  intros Hr1 Hr2 Hne.
  destruct (target req1 db) as [k1|] eqn:Ht1; [|by destruct req1].
  destruct (target req2 db) as [k2|] eqn:Ht2; [|by destruct req2].
  rewrite (dispatch_db_effect req1 db k1), (dispatch_db_effect req2 db k2)
    by auto using is_update_not_create.
  rewrite (dispatch_db_effect req2 _ k2), (dispatch_db_effect req1 _ k1)
    by (rewrite <-?(target_update _ db); auto using is_update_not_create).
  apply update_job_commute; auto using id_job_effect. congruence.
Qed.

(** An update is answered the same after an update of another job. *)
Lemma dispatch_response_after req req' db :
  is_update req → is_update req' → target req db ≠ target req' db →
  (dispatch req (dispatch req' db).2).1 = (dispatch req db).1.
Proof.
  intros Hr Hr' Hne.
  destruct (target req db) as [k|] eqn:Ht; [|by destruct req].
  destruct (target req' db) as [k'|] eqn:Ht'; [|by destruct req'].
  rewrite (dispatch_db_effect req' db k') by auto using is_update_not_create.
  apply (dispatch_response_update req db k); auto using id_job_effect. congruence.
Qed.

(** The jobs that updates name do not depend on the database. *)
Lemma targets_update reqs db db' :
  Forall is_update reqs →
  (λ req, target req db) <$> reqs = (λ req, target req db') <$> reqs.
Proof.
  intros Hupd. apply list_fmap_ext. intros i req Hreq.
  apply target_update. by eapply (Forall_lookup_1 _ _ _ _ Hupd).
Qed.

(** Updates of different jobs, served one after the other, are each
    answered as if served alone. *)
Lemma run_updates_responses reqs db :
  Forall is_update reqs → NoDup ((λ req, target req db) <$> reqs) →
  (run reqs db).1 = (λ req, (dispatch req db).1) <$> reqs.
Proof.
  intros Hupd. revert db.
  induction Hupd as [|req reqs Hreq Hupd IH]; intros db Hnd; [done|].
  rewrite run_cons_eq. change (handle req db) with (dispatch req db).
  apply NoDup_cons in Hnd as [Hout Hnd]. cbn [fst fmap list_fmap]. f_equal.
  rewrite IH by (by rewrite <-(targets_update reqs db)).
  apply list_fmap_ext. intros i req' Hi.
  apply dispatch_response_after; [by eapply (Forall_lookup_1 _ _ _ _ Hupd)|done|].
  intros Heq. apply Hout. rewrite <-Heq. apply list_elem_of_fmap.
  exists req'. split; [done|by eapply list_elem_of_lookup_2].
Qed.

(** And they leave the same database in whatever order they are served. *)
Lemma run_updates_db reqs reqs' db :
  Forall is_update reqs → NoDup ((λ req, target req db) <$> reqs) →
  reqs ≡ₚ reqs' → (run reqs' db).2 = (run reqs db).2.
Proof.
  intros Hupd Hnd Hp. revert db Hupd Hnd.
  induction Hp as [|req reqs reqs' _ IH|req1 req2 reqs|reqs1 reqs2 reqs3 Hp1 IH1 Hp2 IH2];
    intros db Hupd Hnd.
  - done.
  - apply Forall_cons in Hupd as [Hreq Hupd]. apply NoDup_cons in Hnd as [_ Hnd].
    rewrite !run_cons. apply IH; [done|].
    by rewrite <-(targets_update reqs db).
  - apply Forall_cons in Hupd as [Hr2 [Hr1 _]%Forall_cons].
    apply NoDup_cons in Hnd as [Hne%not_elem_of_cons _].
    rewrite !run_cons. change (@handle Db.t _) with dispatch.
    rewrite (dispatch_swap req1 req2); [done..|]. naive_solver.
  - rewrite IH2, IH1; [done..| |]; by rewrite <-Hp1.
Qed.

(** C20. The order of updates of different jobs does not matter:
    requests to accept, assign or complete jobs, each for a job id of its
    own, leave the same database in whatever order they are served, and
    each is answered as if it were served alone. *)
Theorem run_updates_perm reqs reqs' db :
  Forall is_update reqs → NoDup ((λ req, target req db) <$> reqs) →
  reqs ≡ₚ reqs' →
  (run reqs' db).2 = (run reqs db).2 ∧
  (run reqs db).1 = (λ req, (dispatch req db).1) <$> reqs ∧
  (run reqs' db).1 = (λ req, (dispatch req db).1) <$> reqs'.
Proof.
  intros Hupd Hnd Hp.
  split_and!; [by apply run_updates_db|by apply run_updates_responses|].
  apply run_updates_responses; by rewrite <-Hp.
Qed.

(** C40. Serving a request a second time changes nothing more: for
    every route but the creation of a job, the database after the
    request is left as it is by the same request served again.  (The
    response may differ: a second accept is refused.) *)
Theorem dispatch_idempotent req db :
  ¬ is_create req →
  (dispatch req (dispatch req db).2).2 = (dispatch req db).2.
Proof.
  intros Hreq. destruct (target req db) as [k|] eqn:Ht; [|by destruct req].
  assert (target req (dispatch req db).2 = Some k) as Ht' by (by destruct req).
  rewrite (dispatch_db_effect req _ k Ht' Hreq).
  rewrite (dispatch_db_effect req db k Ht Hreq).
  rewrite update_job_update_job by auto using id_job_effect.
  apply update_job_ext. intros job _. apply job_effect_idemp.
Qed.

End order.

(** ** The life of a job *)

Section life.
Implicit Types (db : Db.t) (req : Request) (k : Z) (job : Job.t).

(** C30. The life of a job: whatever the request, a job that is found
    before it is found after it, its status has stayed, or has become
    "assigned" or "completed" (never "available" again, never anything
    else), and its driver has changed only if the job is now assigned. *)
Theorem status_lifecycle req db k job :
  Db.find_job k db = Some job →
  ∃ job', Db.find_job k (dispatch req db).2 = Some job' ∧
    status_step (Job.status job) (Job.status job') ∧
    (Job.driver_id job' = Job.driver_id job ∨ Job.status job' = "assigned").
Proof.
  intros Hk. by_step db req; eauto using status_step;
    try (eexists; split;
         [by apply find_job_update_job_Some; auto with prog|];
         case_decide; eauto using status_step).
  exists job. split; [by apply (create_job_find_Some body)|].
  eauto using status_step.
Qed.

(** C36. Every move of [status_step] can be made, from any status: there
    is no order of statuses that the routes enforce.  A completed job can
    be assigned again, and an available job can be completed without
    having been assigned. *)
Theorem status_step_realised s s' k :
  status_step s s' →
  ∃ req, ∀ db job,
    Db.find_job k db = Some job → Job.status job = s →
    ∃ job', Db.find_job k (dispatch req db).2 = Some job' ∧
      Job.status job' = s'.
Proof.
  intros [| |].
  - exists GetJobs. eauto.
  - exists (AssignDriver k 1). intros db job Hk _.
    exists (assigned (Some 1) job). split; [|done].
    rewrite dispatch_db, assign_driver_db.
    by rewrite find_job_update_job_eq, Hk by auto with prog.
  - exists (CompleteJob k). intros db job Hk _.
    exists (completed job). split; [|done].
    rewrite dispatch_db, complete_job_db.
    by rewrite find_job_update_job_eq, Hk by auto with prog.
Qed.

End life.

(** ** Witnesses *)

Lemma run_updates_perm_witness :
  let reqs := [AcceptJob 1 (Some 2); CompleteJob 2] in
  let reqs' := [CompleteJob 2; AcceptJob 1 (Some 2)] in
  (run reqs' Db.init).2 = (run reqs Db.init).2 ∧
  (run reqs Db.init).1 = (λ req, (dispatch req Db.init).1) <$> reqs ∧
  (run reqs' Db.init).1 = (λ req, (dispatch req Db.init).1) <$> reqs'.
Proof.
  apply (run_updates_perm [AcceptJob 1 (Some 2); CompleteJob 2]);
    [by_compute|by_compute|apply perm_swap].
Defined.

Lemma status_lifecycle_witness :
  let db := (dispatch (CompleteJob 1) Db.init).2 in
  let job := Job.mk 1 "Amazon SODO" "Bellevue Downtown" "Pallet of boxes"
               "completed" None in
  Db.find_job 1 db = Some job ∧
  ∃ job', Db.find_job 1 (dispatch (AssignDriver 1 2) db).2 = Some job' ∧
    status_step (Job.status job) (Job.status job') ∧
    (Job.driver_id job' = Job.driver_id job ∨ Job.status job' = "assigned").
Proof.
  split; [done|].
  by apply (status_lifecycle (AssignDriver 1 2)
              (dispatch (CompleteJob 1) Db.init).2 1).
Defined.

Lemma status_step_realised_witness :
  status_step "completed" "assigned" ∧
  ∃ req, ∀ db job,
    Db.find_job 1 db = Some job → Job.status job = "completed" →
    ∃ job', Db.find_job 1 (dispatch req db).2 = Some job' ∧
      Job.status job' = "assigned".
Proof.
  split; [by_compute|]. apply status_step_realised. by_compute.
Defined.

Lemma dispatch_idempotent_witness :
  ¬ is_create (CompleteJob 1) ∧
  (dispatch (CompleteJob 1) (dispatch (CompleteJob 1) Db.init).2).2
  = (dispatch (CompleteJob 1) Db.init).2.
Proof. split; [by_compute|]. apply dispatch_idempotent. by_compute. Defined.
