(* ===== verification/Abstract.v ===== *)
(** * The job board: what the service promises, and that the code keeps it

    The specification keeps the jobs in a finite map from ids to jobs
    ([Board.t]) instead of a list that is scanned: a handler looks its
    job up, and replaces it.  [Board.route] answers a request on a board;
    it is a second [Server] beside the code's.

    [abs] reads a database as a board.  A lookup in the board of a
    database is the scan of its list ([abs_lookup]), whatever the list,
    so the routes that scan commute with [abs] on every database
    ([route_scan]); creating and listing jobs commute on well-formed
    databases, where the id issued is fresh and the list is in id order.
    Hence the refinement theorems [route_refines] and [run_refines]: on
    the databases the service reaches, the code answers every sequence
    of requests as the board does.  [concr] is the inverse of [abs]:
    well-formed databases and well-formed boards are the same thing.

    Two databases with the same board are [≡]; the scanning routes cannot
    tell them apart. *)

From stdpp Require Import gmap.
From S2P Require Import Prelude Model Store Handlers Invariants Router.

(** ** The board *)

Module Board.

Record t : Type := mk {
  table : gmap Z Job.t;
  next_id : Z;
  drivers : list Driver.t;
}.

Definition set_table (m : gmap Z Job.t) (b : t) : t :=
  mk m (next_id b) (drivers b).

(** The jobs in the order of their ids. *)
Definition listing (b : t) : list Job.t :=
  omap (λ k, table b !! k) (seqZ 1 (next_id b - 1)).

Definition create (body : JobCreate.t) : prog t HTTPException.t Job.t :=
  λ b,
    let job := new_job (next_id b) body in
    (Return job, mk (<[next_id b := job]> (table b)) (next_id b + 1) (drivers b)).

Definition accept (job_id : Z) (driver_id : option Z) :
    prog t HTTPException.t Job.t :=
  λ b,
    match table b !! job_id with
    | Some job =>
        if decide (Job.status job = "available") then
          (Return (assigned driver_id job),
           set_table (<[job_id := assigned driver_id job]> (table b)) b)
        else (Raise job_unavailable, b)
    | None => (Raise job_not_found, b)
    end.

Definition assign (job_id driver_id : Z) : prog t HTTPException.t Dict :=
  λ b,
    match table b !! job_id with
    | Some job =>
        (Return (MessageJob "Driver assigned" (assigned (Some driver_id) job)),
         set_table (<[job_id := assigned (Some driver_id) job]> (table b)) b)
    | None => (Return (Error "Job not found"), b)
    end.

Definition complete (job_id : Z) : prog t HTTPException.t Dict :=
  λ b,
    match table b !! job_id with
    | Some job =>
        (Return (MessageJob "Job completed" (completed job)),
         set_table (<[job_id := completed job]> (table b)) b)
    | None => (Return (Error "Job not found"), b)
    end.

Definition route (req : Request) : t → Response.t * t :=
  match req with
  | Home => serve JsonDict (mret (Message "Last-Mile Logistics API is live!"))
  | GetJobs => serve JsonJobs (gets listing)
  | CreateJob body => serve JsonJob (create body)
  | AcceptJob job_id driver_id => serve JsonJob (accept job_id driver_id)
  | AssignDriver job_id driver_id => serve JsonDict (assign job_id driver_id)
  | CompleteJob job_id => serve JsonDict (complete job_id)
  | GetDrivers => serve JsonDrivers (gets drivers)
  end.

(** The ids in use are 1, ..., [next_id - 1]; a job is stored under its
    id; status and driver fit together. *)
Definition wf (b : t) : Prop :=
  1 ≤ next_id b ∧
  dom (table b) = list_to_set (seqZ 1 (next_id b - 1)) ∧
  map_Forall (λ k job, Job.id job = k ∧ job_ok job) (table b) ∧
  drivers b = Db.drivers Db.init.

End Board.

#[global] Instance board_server : Server Board.t := Board.route.

(** ** Databases as boards *)

(** The table of a list of jobs: each id with the first job that has it. *)
Definition job_table (jobs : list Job.t) : gmap Z Job.t :=
  list_to_map ((λ job, (Job.id job, job)) <$> jobs).

Definition abs (db : Db.t) : Board.t :=
  Board.mk (job_table (Db.jobs db)) (Db.next_job_id db) (Db.drivers db).

Definition concr (b : Board.t) : Db.t :=
  Db.mk (Board.drivers b) (Board.listing b) (Board.next_id b).

(** Databases that are the same board. *)
#[global] Instance db_equiv : Equiv Db.t := λ db1 db2, abs db1 = abs db2.

(** The routes that scan for a job or read no job at all. *)
Definition is_scan (req : Request) : Prop :=
  match req with
  | GetJobs | CreateJob _ => False
  | _ => True
  end.

#[global] Instance is_scan_dec req : Decision (is_scan req).
Proof. destruct req; apply _. Defined.

(** ** Lookup in the table is the scan *)

Section table.
Implicit Types (db : Db.t) (job : Job.t) (jobs : list Job.t) (k : Z).

Lemma job_table_lookup jobs k :
  job_table jobs !! k = snd <$> list_find (λ job, Job.id job = k) jobs.
Proof.
  unfold job_table. induction jobs as [|job jobs IH]; [done|].
  rewrite fmap_cons, list_to_map_cons. simpl. case_decide as Hk.
  - by rewrite Hk, lookup_insert_eq.
  - rewrite lookup_insert_ne, IH by done. by destruct (list_find _ jobs).
Qed.

Lemma abs_lookup db k : Board.table (abs db) !! k = Db.find_job k db.
Proof. apply job_table_lookup. Qed.

Lemma abs_eq db b :
  (∀ k, Db.find_job k db = Board.table b !! k) →
  Db.next_job_id db = Board.next_id b → Db.drivers db = Board.drivers b →
  abs db = b.
Proof.
  intros Hk Hn Hd. destruct b as [m n ds]. unfold abs. simpl in *.
  rewrite Hn, Hd. f_equal. apply map_eq. intros k.
  by rewrite job_table_lookup, <-Hk.
Qed.

(** Updating the job found replaces it in the table. *)
Lemma abs_update_job (f : Job.t → Job.t) db k job :
  (∀ job, Job.id (f job) = Job.id job) →
  Db.find_job k db = Some job →
  abs (Db.update_job k f db)
  = Board.set_table (<[k := f job]> (Board.table (abs db))) (abs db).
Proof.
  intros Hid Hf. apply abs_eq; simpl;
    [|by rewrite next_job_id_update_job|by rewrite drivers_update_job].
  intros k'. destruct (decide (k' = k)) as [->|Hne].
  - by rewrite lookup_insert_eq, find_job_update_job_eq, Hf.
  - by rewrite lookup_insert_ne, find_job_update_job_ne, job_table_lookup.
Qed.

(** Appending a job with a fresh id inserts it. *)
Lemma abs_create_job db body :
  Db.find_job (Db.next_job_id db) db = None →
  abs (create_job body db).2 = (Board.create body (abs db)).2.
Proof.
  intros Hfresh. apply abs_eq; [|by rewrite create_job_run..]. intros k.
  change (Board.table (Board.create body (abs db)).2)
    with (<[Db.next_job_id db := new_job (Db.next_job_id db) body]>
            (job_table (Db.jobs db))).
  destruct (decide (k = Db.next_job_id db)) as [->|Hne].
  - by rewrite lookup_insert_eq, create_job_find_new.
  - by rewrite lookup_insert_ne, create_job_find_ne, job_table_lookup.
Qed.

(** The jobs of a well-formed database are listed in the order of their
    ids. *)
Lemma listing_abs db : wf db → Board.listing (abs db) = Db.jobs db.
Proof.
  intros Hwf. unfold Board.listing. simpl.
  rewrite <-(wf_job_ids db Hwf). apply omap_fmap_Some. intros job Hjob.
  rewrite job_table_lookup. apply (find_job_elem_of db); [|done].
  by apply wf_NoDup.
Qed.

End table.

(** ** The code refines the board *)

(** Put a route of the board in terms of the scan of the database. *)
Ltac board_unfold :=
  unfold Board.route, serve, Board.accept, Board.assign, Board.complete;
  rewrite ?abs_lookup;
  repeat match goal with
         | H : Db.find_job _ _ = _ |- _ => rewrite H
         end;
  rewrite ?decide_True, ?decide_False by done; simpl.

Section refinement.
Implicit Types (db : Db.t) (req : Request) (reqs : list Request).

(** The routes that scan commute with [abs] on every database. *)
Lemma route_scan db req :
  is_scan req →
  Board.route req (abs db) = ((dispatch req db).1, abs (dispatch req db).2).
Proof.
  by_step db req; try done; intros _; board_unfold; try done;
    by erewrite abs_update_job; [|auto with prog|].
Qed.

(** Creating and listing commute with [abs] on well-formed databases:
    the id issued is fresh, and the list is in id order. *)
Lemma route_refines db req :
  wf db →
  Board.route req (abs db) = ((dispatch req db).1, abs (dispatch req db).2).
Proof.
  intros Hwf. destruct (decide (is_scan req)); [by apply route_scan|].
  destruct req as [| |body| | | |]; try done; unfold Board.route, serve.
  - simpl. by rewrite listing_abs.
  - by rewrite dispatch_db, abs_create_job by by apply wf_next_job_id_fresh.
Qed.

(** C3. The code refines the board.  From a well-formed database, the
    code answers every sequence of requests with the responses the board
    gives, and the database it ends in is, read as a board, the board
    the specification ends in: a scan of the list is a lookup in the
    map, the in-place update of the job found is an insertion under its
    id, appending a job is an insertion under the id issued, and the
    list returned is the jobs in id order. *)
Theorem run_refines reqs db :
  wf db → run reqs (abs db) = ((run reqs db).1, abs (run reqs db).2).
Proof.
  apply (run_simulation abs wf); intros;
    [by apply dispatch_wf|by apply route_refines].
Qed.

End refinement.

(** ** Well-formed boards *)

Section boards.
Implicit Types (b : Board.t) (db : Db.t) (k : Z) (job : Job.t).

Lemma board_wf_lookup b k :
  Board.wf b → is_Some (Board.table b !! k) ↔ 1 ≤ k < Board.next_id b.
Proof.
  intros (?&Hdom&_).
  rewrite <-elem_of_dom, Hdom, elem_of_list_to_set, elem_of_seqZ. lia.
Qed.

Lemma board_wf_job b k job :
  Board.wf b → Board.table b !! k = Some job → Job.id job = k ∧ job_ok job.
Proof. intros (_&_&Hm&_) Hk. by apply (Hm k job). Qed.

(** Replacing a job by a consistent job with the same id. *)
Lemma board_wf_insert b k job job' :
  Board.wf b → Board.table b !! k = Some job →
  Job.id job' = Job.id job → job_ok job' →
  Board.wf (Board.set_table (<[k := job']> (Board.table b)) b).
Proof.
  intros Hwf Hk Hid Hok. destruct (board_wf_job b k job Hwf Hk) as [Hjob _].
  destruct Hwf as (?&Hdom&Hm&?). split_and!; simpl; [done| |  |done].
  - by rewrite dom_insert_lookup_L by by eexists.
  - apply map_Forall_insert_2; [|done]. split; [congruence|done].
Qed.

Lemma board_wf_create b body : Board.wf b → Board.wf (Board.create body b).2.
Proof.
  intros (?&Hdom&Hm&?). split_and!; simpl; [lia| | |done].
  - rewrite dom_insert_L, Hdom.
    replace (Board.next_id b + 1 - 1) with (Board.next_id b - 1 + 1) by lia.
    rewrite seqZ_snoc, list_to_set_app_L by lia. simpl.
    replace (1 + (Board.next_id b - 1)) with (Board.next_id b) by lia.
    set_solver.
  - apply map_Forall_insert_2; [|done]. split; [done|apply job_ok_new_job].
Qed.

(** The board keeps itself well formed. *)
Lemma board_wf_route b req : Board.wf b → Board.wf (Board.route req b).2.
Proof.
  intros Hwf. destruct req; unfold Board.route, serve; try done.
  - by apply board_wf_create.
  - unfold Board.accept. destruct (Board.table b !! _) eqn:?;
      [case_decide|]; simpl; try done.
    eapply board_wf_insert; eauto with prog.
  - unfold Board.assign. destruct (Board.table b !! _) eqn:?; simpl; try done.
    eapply board_wf_insert; eauto with prog.
  - unfold Board.complete. destruct (Board.table b !! _) eqn:?; simpl; try done.
    eapply board_wf_insert; eauto with prog.
Qed.

(** The board of a well-formed database is well formed. *)
Lemma abs_wf db : wf db → Board.wf (abs db).
Proof.
  intros Hwf. split_and!; simpl; [apply Hwf| | |apply Hwf].
  - apply set_eq. intros k. pose proof (wf_find_job_is_Some db Hwf k) as Hk.
    unfold Db.find_job in Hk.
    rewrite elem_of_dom, job_table_lookup, elem_of_list_to_set, elem_of_seqZ.
    rewrite Hk. lia.
  - intros k job Hk. rewrite job_table_lookup in Hk.
    apply find_job_Some in Hk as [? ?]. eauto using wf_job_ok.
Qed.

(** The database of a well-formed board is well formed. *)
Lemma concr_wf b : Board.wf b → wf (concr b).
Proof.
  intros Hwf. split_and!; simpl; [apply Hwf| | |apply Hwf].
  - apply fmap_omap_Some. intros k Hk.
    destruct (proj2 (board_wf_lookup b k Hwf)) as [job Hjob].
    { apply elem_of_seqZ in Hk. lia. }
    exists job. split; [done|]. by eapply board_wf_job.
  - apply Forall_forall. intros job (k&_&Hk)%list_elem_of_omap.
    by eapply board_wf_job.
Qed.

(** A well-formed database is its board: the board is well formed, and
    listing its jobs in id order gives the database back. *)
Lemma concr_abs db : wf db → Board.wf (abs db) ∧ concr (abs db) = db.
Proof.
  intros Hwf. split; [by apply abs_wf|]. unfold concr.
  rewrite listing_abs by done. by destruct db.
Qed.

(** Every well-formed board is the board of a well-formed database, the
    one that lists its jobs in id order. *)
Lemma abs_concr b : Board.wf b → wf (concr b) ∧ abs (concr b) = b.
Proof.
  intros Hwf. pose proof (concr_wf b Hwf) as Hwf'. split; [done|].
  apply abs_eq; [|done..]. intros k.
  destruct (Board.table b !! k) as [job|] eqn:Hk.
  - destruct (board_wf_job b k job Hwf Hk) as [<- _].
    apply find_job_elem_of; [by apply wf_NoDup|]. simpl.
    apply list_elem_of_omap. exists (Job.id job). split; [|done].
    apply elem_of_seqZ.
    pose proof (proj1 (board_wf_lookup b _ Hwf) (mk_is_Some _ _ Hk)). lia.
  - apply (wf_find_job_None _ Hwf'). simpl.
    rewrite <-(board_wf_lookup b k Hwf), Hk. apply is_Some_None.
Qed.

End boards.

(** ** Databases with the same board *)

#[global] Instance db_equiv_equivalence : Equivalence (≡@{Db.t}).
Proof. split; repeat intro; unfold equiv, db_equiv in *; congruence. Qed.

#[global] Instance db_equiv_dec : RelDecision (≡@{Db.t}).
Proof. intros db1 db2. unfold equiv, db_equiv. solve_decision. Defined.

#[global] Instance find_job_proper k : Proper ((≡) ==> (=)) (Db.find_job k).
Proof.
  intros db1 db2 Heq. unfold equiv, db_equiv in Heq.
  by rewrite <-!abs_lookup, Heq.
Qed.

#[global] Instance next_job_id_proper : Proper ((≡) ==> (=)) Db.next_job_id.
Proof. intros db1 db2 Heq. exact (f_equal Board.next_id Heq). Qed.

#[global] Instance drivers_proper : Proper ((≡) ==> (=)) Db.drivers.
Proof. intros db1 db2 Heq. exact (f_equal Board.drivers Heq). Qed.

Section same_board.
Implicit Types (db : Db.t) (req : Request) (reqs : list Request).

Lemma dispatch_equiv req db1 db2 :
  is_scan req → db1 ≡ db2 →
  (dispatch req db1).1 = (dispatch req db2).1 ∧
  (dispatch req db1).2 ≡ (dispatch req db2).2.
Proof.
  intros Hreq Heq. unfold equiv, db_equiv in *.
  pose proof (route_scan db1 req Hreq) as H1.
  rewrite Heq, route_scan in H1 by done. apply pair_eq in H1 as [? ?].
  by split.
Qed.

(** C33. Databases with the same board (the same job under each id, the
    same counter and drivers) cannot be told apart by the routes that
    scan: the responses to any sequence of such requests are equal, and
    the databases still have the same board.  A job that stands behind
    another job with its id is never read nor written. *)
Theorem run_equiv reqs db1 db2 :
  Forall is_scan reqs → db1 ≡ db2 →
  (run reqs db1).1 = (run reqs db2).1 ∧ (run reqs db1).2 ≡ (run reqs db2).2.
Proof.
  intros Hreqs. revert db1 db2.
  induction Hreqs as [|req reqs Hreq _ IH]; intros db1 db2 Heq; [done|].
  rewrite !run_cons_eq. cbn [fst snd].
  destruct (dispatch_equiv req db1 db2 Hreq Heq) as [Hr Hd].
  destruct (IH _ _ Hd) as [Hrs Hds]. split; [|exact Hds].
  f_equal; [exact Hr|exact Hrs].
Qed.

End same_board.

(** ** Witnesses *)

Lemma run_refines_witness :
  let reqs := [CreateJob (JobCreate.mk "Dock 4" "Kirkland" "Crates");
               AcceptJob 3 (Some 1); GetJobs; CompleteJob 9] in
  wf Db.init ∧
  run reqs (abs Db.init) = ((run reqs Db.init).1, abs (run reqs Db.init).2).
Proof. split; [by_compute|]. apply run_refines. by_compute. Defined.

Lemma run_equiv_witness :
  let shadowed := Job.mk 1 "Dock 4" "Kirkland" "Crates" "available" None in
  let db := Db.set_jobs (Db.jobs Db.init ++ [shadowed]) Db.init in
  let reqs := [AcceptJob 1 (Some 2); CompleteJob 1; AssignDriver 2 1] in
  Forall is_scan reqs ∧ db ≡ Db.init ∧
  (run reqs db).1 = (run reqs Db.init).1 ∧
  (run reqs db).2 ≡ (run reqs Db.init).2.
Proof.
  assert (Forall is_scan
    [AcceptJob 1 (Some 2); CompleteJob 1; AssignDriver 2 1]) as Hreqs
    by by_compute.
  split; [done|]. split; [by_compute|]. apply run_equiv; [done|by_compute].
Defined.
