(* ===== verification/Interleaving.v ===== *)
(** * Handlers as threads: what interleaving does to the service

    The handlers of src/main.py are plain functions, which the framework
    runs on a pool of threads; nothing in the file takes a lock.  Here a
    request in progress is a [thread]: a position in its handler, and a
    [step_thread] is one access to the shared [jobs] and [next_job_id]
    (one turn of the loop header, one test, one attribute assignment, one
    read or write of the counter).  A job being worked on is held by its
    position in the list, which is its identity: jobs are never removed
    or moved.  [exec] runs a schedule, a list of thread numbers.

    A handler returns the object itself ([return job], [return jobs]) and
    the framework encodes it afterwards.  The last step of a thread is
    that encoding: it can be scheduled at any moment after the last
    statement of the handler, and it reads the object at once.  The
    theorems on responses hold whenever the encoding happens; none
    depends on its being one step, except where a schedule is exhibited.

    - A thread that runs alone is the handler ([thread_atomic]), and a
      schedule that runs the threads one after the other is a [run]
      ([exec_serial]): the other files describe the serial schedules.
    - Every schedule keeps statuses valid and available jobs without a
      driver ([exec_job_ok]), because each handler writes the status
      before the driver; and none removes or renames a job
      ([exec_keeps]).
    - Not every schedule is serial: two accepts of a job can both
      succeed ([double_accept]), two creations can issue the same id
      ([duplicate_id]), and a list of the jobs can show an accept half
      done ([torn_read]). *)

From S2P Require Import Prelude Model Store Handlers Invariants Router.

(** ** Threads *)

(** The statements of a loop body before its [return]. *)
Inductive instr : Type :=
| IfNotAvailableRaise
| SetStatus (v : string)
| SetDriverId (v : option Z).

#[global] Instance instr_eq_dec : EqDecision instr.
Proof. solve_decision. Defined.

(** [return job] and [return {"message": message, "job": job}]. *)
Inductive ret : Type :=
| ReturnJob
| ReturnMessageJob (message : string).

#[global] Instance ret_eq_dec : EqDecision ret.
Proof. solve_decision. Defined.

Definition returned (r : ret) (job : Job.t) : Response.t :=
  match r with
  | ReturnJob => ok (JsonJob job)
  | ReturnMessageJob message => ok (JsonDict (MessageJob message job))
  end.

Inductive thread : Type :=
| Scan (job_id : Z) (i : nat) (body : list instr) (r : ret) (orelse : Response.t)
| Body (i : nat) (body : list instr) (r : ret)
| CreateBuild (job : JobCreate.t)
| CreateAppend (new_job : Job.t)
| CreateLoad (i : nat)
| CreateStore (i : nat) (v : Z)
| ReadOnly (req : Request)
| Done (resp : Response.t).

#[global] Instance thread_eq_dec : EqDecision thread.
Proof. solve_decision. Defined.

(** A request at the entry of its handler. *)
Definition start (req : Request) : thread :=
  match req with
  | Home | GetJobs | GetDrivers => ReadOnly req
  | CreateJob job => CreateBuild job
  | AcceptJob job_id driver_id =>
      Scan job_id 0
        [IfNotAvailableRaise; SetStatus "assigned"; SetDriverId driver_id]
        ReturnJob (error job_not_found)
  | AssignDriver job_id driver_id =>
      Scan job_id 0 [SetStatus "assigned"; SetDriverId (Some driver_id)]
        (ReturnMessageJob "Driver assigned")
        (ok (JsonDict (Error "Job not found")))
  | CompleteJob job_id =>
      Scan job_id 0 [SetStatus "completed"]
        (ReturnMessageJob "Job completed")
        (ok (JsonDict (Error "Job not found")))
  end.

(** An attribute assignment on the job at position [i]. *)
Definition write (i : nat) (f : Job.t → Job.t) (db : Db.t) : Db.t :=
  Db.set_jobs (alter f i (Db.jobs db)) db.

(** One access to the shared state. *)
Definition step_thread (t : thread) (db : Db.t) : thread * Db.t :=
  match t with
  | Scan job_id i body r orelse =>
      match Db.jobs db !! i with
      | Some job =>
          if decide (Job.id job = job_id) then (Body i body r, db)
          else (Scan job_id (S i) body r orelse, db)
      | None => (Done orelse, db)
      end
  | Body i (IfNotAvailableRaise :: body) r =>
      match Db.jobs db !! i with
      | Some job =>
          if decide (Job.status job ≠ "available")
          then (Done (error job_unavailable), db)
          else (Body i body r, db)
      | None => (t, db)
      end
  | Body i (SetStatus v :: body) r =>
      (Body i body r, write i (Job.set_status v) db)
  | Body i (SetDriverId v :: body) r =>
      (Body i body r, write i (Job.set_driver_id v) db)
  | Body i [] r =>
      match Db.jobs db !! i with
      | Some job => (Done (returned r job), db)
      | None => (t, db)
      end
  | CreateBuild job =>
      (CreateAppend (new_job (Db.next_job_id db) job), db)
  | CreateAppend new_job =>
      (CreateLoad (length (Db.jobs db)),
       Db.set_jobs (Db.jobs db ++ [new_job]) db)
  | CreateLoad i => (CreateStore i (Db.next_job_id db), db)
  | CreateStore i v => (Body i [] ReturnJob, Db.set_next_job_id (v + 1) db)
  | ReadOnly req => (Done (dispatch req db).1, db)
  | Done resp => (t, db)
  end.

(** A thread running alone, for at most [fuel] steps. *)
Fixpoint run_thread (fuel : nat) (t : thread) (db : Db.t) : thread * Db.t :=
  match fuel with
  | O => (t, db)
  | S fuel => let '(t', db') := step_thread t db in run_thread fuel t' db'
  end.

(** The threads and the database they share. *)
Definition config : Type := Db.t * list thread.

(** The thread numbered [tid] takes a step. *)
Definition sched_step (tid : nat) (c : config) : config :=
  match c.2 !! tid with
  | Some t => let '(t', db') := step_thread t c.1 in (db', <[tid := t']> c.2)
  | None => c
  end.

(** Run a schedule. *)
Fixpoint exec (sched : list nat) (c : config) : config :=
  match sched with
  | [] => c
  | tid :: sched => exec sched (sched_step tid c)
  end.

(** The thread has returned. *)
Definition is_done (t : thread) : Prop := if t is Done _ then True else False.

#[global] Instance is_done_dec t : Decision (is_done t).
Proof. destruct t; apply _. Defined.

(** The responses of the threads that have finished. *)
Definition responses (c : config) : list (option Response.t) :=
  (λ t, if t is Done resp then Some resp else None) <$> c.2.

(** What a loop body does to its job when nothing interferes. *)
Fixpoint effect (body : list instr) (job : Job.t) : Job.t :=
  match body with
  | [] => job
  | IfNotAvailableRaise :: body => effect body job
  | SetStatus v :: body => effect body (Job.set_status v job)
  | SetDriverId v :: body => effect body (Job.set_driver_id v job)
  end.

Definition is_write (ins : instr) : Prop :=
  if ins is IfNotAvailableRaise then False else True.

#[global] Instance is_write_dec ins : Decision (is_write ins).
Proof. destruct ins; apply _. Defined.

(** The schedule that runs [n] threads one after the other, each for
    [fuel] steps. *)
Definition serial (fuel n : nat) : list nat :=
  tid ← seq 0 n; replicate fuel tid.

(** The status codes of the threads that have finished. *)
Definition status_codes (c : config) : list (option Z) :=
  (λ o : option Response.t, Response.status_code <$> o) <$> responses c.

(** What a response to GET /jobs shows of each job: its status and its
    driver. *)
Definition shown (resp : Response.t) : list (string * option Z) :=
  if Response.content resp is JsonJobs jobs
  then (λ job, (Job.status job, Job.driver_id job)) <$> jobs else [].

(** ** What a thread in order looks like

    A loop body is safe when it writes no status but "assigned" or
    "completed", and writes a driver only to a job that is known not to
    be available, because the thread has seen it so or has made it so. *)
Fixpoint safe_body (unavailable : Prop) (body : list instr) : Prop :=
  match body with
  | [] => True
  | IfNotAvailableRaise :: body => safe_body unavailable body
  | SetStatus v :: body =>
      v ∈ statuses ∧ v ≠ "available" ∧ safe_body True body
  | SetDriverId v :: body => unavailable ∧ safe_body unavailable body
  end.

(** A thread in order: its body is safe for the job it holds, the job it
    is about to append is consistent, the position it holds exists. *)
Definition thread_ok (db : Db.t) (t : thread) : Prop :=
  match t with
  | Scan _ _ body _ _ => safe_body False body
  | Body i body _ =>
      ∃ job, Db.jobs db !! i = Some job ∧
        safe_body (Job.status job ≠ "available") body
  | CreateAppend new_job => job_ok new_job
  | CreateLoad i | CreateStore i _ => (i < length (Db.jobs db))%nat
  | _ => True
  end.

(** The invariant of every schedule. *)
Definition inv (c : config) : Prop :=
  Forall job_ok (Db.jobs c.1) ∧ Forall (thread_ok c.1) c.2.

(** What every step of every thread guarantees to the others: a job
    stays where it is, and once it is not available it stays so. *)
Definition evolves (db db' : Db.t) : Prop :=
  ∀ i job, Db.jobs db !! i = Some job →
    ∃ job', Db.jobs db' !! i = Some job' ∧
      (Job.status job ≠ "available" → Job.status job' ≠ "available").

(** ** Assignments *)

Section writes.
Implicit Types (db : Db.t) (job : Job.t).

Lemma write_lookup i f db job :
  Db.jobs db !! i = Some job → Db.jobs (write i f db) !! i = Some (f job).
Proof. intros Hi. unfold write. simpl. by rewrite list_lookup_alter_eq, Hi. Qed.

Lemma write_write i f g db : write i f (write i g db) = write i (f ∘ g) db.
Proof. unfold write, Db.set_jobs. simpl. by rewrite list_alter_alter_eq. Qed.

Lemma write_id i db : write i id db = db.
Proof. unfold write. rewrite list_alter_id by done. by destruct db. Qed.

Lemma update_job_write k f db i job :
  list_find (λ job, Job.id job = k) (Db.jobs db) = Some (i, job) →
  Db.update_job k f db = write i f db.
Proof. intros Hf. unfold Db.update_job. by rewrite Hf. Qed.

End writes.

(** ** What every schedule keeps *)

Section rely_guarantee.
Implicit Types (db : Db.t) (t : thread) (job : Job.t) (body : list instr).

Lemma safe_body_impl (P Q : Prop) body :
  (P → Q) → safe_body P body → safe_body Q body.
Proof. revert P Q. induction body as [|[] body IH]; naive_solver. Qed.

Lemma safe_body_False (Q : Prop) body : safe_body False body → safe_body Q body.
Proof. by apply safe_body_impl. Qed.

Lemma safe_body_True (P : Prop) body : safe_body P body → safe_body True body.
Proof. by apply safe_body_impl. Qed.

Lemma evolves_same_jobs db db' : Db.jobs db' = Db.jobs db → evolves db db'.
Proof. intros Hjobs i job ?. exists job. by rewrite Hjobs. Qed.

Lemma evolves_refl db : evolves db db.
Proof. by apply evolves_same_jobs. Qed.

Lemma evolves_write i f db :
  (∀ job, Job.status job ≠ "available" → Job.status (f job) ≠ "available") →
  evolves db (write i f db).
Proof.
  intros Hf j job Hj. unfold write. simpl. rewrite list_lookup_alter.
  case_decide; subst; [rewrite Hj|]; eauto.
Qed.

Lemma evolves_append job db :
  evolves db (Db.set_jobs (Db.jobs db ++ [job]) db).
Proof.
  intros i x Hi. exists x. simpl. split; [|done]. by apply lookup_app_l_Some.
Qed.

(** What holds of a thread is not undone by the others. *)
Lemma thread_ok_evolves db db' t :
  evolves db db' → thread_ok db t → thread_ok db' t.
Proof.
  intros Hev. destruct t; simpl; try done.
  - intros (job&Hi&Hb). destruct (Hev _ _ Hi) as (job'&Hi'&Hs).
    exists job'. split; [done|]. by apply (safe_body_impl _ _ _ Hs).
  - intros (job&Hi)%lookup_lt_is_Some. destruct (Hev _ _ Hi) as (?&?&_).
    by eapply lookup_lt_Some.
  - intros (job&Hi)%lookup_lt_is_Some. destruct (Hev _ _ Hi) as (?&?&_).
    by eapply lookup_lt_Some.
Qed.

Lemma job_ok_set_status v job :
  v ∈ statuses → v ≠ "available" → job_ok (Job.set_status v job).
Proof. by split. Qed.

Lemma job_ok_set_driver_id v job :
  Job.status job ≠ "available" → job_ok job → job_ok (Job.set_driver_id v job).
Proof. intros ? [? _]. by split. Qed.

Lemma job_ok_write i f db :
  (∀ job, Db.jobs db !! i = Some job → job_ok job → job_ok (f job)) →
  Forall job_ok (Db.jobs db) → Forall job_ok (Db.jobs (write i f db)).
Proof.
  intros Hf Hok. unfold write. simpl. by apply Forall_alter.
Qed.

(** One step of a thread: the jobs stay consistent, the thread stays
    in order, and nothing is done that could put another thread out of
    order. *)
Lemma step_thread_ok t db :
  Forall job_ok (Db.jobs db) → thread_ok db t →
  Forall job_ok (Db.jobs (step_thread t db).2) ∧
  thread_ok (step_thread t db).2 (step_thread t db).1 ∧
  evolves db (step_thread t db).2.
Proof.
  intros Hok Ht. destruct t as [k i body r orelse|i [|[|v|v] body] r| | | | | |];
    simpl in *; auto using evolves_refl.
  - destruct (Db.jobs db !! i) as [job|] eqn:Hi; [case_decide|]; simpl;
      (split_and!; [done| |apply evolves_refl]); try done.
    exists job. split; [done|]. by apply safe_body_False.
  - destruct Ht as (job&->&_). simpl. auto using evolves_refl.
  - destruct Ht as (job&Hi&Hb). rewrite Hi. case_decide; simpl;
      (split_and!; [done| |apply evolves_refl]); try done.
    by exists job.
  - destruct Ht as (job&Hi&?&?&Hb). split_and!.
    + apply job_ok_write; [|done]. auto using job_ok_set_status.
    + exists (Job.set_status v job). split; [by apply write_lookup|].
      by apply (safe_body_impl True).
    + by apply evolves_write.
  - destruct Ht as (job&Hi&Hs&Hb). split_and!.
    + apply job_ok_write; [|done]. intros ? ?. simplify_eq.
      by apply job_ok_set_driver_id.
    + exists (Job.set_driver_id v job). split; [by apply write_lookup|done].
    + by apply evolves_write.
  - split_and!; [done|apply job_ok_new_job|apply evolves_refl].
  - split_and!; [|rewrite length_app; simpl; lia|apply evolves_append].
    apply Forall_app. split; [done|]. by apply Forall_singleton.
  - split_and!; [done| |by apply evolves_same_jobs].
    apply lookup_lt_is_Some in Ht as [job Hi]. by exists job.
Qed.

Lemma sched_step_inv tid c : inv c → inv (sched_step tid c).
Proof.
  intros [Hok Hts]. unfold sched_step.
  destruct (c.2 !! tid) as [t|] eqn:Ht; [|done].
  destruct (step_thread_ok t c.1 Hok) as (Hok'&Ht'&Hev).
  { by eapply Forall_lookup_1. }
  destruct (step_thread t c.1) as [t' db']. split; simpl in *; [done|].
  apply Forall_insert; [|done].
  eapply Forall_impl; [done|]. eauto using thread_ok_evolves.
Qed.

Lemma exec_inv sched c : inv c → inv (exec sched c).
Proof.
  revert c. induction sched as [|tid sched IH]; intros c Hc; [done|].
  simpl. auto using sched_step_inv.
Qed.

Lemma thread_ok_start db req : thread_ok db (start req).
Proof.
  destruct req; simpl; try done; split_and!; try done; by_compute.
Qed.

(** Requests at the entry of their handlers are in order. *)
Lemma inv_start reqs db :
  Forall job_ok (Db.jobs db) → inv (db, start <$> reqs).
Proof.
  split; [done|]. apply Forall_fmap, Forall_true. intros req.
  apply thread_ok_start.
Qed.

(** C6. No schedule breaks the consistency of jobs: whatever requests
    run concurrently and however their steps interleave, every status is
    one of "available", "assigned", "completed" and an available job has
    no driver, at every moment.  This rests on the order of the two
    assignments in the handlers: the status is written before the
    driver. *)
Theorem exec_job_ok sched reqs db :
  Forall job_ok (Db.jobs db) →
  Forall job_ok (Db.jobs (exec sched (db, start <$> reqs)).1).
Proof. intros Hok. by apply exec_inv, inv_start. Qed.
End rely_guarantee.

Section every_schedule.
Implicit Types (db : Db.t) (t : thread) (c : config) (sched : list nat).

Lemma write_descriptions i f db :
  (∀ job, Job.description (f job) = Job.description job) →
  Job.description <$> Db.jobs (write i f db) = Job.description <$> Db.jobs db.
Proof.
  intros Hf. unfold write. simpl.
  rewrite (list_fmap_alter Job.description f id) by by apply Forall_true.
  by apply list_alter_id.
Qed.

Lemma step_thread_keeps t db :
  Job.description <$> Db.jobs db
  `prefix_of` Job.description <$> Db.jobs (step_thread t db).2 ∧
  Db.drivers (step_thread t db).2 = Db.drivers db.
Proof.
  destruct t as [k i body r orelse|i [|[|v|v] body] r| | | | | |];
    cbn [step_thread]; repeat case_match; cbn [snd]; try done;
    rewrite ?write_descriptions by done; try done.
  split; [|done]. simpl. rewrite fmap_app. by apply prefix_app_r.
Qed.

Lemma sched_step_keeps tid c :
  Job.description <$> Db.jobs c.1
  `prefix_of` Job.description <$> Db.jobs (sched_step tid c).1 ∧
  Db.drivers (sched_step tid c).1 = Db.drivers c.1.
Proof.
  unfold sched_step. destruct (c.2 !! tid) as [t|]; [|done].
  pose proof (step_thread_keeps t c.1). by destruct (step_thread t c.1).
Qed.

(** C35. No schedule removes, reorders or renames a job, or touches the
    drivers: the descriptions of the jobs at the start are a prefix of
    the descriptions at the end of any schedule of any threads. *)
Theorem exec_keeps sched c :
  Job.description <$> Db.jobs c.1
  `prefix_of` Job.description <$> Db.jobs (exec sched c).1 ∧
  Db.drivers (exec sched c).1 = Db.drivers c.1.
Proof.
  revert c. induction sched as [|tid sched IH]; intros c; [done|]. simpl.
  destruct (IH (sched_step tid c)) as [Hd ->].
  destruct (sched_step_keeps tid c) as [Hd' ->]. split; [|done].
  by etrans.
Qed.

End every_schedule.

(** ** A thread alone is its handler *)

Section alone.
Implicit Types (db : Db.t) (t : thread) (job : Job.t) (body : list instr).

Lemma run_thread_Done n resp db : run_thread n (Done resp) db = (Done resp, db).
Proof. by induction n. Qed.

Lemma run_thread_S n t db :
  run_thread (S n) t db = run_thread n (step_thread t db).1 (step_thread t db).2.
Proof. simpl. by destruct (step_thread t db). Qed.

Lemma run_thread_add n m t db :
  run_thread (n + m) t db
  = run_thread m (run_thread n t db).1 (run_thread n t db).2.
Proof.
  revert t db. induction n as [|n IH]; intros t db; simpl; [done|].
  destruct (step_thread t db) as [t' db']. apply IH.
Qed.

(** More fuel than a thread needs changes nothing. *)
Lemma run_thread_le n m t db resp db' :
  run_thread n t db = (Done resp, db') → (n ≤ m)%nat →
  run_thread m t db = (Done resp, db').
Proof.
  intros Hn Hle. replace m with (n + (m - n))%nat by lia.
  rewrite run_thread_add, Hn. apply run_thread_Done.
Qed.

Lemma run_thread_trans n m t db t' db' :
  run_thread n t db = (t', db') → run_thread (n + m) t db = run_thread m t' db'.
Proof. intros Hn. by rewrite run_thread_add, Hn. Qed.

Lemma run_thread_snoc n t db :
  run_thread (S n) t db
  = step_thread (run_thread n t db).1 (run_thread n t db).2.
Proof.
  replace (S n) with (n + 1)%nat by lia. rewrite run_thread_add. simpl.
  by destruct (step_thread _ _).
Qed.

Lemma start_not_done req : ¬ is_done (start req).
Proof. destruct req; simpl; tauto. Qed.

(** The loop header, from position [length l1] on. *)
Lemma scan_steps k body r orelse db l1 l2 :
  Db.jobs db = l1 ++ l2 →
  ∃ n, (n ≤ length l2 + 1)%nat ∧
    run_thread n (Scan k (length l1) body r orelse) db =
      (match list_find (λ job, Job.id job = k) l2 with
       | Some (j, _) => Body (length l1 + j) body r
       | None => Done orelse
       end, db).
Proof.
  revert l1. induction l2 as [|job l2 IH]; intros l1 Hjobs.
  - exists 1%nat. split; [simpl; lia|]. simpl.
    by rewrite Hjobs, lookup_ge_None_2 by (rewrite length_app; simpl; lia).
  - simpl list_find. case_decide as Hk.
    + exists 1%nat. split; [simpl; lia|]. simpl.
      rewrite Hjobs, list_lookup_middle, decide_True by done.
      by rewrite Nat.add_0_r.
    + destruct (IH (l1 ++ [job])) as (n&Hn&Hrun); [by rewrite <-app_assoc|].
      exists (S n). split; [simpl; lia|]. simpl.
      rewrite Hjobs, list_lookup_middle, decide_False by done.
      rewrite length_app, Nat.add_1_r in Hrun. rewrite Hrun.
      destruct (list_find _ l2) as [[j x]|]; simpl; [|done].
      do 2 f_equal. lia.
Qed.

(** A body of assignments, alone, is its effect. *)
Lemma writes_steps i body r db job :
  Forall is_write body → Db.jobs db !! i = Some job →
  run_thread (length body + 1) (Body i body r) db
  = (Done (returned r (effect body job)), write i (effect body) db).
Proof.
  intros Hbody. revert db job.
  induction Hbody as [|ins body Hins _ IH]; intros db job Hi.
  - change (write i (effect []) db) with (write i id db). rewrite write_id.
    simpl. by rewrite Hi.
  - destruct ins; [done|..];
      change (length (_ :: body) + 1)%nat with (S (length body + 1));
      rewrite run_thread_S; cbn [step_thread fst snd];
      (erewrite IH by by apply write_lookup); by rewrite write_write.
Qed.

Lemma scan_from_start k body r orelse db :
  ∃ n, (n ≤ length (Db.jobs db) + 1)%nat ∧
    run_thread n (Scan k 0 body r orelse) db =
      (match list_find (λ job, Job.id job = k) (Db.jobs db) with
       | Some (i, _) => Body i body r
       | None => Done orelse
       end, db).
Proof. by apply (scan_steps k body r orelse db []). Qed.

(** A scanning handler, alone: the scan, then the body on the job found. *)
Lemma scanner_steps k body r orelse db :
  Forall is_write body →
  ∃ n, (n ≤ length (Db.jobs db) + length body + 2)%nat ∧
    run_thread n (Scan k 0 body r orelse) db =
      match Db.find_job k db with
      | Some job =>
          (Done (returned r (effect body job)), Db.update_job k (effect body) db)
      | None => (Done orelse, db)
      end.
Proof.
  intros Hbody. destruct (scan_from_start k body r orelse db) as (n&Hn&Hrun).
  unfold Db.find_job, Db.update_job.
  destruct (list_find _ _) as [[i job]|] eqn:Hf; simpl; [|exists n; split; [lia|done]].
  apply list_find_Some in Hf as (Hi&_).
  exists (n + (length body + 1))%nat. split; [lia|].
  rewrite (run_thread_trans _ _ _ _ _ _ Hrun). by apply writes_steps.
Qed.

Lemma accept_steps k d db :
  ∃ n, (n ≤ length (Db.jobs db) + 5)%nat ∧
    run_thread n (start (AcceptJob k d)) db
    = (Done (dispatch (AcceptJob k d) db).1, (dispatch (AcceptJob k d) db).2).
Proof.
  unfold dispatch, serve. rewrite accept_job_run. simpl start.
  destruct (scan_from_start k
    [IfNotAvailableRaise; SetStatus "assigned"; SetDriverId d] ReturnJob
    (error job_not_found) db) as (n&Hn&Hrun).
  unfold Db.find_job, Db.update_job.
  destruct (list_find _ _) as [[i job]|] eqn:Hf; simpl;
    [|exists n; split; [lia|done]].
  apply list_find_Some in Hf as (Hi&_). case_decide as Hs.
  - exists (n + 4)%nat. split; [lia|].
    rewrite (run_thread_trans _ _ _ _ _ _ Hrun), run_thread_S.
    cbn [step_thread]. rewrite Hi, decide_False by naive_solver.
    cbn [fst snd].
    apply (writes_steps i [SetStatus "assigned"; SetDriverId d]
             ReturnJob db job); [repeat constructor|done].
  - exists (n + 1)%nat. split; [lia|].
    rewrite (run_thread_trans _ _ _ _ _ _ Hrun). simpl.
    by rewrite Hi, decide_True.
Qed.

Lemma thread_steps req db :
  ∃ n, (n ≤ length (Db.jobs db) + 5)%nat ∧
    run_thread n (start req) db
    = (Done (dispatch req db).1, (dispatch req db).2).
Proof.
  destruct req as [| |body|k d|k d|k|]; try (by exists 1%nat; split; [lia|]).
  - exists 5%nat. split; [lia|]. simpl. by rewrite list_lookup_middle.
  - apply accept_steps.
  - unfold dispatch, serve. rewrite assign_driver_run.
    destruct (scanner_steps k [SetStatus "assigned"; SetDriverId (Some d)]
      (ReturnMessageJob "Driver assigned")
      (ok (JsonDict (Error "Job not found"))) db) as (n&?&Hrun);
      [repeat constructor|].
    exists n. split; [simpl in *; lia|]. simpl start. rewrite Hrun.
    by destruct (Db.find_job k db).
  - unfold dispatch, serve. rewrite complete_job_run.
    destruct (scanner_steps k [SetStatus "completed"]
      (ReturnMessageJob "Job completed")
      (ok (JsonDict (Error "Job not found"))) db) as (n&?&Hrun);
      [repeat constructor|].
    exists n. split; [simpl in *; lia|]. simpl start. rewrite Hrun.
    by destruct (Db.find_job k db).
Qed.

(** A thread that has returned, alone, has returned as its handler. *)
Lemma run_thread_done n req db :
  is_done (run_thread n (start req) db).1 →
  run_thread n (start req) db = (Done (dispatch req db).1, (dispatch req db).2).
Proof.
  destruct (thread_steps req db) as (m&_&Hm).
  destruct (run_thread n (start req) db) as [[] d] eqn:Hn; try done. intros _.
  destruct (decide (n ≤ m)%nat).
  - rewrite <-Hm. replace m with (n + (m - n))%nat by lia.
    rewrite run_thread_add, Hn. simpl. by rewrite run_thread_Done.
  - rewrite <-Hn. eapply run_thread_le; [done|lia].
Qed.

(** A thread on its way, alone, returns within the steps its handler
    takes from the entry. *)
Lemma run_thread_finishes n req db :
  ∃ m, is_done
    (run_thread m (run_thread n (start req) db).1 (run_thread n (start req) db).2).1.
Proof.
  destruct (thread_steps req db) as (m&_&Hm). exists m.
  rewrite <-run_thread_add, (run_thread_le m _ _ _ _ _ Hm) by lia. done.
Qed.

(** C5. A thread that runs alone is its handler: from the entry of the
    handler of any request, in any database, the thread finishes within
    the length of the job list plus five steps, with the response and
    the database that the handler gives when run as a whole.  The
    handlers of the other files are the threads without interference. *)
Theorem thread_atomic req db fuel :
  (length (Db.jobs db) + 5 ≤ fuel)%nat →
  run_thread fuel (start req) db = (Done (dispatch req db).1, (dispatch req db).2).
Proof.
  intros. destruct (thread_steps req db) as (n&?&Hn).
  eapply run_thread_le; [done|lia].
Qed.

End alone.

(** ** Serial schedules *)

Section schedules.
Implicit Types (db : Db.t) (t : thread) (ts : list thread) (c : config).
Implicit Types (sched : list nat) (reqs : list Request).

Lemma exec_app sched1 sched2 c :
  exec (sched1 ++ sched2) c = exec sched2 (exec sched1 c).
Proof. revert c. induction sched1 as [|tid sched1 IH]; intros c; simpl; auto. Qed.

Lemma exec_snoc sched tid c :
  exec (sched ++ [tid]) c = sched_step tid (exec sched c).
Proof. by rewrite exec_app. Qed.

(** A thread scheduled [n] times in a row runs alone for [n] steps. *)
Lemma exec_replicate n tid db ts t :
  ts !! tid = Some t →
  exec (replicate n tid) (db, ts)
  = ((run_thread n t db).2, <[tid := (run_thread n t db).1]> ts).
Proof.
  revert db ts t. induction n as [|n IH]; intros db ts t Ht; simpl.
  - by rewrite list_insert_id.
  - unfold sched_step. simpl. rewrite Ht.
    destruct (step_thread t db) as [t' db'].
    rewrite (IH db' _ t'), list_insert_insert_eq; [done|].
    apply list_lookup_insert_eq. by eapply lookup_lt_Some.
Qed.

Lemma exec_serial_from fuel resps reqs db :
  (length (Db.jobs db) + length reqs + 5 ≤ fuel)%nat →
  exec (tid ← seq (length resps) (length reqs); replicate fuel tid)
    (db, (Done <$> resps) ++ (start <$> reqs))
  = ((run reqs db).2, (Done <$> resps) ++ (Done <$> (run reqs db).1)).
Proof.
  revert resps db. induction reqs as [|req reqs IH]; intros resps db Hfuel; [done|].
  cbn [length seq mbind list_bind fmap list_fmap]. rewrite exec_app.
  rewrite (exec_replicate _ _ _ _ (start req)); last first.
  { rewrite lookup_app_r; rewrite length_fmap; [|done]. by rewrite Nat.sub_diag. }
  destruct (thread_steps req db) as (n&?&Hn).
  rewrite (run_thread_le n fuel _ _ _ _ Hn) by (simpl in Hfuel; lia).
  cbn [fst snd].
  replace (<[_ := _]> _)
    with ((Done <$> (resps ++ [(dispatch req db).1])) ++ (start <$> reqs)).
  2:{ rewrite fmap_app, <-app_assoc. simpl.
      rewrite insert_app_r_alt; rewrite length_fmap; [|done].
      by rewrite Nat.sub_diag. }
  replace (S (length resps)) with (length (resps ++ [(dispatch req db).1]))
    by (rewrite length_app; simpl; lia).
  rewrite IH.
  - rewrite run_cons_eq. cbn [fst snd]. by rewrite fmap_app, <-app_assoc.
  - pose proof (dispatch_length db req). simpl in Hfuel. lia.
Qed.

(** C19. Serial schedules are runs: the schedule that lets each of the
    threads of a list of requests run to its end, one after the other,
    leaves the database that serving the requests in that order leaves,
    and every thread has finished with the response of its request.
    The fuel needed by each thread is bounded by the number of jobs at
    the start plus the number of requests plus five. *)
Theorem exec_serial reqs db fuel :
  (length (Db.jobs db) + length reqs + 5 ≤ fuel)%nat →
  exec (serial fuel (length reqs)) (db, start <$> reqs)
  = ((run reqs db).2, Done <$> (run reqs db).1).
Proof. apply (exec_serial_from fuel []). Qed.

End schedules.

(** ** Schedules that are not serial *)

(** C26. Two accepts of the same job can both succeed.  Served one after
    the other, the second is refused with 400 whatever the drivers; but
    there is a schedule of the two threads in which both pass the test
    of the status before either writes, both answer 200, and the driver
    of the second overwrites the driver of the first. *)
Theorem double_accept :
  let c0 : config :=
    (Db.init, [start (AcceptJob 1 (Some 1)); start (AcceptJob 1 (Some 2))]) in
  (∃ sched,
     status_codes (exec sched c0) = [Some 200; Some 200] ∧
     Job.driver_id <$> Db.find_job 1 (exec sched c0).1 = Some (Some 2)) ∧
  ∀ d1 d2,
    Response.status_code <$> (run [AcceptJob 1 d1; AcceptJob 1 d2] Db.init).1
    = [200; 400].
Proof. split; [|done]. by exists [0; 1; 0; 1; 0; 1; 0; 1; 0; 1]%nat. Qed.

(** C27. Two concurrent creations can issue the same id.  In any
    database there is a schedule of two [create_job] threads in which
    both read the counter before either increments it: the two new jobs
    have the same id, the counter has moved by one only, and the
    database is no longer well formed. *)
Theorem duplicate_id db (a b : JobCreate.t) :
  ∃ sched,
    let c := exec sched (db, [start (CreateJob a); start (CreateJob b)]) in
    Db.job_ids c.1
    = Db.job_ids db ++ [Db.next_job_id db; Db.next_job_id db] ∧
    Db.next_job_id c.1 = Db.next_job_id db + 1 ∧
    ¬ NoDup (Db.job_ids c.1) ∧ ¬ wf c.1.
Proof.
  exists [0; 0; 0; 1; 1; 1; 0; 1]%nat.
  assert (∀ l : list Z, ¬ NoDup (l ++ [Db.next_job_id db; Db.next_job_id db]))
    as Hdup.
  { intros l (_&_&Hnd)%NoDup_app. apply NoDup_cons in Hnd as [Hin _].
    apply Hin. by left. }
  cbv zeta. unfold Db.job_ids. simpl. rewrite !fmap_app, <-app_assoc. simpl.
  split_and!; [done..|apply Hdup|].
  intros Hwf%wf_NoDup. revert Hwf. unfold Db.job_ids. simpl.
  rewrite !fmap_app, <-app_assoc. apply Hdup.
Qed.

(** C28. A reader can see half of an accept.  [accept_job] assigns the
    status and then the driver, in two statements (lines 104 and 105).
    In the schedule that lets [get_jobs] answer between the two, the
    list shows job 1 assigned to no driver, although the request names
    driver 2.  Neither serial order of the two requests shows that: the
    list served before the accept has the job available, the list served
    after it has the job assigned to driver 2. *)
Theorem torn_read :
  let accept := AcceptJob 1 (Some 2) in
  (∃ sched resp,
     (exec sched (Db.init, [start accept; start GetJobs])).2 !! 1%nat
     = Some (Done resp) ∧
     shown resp = [("assigned", None); ("available", None)]) ∧
  shown <$> (run [GetJobs; accept] Db.init).1 !! 0%nat
  = Some [("available", None); ("available", None)] ∧
  shown <$> (run [accept; GetJobs] Db.init).1 !! 1%nat
  = Some [("assigned", Some 2); ("available", None)].
Proof. split; [|done]. exists [0; 0; 0; 1]%nat. by eexists. Qed.

(** ** Witnesses *)

Lemma thread_atomic_witness :
  (length (Db.jobs Db.init) + 5 ≤ 7)%nat ∧
  run_thread 7 (start (AcceptJob 2 (Some 1))) Db.init
  = (Done (dispatch (AcceptJob 2 (Some 1)) Db.init).1,
     (dispatch (AcceptJob 2 (Some 1)) Db.init).2).
Proof. split; [simpl; lia|]. apply thread_atomic. simpl. lia. Defined.

Lemma exec_serial_witness :
  let reqs := [AcceptJob 1 (Some 2);
               CreateJob (JobCreate.mk "Dock 4" "Kirkland" "Crates");
               AcceptJob 1 None] in
  (length (Db.jobs Db.init) + length reqs + 5 ≤ 10)%nat ∧
  exec (serial 10 (length reqs)) (Db.init, start <$> reqs)
  = ((run reqs Db.init).2, Done <$> (run reqs Db.init).1).
Proof. split; [simpl; lia|]. apply exec_serial. simpl. lia. Defined.

Lemma exec_job_ok_witness :
  let reqs := [AcceptJob 1 (Some 1); AssignDriver 1 2; CompleteJob 1] in
  let sched := [0; 1; 2; 0; 1; 2; 1; 0; 2; 0]%nat in
  Forall job_ok (Db.jobs Db.init) ∧
  Forall job_ok (Db.jobs (exec sched (Db.init, start <$> reqs)).1).
Proof. split; [by_compute|]. apply exec_job_ok. by_compute. Defined.
