(* ===== verification/Independence.v ===== *)
(** * Requests on different jobs do not interfere

    [Interleaving] shows that two accepts of the same job race.  Here:
    requests that update different jobs (accept, assign, complete, each
    for a job id of its own) can be interleaved in any way, and the
    outcome is that of serving them one after the other
    ([exec_independent]); more, a request that has finished has the answer
    it would get alone, whatever the others are doing
    ([exec_independent_response]), and it finishes within as many steps
    of its own as there are jobs, plus five, however the steps of the
    others fall between them ([exec_wait_free]).

    The argument is a simulation.  A thread that works on job id [k]
    reads the ids of the jobs, which nobody writes, and reads and writes
    jobs numbered [k] only ([step_thread_local], [step_thread_frame]).  So
    in any schedule every thread is where it would be had it run alone
    from the start for as many steps as the schedule has given it
    ([own]), and the jobs numbered [k] are what they would be then
    ([sim], kept by every step: [sim_step]).  When every thread has
    finished this determines the whole configuration ([sim_done_unique]),
    and the serial schedule is one such schedule ([sim_done]). *)

From S2P Require Import Prelude Model Store Handlers Invariants Router.
From S2P Require Import Lifecycle Interleaving.

(** ** Definitions *)

(** The thread works on job id [k]: it scans for it, or it holds a
    position where a job numbered [k] stands. *)
Definition holds (k : Z) (ids : list Z) (t : thread) : Prop :=
  match t with
  | Scan k' _ _ _ _ => k' = k
  | Body p _ _ => ids !! p = Some k
  | Done _ => True
  | _ => False
  end.

(** Two databases have the same jobs numbered [k]. *)
Definition same_on (k : Z) (db1 db2 : Db.t) : Prop :=
  ∀ p, Db.job_ids db1 !! p = Some k → Db.jobs db1 !! p = Db.jobs db2 !! p.

(** From [db] to [db'] nothing has changed but jobs numbered [k], and
    these have kept their id. *)
Definition frame (k : Z) (db db' : Db.t) : Prop :=
  Db.job_ids db' = Db.job_ids db ∧
  Db.drivers db' = Db.drivers db ∧
  Db.next_job_id db' = Db.next_job_id db ∧
  ∀ p, Db.job_ids db !! p ≠ Some k → Db.jobs db' !! p = Db.jobs db !! p.

(** The number of steps thread [j] takes in a schedule. *)
Definition own (j : nat) (sched : list nat) : nat :=
  length (filter (λ tid, tid = j) sched).

(** Every thread has returned. *)
Definition finished (c : config) : Prop := Forall is_done c.2.

#[global] Instance finished_dec c : Decision (finished c).
Proof. unfold finished. apply _. Defined.

(** ** Steps of a thread in a schedule *)

Lemma own_nil j : own j [] = 0%nat.
Proof. done. Qed.

Lemma own_cons tid sched j :
  own j (tid :: sched)
  = if decide (tid = j) then S (own j sched) else own j sched.
Proof. unfold own. rewrite filter_cons. by case_decide. Qed.

(** ** A thread sees and touches its own job only *)

Section locality.
Implicit Types (db : Db.t) (t : thread) (k : Z) (p : nat) (f : Job.t → Job.t).

Lemma job_ids_lookup db p : Db.job_ids db !! p = Job.id <$> Db.jobs db !! p.
Proof. unfold Db.job_ids. apply list_lookup_fmap. Qed.

Lemma job_ids_write p f db :
  (∀ job, Job.id (f job) = Job.id job) → Db.job_ids (write p f db) = Db.job_ids db.
Proof.
  intros Hf. unfold Db.job_ids, write. simpl. apply list_eq. intros q.
  rewrite !list_lookup_fmap. destruct (decide (q = p)) as [->|].
  - rewrite list_lookup_alter_eq. destruct (Db.jobs db !! p); simpl; by rewrite ?Hf.
  - by rewrite list_lookup_alter_ne.
Qed.

Lemma frame_refl k db : frame k db db.
Proof. done. Qed.

Lemma frame_write k p f db :
  (∀ job, Job.id (f job) = Job.id job) → Db.job_ids db !! p = Some k →
  frame k db (write p f db).
Proof.
  intros Hf Hp. split_and!; [by apply job_ids_write|done..|].
  intros q Hq. unfold write. simpl. apply list_lookup_alter_ne. congruence.
Qed.

Lemma same_on_write k p f db1 db2 :
  (∀ job, Job.id (f job) = Job.id job) →
  same_on k db1 db2 → Db.job_ids db1 !! p = Some k →
  same_on k (write p f db1) (write p f db2).
Proof.
  intros Hf Hs Hp q. rewrite job_ids_write by done. intros Hq.
  unfold write. simpl. destruct (decide (q = p)) as [->|].
  - by rewrite !list_lookup_alter_eq, Hs.
  - rewrite !list_lookup_alter_ne by done. by apply Hs.
Qed.

(** A step of a thread that works on [k] changes nothing but jobs
    numbered [k]. *)
Lemma step_thread_frame k t db :
  holds k (Db.job_ids db) t → frame k db (step_thread t db).2.
Proof.
  destruct t as [k' i body r orelse|p [|[] body] r| | | | | |]; simpl; try done.
  - intros ->. repeat case_match; apply frame_refl.
  - by case_match.
  - intros. repeat case_match; apply frame_refl.
  - intros. by apply frame_write.
  - intros. by apply frame_write.
Qed.

(** It still works on [k] afterwards. *)
Lemma step_thread_holds k t db :
  holds k (Db.job_ids db) t → holds k (Db.job_ids db) (step_thread t db).1.
Proof.
  destruct t as [k' i body r orelse|p [|[] body] r| | | | | |]; simpl; try done.
  - intros ->. destruct (Db.jobs db !! i) as [job|] eqn:Hi; [|done].
    case_decide; [|done]. simpl. rewrite job_ids_lookup, Hi. simpl. congruence.
  - intros. by case_match.
  - intros. by repeat case_match.
Qed.

(** What a thread that works on [k] does next depends on the ids and on
    the jobs numbered [k] only. *)
Lemma step_thread_local k t db1 db2 :
  holds k (Db.job_ids db1) t → Db.job_ids db1 = Db.job_ids db2 →
  same_on k db1 db2 →
  (step_thread t db1).1 = (step_thread t db2).1 ∧
  same_on k (step_thread t db1).2 (step_thread t db2).2.
Proof.
  intros Ht Hids Hs.
  destruct t as [k' i body r orelse|p [|[] body] r| | | | | |]; simpl in *; try done.
  - subst k'. pose proof (job_ids_lookup db1 i) as H1.
    pose proof (job_ids_lookup db2 i) as H2. rewrite Hids in H1.
    destruct (Db.jobs db1 !! i) as [j1|], (Db.jobs db2 !! i) as [j2|];
      simpl in *; simplify_eq; [|done].
    assert (Job.id j1 = Job.id j2) as -> by congruence.
    by case_decide.
  - rewrite <-(Hs p Ht). by case_match.
  - rewrite <-(Hs p Ht). by repeat case_match.
  - split; [done|]. by apply same_on_write.
  - split; [done|]. by apply same_on_write.
Qed.

End locality.

(** ** The simulation *)

Section independent.
Context (reqs : list Request) (db0 : Db.t).
Context (Hupd : Forall is_update reqs).
Context (Hnd : NoDup ((λ req, target req db0) <$> reqs)).
Implicit Types (c : config) (t : thread) (k : Z) (j p n : nat) (req : Request).
Implicit Types (sched : list nat).

(** A thread is where its request is after [n] steps alone from the
    start, and the jobs with its id are what they are then. *)
Definition tracks (c : config) (req : Request) (n : nat) (t : thread) : Prop :=
  ∃ k, target req db0 = Some k ∧
    t = (run_thread n (start req) db0).1 ∧
    holds k (Db.job_ids db0) t ∧
    Db.job_ids (run_thread n (start req) db0).2 = Db.job_ids db0 ∧
    same_on k c.1 (run_thread n (start req) db0).2.

(** No request is for the job at position [p]. *)
Definition untouched (p : nat) : Prop :=
  ∀ req k, req ∈ reqs → target req db0 = Some k → Db.job_ids db0 !! p ≠ Some k.

(** The simulation: [ns j] is the number of steps thread [j] has taken. *)
Definition sim (ns : nat → nat) (c : config) : Prop :=
  Db.job_ids c.1 = Db.job_ids db0 ∧
  Db.drivers c.1 = Db.drivers db0 ∧
  Db.next_job_id c.1 = Db.next_job_id db0 ∧
  (∀ p, untouched p → Db.jobs c.1 !! p = Db.jobs db0 !! p) ∧
  length c.2 = length reqs ∧
  ∀ j req t, reqs !! j = Some req → c.2 !! j = Some t → tracks c req (ns j) t.

Lemma holds_start req k ids :
  is_update req → target req db0 = Some k → holds k ids (start req).
Proof. destruct req; naive_solver. Qed.

Lemma sim_init : sim (λ _, 0%nat) (db0, start <$> reqs).
Proof.
  split_and!; simpl; [done..|by rewrite length_fmap|].
  intros j req t Hj. rewrite list_lookup_fmap, Hj. intros [= <-].
  pose proof (Forall_lookup_1 _ _ _ _ Hupd Hj) as Hreq.
  destruct (target req db0) as [k|] eqn:Hk; [|by destruct req].
  exists k. split_and!; try done. by apply holds_start.
Qed.

(** The step counts matter for the threads there are. *)
Lemma sim_ext ns ns' c :
  (∀ j, (j < length reqs)%nat → ns' j = ns j) → sim ns c → sim ns' c.
Proof.
  intros Hns (?&?&?&?&?&Hts). split_and!; try done.
  intros j req t Hj Ht. rewrite Hns by (by eapply lookup_lt_Some). by apply Hts.
Qed.

(** Different threads work on different ids. *)
Lemma targets_ne j1 j2 req1 req2 k1 k2 :
  reqs !! j1 = Some req1 → reqs !! j2 = Some req2 →
  target req1 db0 = Some k1 → target req2 db0 = Some k2 →
  j1 ≠ j2 → k1 ≠ k2.
Proof.
  intros H1 H2 Hk1 Hk2 Hj ->. apply Hj.
  eapply (NoDup_lookup _ j1 j2 (Some k2)); [done|..];
    rewrite list_lookup_fmap; [rewrite H1|rewrite H2]; simpl; congruence.
Qed.

Lemma sim_step tid ns ns' c :
  ns' tid = S (ns tid) → (∀ j, j ≠ tid → ns' j = ns j) →
  sim ns c → sim ns' (sched_step tid c).
Proof.
  intros Hns Hns' (Hids&Hdr&Hnx&Hun&Hlen&Hts). unfold sched_step.
  destruct (c.2 !! tid) as [t|] eqn:Ht.
  2:{ split_and!; try done. intros j req t Hj Ht'. rewrite Hns'; [by apply Hts|].
      intros ->. congruence. }
  destruct (lookup_lt_is_Some_2 reqs tid) as [req Hreq].
  { rewrite <-Hlen. by eapply lookup_lt_Some. }
  destruct (Hts tid req t Hreq Ht) as (k&Hk&->&Hh&Hidn&Hs).
  rewrite <-Hids in Hh.
  pose proof (step_thread_frame k _ c.1 Hh) as (Hf1&Hf2&Hf3&Hf4).
  pose proof (step_thread_holds k _ c.1 Hh) as Hh'.
  pose proof (step_thread_local k _ c.1 _ Hh (eq_trans Hids (eq_sym Hidn)) Hs)
    as [Ht' Hs'].
  assert (holds k (Db.job_ids (run_thread (ns tid) (start req) db0).2)
            (run_thread (ns tid) (start req) db0).1) as Hhn
    by (by rewrite Hidn, <-Hids).
  pose proof (step_thread_frame k _ _ Hhn) as (Hg1&_).
  destruct (step_thread _ c.1) as [t' db'] eqn:Hstep. simpl in *.
  split_and!; simpl; try congruence.
  - intros p Hp. rewrite Hf4; [by apply Hun|]. rewrite Hids.
    eapply Hp; [|done]. by eapply list_elem_of_lookup_2.
  - by rewrite length_insert.
  - intros j req' t'' Hj. destruct (decide (j = tid)) as [->|Hne].
    + rewrite list_lookup_insert_eq by (by eapply lookup_lt_Some).
      intros [= <-]. simplify_eq. exists k.
      rewrite Hns, run_thread_snoc. split_and!; try done; congruence.
    + rewrite list_lookup_insert_ne, Hns' by done. intros Hj'.
      destruct (Hts j req' t'' Hj Hj') as (k'&Hk'&->&?&?&Hs2).
      exists k'. split_and!; try done.
      intros p Hp. simpl in *. rewrite Hf1 in Hp. rewrite Hf4; [by apply Hs2|].
      rewrite Hp. intros [= ->]. by eapply (targets_ne j tid).
Qed.

Lemma sim_exec_from sched ns ns' c :
  (∀ j, ns' j = (ns j + own j sched)%nat) → sim ns c → sim ns' (exec sched c).
Proof.
  revert ns c. induction sched as [|tid sched IH]; intros ns c Hns Hc; simpl.
  - destruct Hc as (?&?&?&?&?&Hts). split_and!; try done.
    intros j req t Hj Ht. rewrite Hns. unfold own. simpl.
    rewrite Nat.add_0_r. by apply Hts.
  - apply (IH (λ j, if decide (j = tid) then S (ns j) else ns j)).
    + intros j. rewrite Hns, own_cons. repeat case_decide; subst; try done; lia.
    + apply (sim_step tid ns); [by rewrite decide_True|
        by intros; rewrite decide_False|done].
Qed.

Lemma sim_exec sched : sim (λ j, own j sched) (exec sched (db0, start <$> reqs)).
Proof. by apply (sim_exec_from sched (λ _, 0%nat)), sim_init. Qed.

(** *** When the threads have finished *)

Lemma tracks_done c req n t :
  tracks c req n t → is_done t →
  t = Done (dispatch req db0).1 ∧
  ∃ k, target req db0 = Some k ∧ same_on k c.1 (dispatch req db0).2.
Proof.
  intros (k&Hk&->&_&_&Hs) Hd. apply run_thread_done in Hd.
  rewrite Hd in Hs |- *. eauto.
Qed.

(** The thread of a request, which exists. *)
Lemma sim_lookup ns c j req :
  sim ns c → reqs !! j = Some req → ∃ t, c.2 !! j = Some t ∧ tracks c req (ns j) t.
Proof.
  intros (_&_&_&_&Hlen&Hts) Hj.
  destruct (lookup_lt_is_Some_2 c.2 j) as [t Ht]; [|by eauto].
  rewrite Hlen. by eapply lookup_lt_Some.
Qed.

Lemma sim_done_threads ns c :
  sim ns c → finished c → c.2 = (λ req, Done (dispatch req db0).1) <$> reqs.
Proof.
  intros Hc Hd. apply list_eq. intros j. rewrite list_lookup_fmap.
  destruct (reqs !! j) as [req|] eqn:Hj; simpl.
  - destruct (sim_lookup ns c j req Hc Hj) as (t&Ht&Htr). rewrite Ht. f_equal.
    apply (tracks_done c req _ t Htr). by eapply (Forall_lookup_1 _ _ _ _ Hd).
  - destruct Hc as (_&_&_&_&Hlen&_). apply lookup_ge_None. rewrite Hlen.
    by apply lookup_ge_None.
Qed.

Lemma sim_done_lookup ns1 ns2 c1 c2 p :
  sim ns1 c1 → sim ns2 c2 → finished c1 → finished c2 →
  Db.jobs c1.1 !! p = Db.jobs c2.1 !! p.
Proof.
  intros Hc1 Hc2 Hd1 Hd2.
  pose proof Hc1 as (Hids1&_&_&Hun1&_). pose proof Hc2 as (Hids2&_&_&Hun2&_).
  destruct (Db.job_ids db0 !! p) as [id|] eqn:Hid.
  - destruct (decide (Some id ∈ (λ req, target req db0) <$> reqs)) as [Hin|Hout].
    + apply list_elem_of_fmap in Hin as (req&Hk&[j Hj]%list_elem_of_lookup).
      destruct (sim_lookup _ _ _ _ Hc1 Hj) as (t1&Ht1&Htr1).
      destruct (sim_lookup _ _ _ _ Hc2 Hj) as (t2&Ht2&Htr2).
      apply tracks_done in Htr1 as (_&k1&?&Hs1);
        [|by eapply (Forall_lookup_1 _ _ _ _ Hd1)].
      apply tracks_done in Htr2 as (_&k2&?&Hs2);
        [|by eapply (Forall_lookup_1 _ _ _ _ Hd2)].
      simplify_eq. rewrite Hs1, Hs2; [done|congruence..].
    + rewrite Hun1, Hun2; [done|..]; intros req k Hreq Hk ?; apply Hout;
        apply list_elem_of_fmap; exists req; split; congruence.
  - rewrite <-Hids1 in Hid. pose proof Hid as Hid'.
    rewrite Hids1, <-Hids2 in Hid'. rewrite job_ids_lookup in Hid, Hid'.
    apply fmap_None in Hid, Hid'. congruence.
Qed.

(** Two schedules in which every thread has finished end in the same
    configuration. *)
Lemma sim_done_unique ns1 ns2 c1 c2 :
  sim ns1 c1 → sim ns2 c2 → finished c1 → finished c2 → c1 = c2.
Proof.
  intros H1 H2 Hd1 Hd2. destruct c1 as [db1 ts1], c2 as [db2 ts2]. f_equal.
  - pose proof (list_eq _ _ (λ p, sim_done_lookup _ _ _ _ p H1 H2 Hd1 Hd2)) as Hjobs.
    destruct H1 as (_&?&?&_), H2 as (_&?&?&_). destruct db1, db2. simpl in *.
    congruence.
  - apply sim_done_threads in H1, H2; simpl in *; congruence.
Qed.

(** The serial schedule is a schedule. *)
Lemma exec_serial_done :
  ∃ sched,
    exec sched (db0, start <$> reqs)
    = ((run reqs db0).2, Done <$> (run reqs db0).1).
Proof.
  eexists. by apply (exec_serial_from (length (Db.jobs db0) + length reqs + 5) []).
Qed.

(** So a configuration in the simulation in which every thread has
    finished is the outcome of the serial run. *)
Lemma sim_done ns c :
  sim ns c → finished c →
  c = ((run reqs db0).2, Done <$> (run reqs db0).1).
Proof.
  intros Hc Hd. destruct exec_serial_done as [serial Hser]. rewrite <-Hser.
  eapply sim_done_unique; [done|apply sim_exec|done|].
  rewrite Hser. by apply Forall_fmap, Forall_true.
Qed.

(** C11. Requests on different jobs are serialisable.  For requests to
    accept, assign or complete jobs, each for a job id of its own,
    started together on any database: whatever the schedule, once every
    thread has finished the database is the one that serving the requests
    one after the other leaves, and every thread has the response of its
    request in that serial run.  The races of [double_accept] need two
    requests for the same job. *)
Theorem exec_independent sched :
  finished (exec sched (db0, start <$> reqs)) →
  exec sched (db0, start <$> reqs) = ((run reqs db0).2, Done <$> (run reqs db0).1).
Proof. eapply sim_done, sim_exec. Qed.

(** C12. No request waits for another: in any schedule, a request to
    accept, assign or complete a job that no other request in progress
    names has returned once its thread has taken as many steps as there
    are jobs, plus five, however the steps of the other threads fall
    between its own; and it has returned what its handler returns when it
    is served alone. *)
Theorem exec_wait_free sched j req :
  reqs !! j = Some req →
  (length (Db.jobs db0) + 5 ≤ own j sched)%nat →
  (exec sched (db0, start <$> reqs)).2 !! j = Some (Done (dispatch req db0).1).
Proof.
  intros Hj Hn.
  destruct (sim_lookup _ _ _ _ (sim_exec sched) Hj) as (t&->&_&_&->&_).
  destruct (thread_steps req db0) as (n&?&Hrun).
  by rewrite (run_thread_le n _ _ _ _ _ Hrun) by lia.
Qed.

(** A request that has finished has the answer it gets when it is served
    alone, whatever the other threads have done so far. *)
Lemma exec_independent_response sched j req resp :
  reqs !! j = Some req →
  (exec sched (db0, start <$> reqs)).2 !! j = Some (Done resp) →
  resp = (dispatch req db0).1.
Proof.
  intros Hj Ht.
  destruct (sim_lookup _ _ _ _ (sim_exec sched) Hj) as (t&Ht'&Htr).
  rewrite Ht in Ht'. simplify_eq. by apply tracks_done in Htr as [[= ->] _].
Qed.

End independent.

(** ** Witness *)

Lemma exec_independent_witness :
  let reqs := [AcceptJob 1 (Some 2); CompleteJob 2] in
  let sched := [0; 1; 1; 0; 1; 0; 1; 0; 0]%nat in
  exec sched (Db.init, start <$> reqs)
  = ((run reqs Db.init).2, Done <$> (run reqs Db.init).1).
Proof.
  apply (exec_independent [AcceptJob 1 (Some 2); CompleteJob 2] Db.init);
    by_compute.
Defined.

Lemma exec_wait_free_witness :
  let reqs := [AcceptJob 1 (Some 2); CompleteJob 2] in
  let sched := [1; 0; 1; 0; 1; 0; 1; 0; 0; 0; 0; 1; 1; 1]%nat in
  (exec sched (Db.init, start <$> reqs)).2 !! 0%nat
  = Some (Done (dispatch (AcceptJob 1 (Some 2)) Db.init).1).
Proof.
  apply (exec_wait_free [AcceptJob 1 (Some 2); CompleteJob 2] Db.init);
    [by_compute|by_compute|done|by_compute].
Defined.
