(* ===== verification/Progress.v ===== *)
(** * Every request returns

    No handler waits for another: there is no lock to wait for, and every
    loop is a scan of the list of jobs.  Other requests can make the
    list longer while a request scans it, by one job for each request
    that creates one, and no longer.  So in any schedule of any requests
    a request has returned once its thread has taken as many steps as
    there were jobs at the start, plus the number of requests, plus five
    ([bound], [exec_returns]), whatever the other threads have done in between.

    The proof is a measure: [steps_left] bounds the steps a thread has
    left by its position, and every step of the thread takes one off it
    ([step_thread_progress]) as long as the list has room for the jobs
    still to be appended and the positions held are in the list
    ([bounded], kept by every step). *)

From S2P Require Import Prelude Model Store Handlers Invariants Router.
From S2P Require Import Interleaving Independence.

(** ** Definitions *)

(** The thread has a job to append. *)
Definition pending (t : thread) : Prop :=
  match t with
  | CreateBuild _ | CreateAppend _ => True
  | _ => False
  end.

#[global] Instance pending_dec t : Decision (pending t).
Proof. destruct t; apply _. Defined.

(** The number of jobs still to be appended. *)
Definition room (ts : list thread) : nat := length (filter pending ts).

(** The position a thread holds is in the list. *)
Definition in_range (db : Db.t) (t : thread) : Prop :=
  match t with
  | Body i _ _ | CreateLoad i | CreateStore i _ => (i < length (Db.jobs db))%nat
  | _ => True
  end.

(** A bound on the steps a thread has left, when the list has at most
    [L] jobs: to the end of the list, through the body, and out. *)
Definition steps_left (L : nat) (t : thread) : nat :=
  match t with
  | Scan _ i body _ _ => (L - i) + length body + 2
  | Body _ body _ => length body + 1
  | CreateBuild _ => 5
  | CreateAppend _ => 4
  | CreateLoad _ => 3
  | CreateStore _ _ => 2
  | ReadOnly _ => 1
  | Done _ => 0
  end.

(** The steps within which a request returns. *)
Definition bound (reqs : list Request) (db : Db.t) : nat :=
  length (Db.jobs db) + length reqs + 5.

(** The list has room for what is still to be appended, and the
    positions held are in it. *)
Definition bounded (L : nat) (c : config) : Prop :=
  (length (Db.jobs c.1) + room c.2 ≤ L)%nat ∧ Forall (in_range c.1) c.2.

Section progress.
Context (L : nat).
Implicit Types (c : config) (db : Db.t) (t : thread) (tid j : nat).
Implicit Types (sched : list nat).

Lemma steps_left_done t : steps_left L t = 0%nat → is_done t.
Proof. destruct t; simpl; try done; lia. Qed.

Lemma in_range_mono db db' t :
  (length (Db.jobs db) ≤ length (Db.jobs db'))%nat → in_range db t → in_range db' t.
Proof. destruct t; simpl; lia. Qed.

(** A step of a thread that has not returned brings it closer to its
    return, takes no room it has not, and leaves the list at least as
    long. *)
Lemma step_thread_progress t db :
  in_range db t → (length (Db.jobs db) ≤ L)%nat →
  (steps_left L (step_thread t db).1 ≤ steps_left L t - 1)%nat ∧
  in_range (step_thread t db).2 (step_thread t db).1 ∧
  (length (Db.jobs db) ≤ length (Db.jobs (step_thread t db).2))%nat ∧
  (length (Db.jobs (step_thread t db).2) + (if decide (pending (step_thread t db).1) then 1 else 0)
   ≤ length (Db.jobs db) + (if decide (pending t) then 1 else 0))%nat.
Proof.
  intros Ht HL.
  destruct t as [k i body r orelse|i [|[] body] r| | | | | |]; simpl in *.
  - destruct (Db.jobs db !! i) as [job|] eqn:Hi; [|simpl; lia].
    apply lookup_lt_Some in Hi. case_decide; simpl; lia.
  - pose proof Ht as [job ->]%lookup_lt_is_Some. simpl. lia.
  - pose proof Ht as [job ->]%lookup_lt_is_Some. case_decide; simpl; lia.
  - rewrite length_alter. lia.
  - rewrite length_alter. lia.
  - lia.
  - rewrite length_app. simpl. lia.
  - lia.
  - lia.
  - lia.
  - lia.
Qed.

Lemma sched_step_bounded tid c : bounded L c → bounded L (sched_step tid c).
Proof.
  intros [HL Hts]. unfold sched_step.
  destruct (c.2 !! tid) as [t|] eqn:Ht; [|done].
  destruct (step_thread_progress t c.1) as (_&Hr&Hlen&Hroom);
    [by eapply Forall_lookup_1|lia|].
  pose proof (filter_insert_length pending c.2 tid t (step_thread t c.1).1 Ht).
  destruct (step_thread t c.1) as [t' db']. unfold room in *. simpl in *.
  split; [unfold room; simpl; repeat case_decide; lia|].
  apply Forall_insert; [|done].
  eapply Forall_impl; [done|]. intros t0. by apply in_range_mono.
Qed.

(** A step of the schedule: of the thread itself, or of another. *)
Lemma sched_step_left tid c j t :
  bounded L c → c.2 !! j = Some t →
  ∃ t', (sched_step tid c).2 !! j = Some t' ∧
    (steps_left L t' ≤ steps_left L t - if decide (tid = j) then 1 else 0)%nat.
Proof.
  intros [HL Hts] Hj. unfold sched_step. case_decide as Htid.
  - subst. rewrite Hj.
    destruct (step_thread_progress t c.1) as (Hlt&_);
      [by eapply Forall_lookup_1|lia|].
    destruct (step_thread t c.1) as [t' db']. exists t'. simpl in *.
    by rewrite list_lookup_insert_eq by (by eapply lookup_lt_Some).
  - exists t. split; [|lia]. destruct (c.2 !! tid); [|done].
    destruct (step_thread _ c.1). simpl. by rewrite list_lookup_insert_ne.
Qed.

Lemma exec_left sched c j t :
  bounded L c → c.2 !! j = Some t →
  ∃ t', (exec sched c).2 !! j = Some t' ∧
    (steps_left L t' ≤ steps_left L t - own j sched)%nat.
Proof.
  revert c t. induction sched as [|tid sched IH]; intros c t Hc Hj; simpl.
  - exists t. split; [done|]. rewrite own_nil. lia.
  - destruct (sched_step_left tid c j t Hc Hj) as (t1&Hj1&H1).
    destruct (IH _ t1 (sched_step_bounded tid c Hc) Hj1) as (t'&?&?).
    exists t'. split; [done|]. rewrite own_cons. case_decide; lia.
Qed.

End progress.

Lemma bounded_start reqs db :
  bounded (length (Db.jobs db) + length reqs) (db, start <$> reqs).
Proof.
  split; simpl.
  - unfold room. pose proof (length_filter pending (start <$> reqs)) as Hl.
    rewrite length_fmap in Hl. lia.
  - apply Forall_fmap, Forall_true. by intros [].
Qed.

Lemma steps_left_start L req : (steps_left L (start req) ≤ L + 5)%nat.
Proof. destruct req; simpl; lia. Qed.

(** C18. Every request returns, whatever the others do.  For any
    requests started together on any database and any schedule: a
    request has returned once its thread has taken as many steps as
    there are jobs at the start, plus the number of requests, plus five,
    however the steps of the other threads fall between its own.  No
    request blocks or waits for another. *)
Theorem exec_returns sched reqs db j :
  (j < length reqs)%nat → (bound reqs db ≤ own j sched)%nat →
  ∃ resp, (exec sched (db, start <$> reqs)).2 !! j = Some (Done resp).
Proof.
  unfold bound. intros [req Hj]%lookup_lt_is_Some Hn.
  destruct (exec_left _ sched (db, start <$> reqs) j (start req)
              (bounded_start reqs db)) as (t&Ht&Hlt).
  { simpl. by rewrite list_lookup_fmap, Hj. }
  pose proof (steps_left_start (length (Db.jobs db) + length reqs) req).
  destruct t; simpl in Hlt; try lia. eauto.
Qed.

(** ** Witness *)

Lemma exec_returns_witness :
  let reqs := [AcceptJob 9 None; CreateJob (JobCreate.mk "a" "b" "c")] in
  let sched := [1; 1; 0; 0; 0; 1; 0; 1; 1; 0; 0; 0; 0; 0; 0]%nat in
  (0 < length reqs)%nat ∧ (bound reqs Db.init ≤ own 0 sched)%nat ∧
  ∃ resp, (exec sched (Db.init, start <$> reqs)).2 !! 0%nat = Some (Done resp).
Proof.
  split; [simpl; lia|]. split; [by_compute|].
  apply (exec_returns _ [AcceptJob 9 None; CreateJob (JobCreate.mk "a" "b" "c")]
           Db.init 0); [simpl; lia|by_compute].
Defined.
