(* ===== verification/Creation.v ===== *)
(** * Concurrent creations

    [create_job] reads [next_job_id], appends the job it has built, reads
    [next_job_id] again and writes it back plus one (src/main.py, lines
    81-93).  [Interleaving.duplicate_id] shows that two creations can
    issue the same id.  This file bounds the damage: for any number of
    creations interleaved in any way ([exec_creations]),
    - every request is answered with the job made from its body, under an
      id between the counter at the start and that counter plus the
      number of requests;
    - the list of jobs is the list at the start followed by the jobs
      returned, each once: [jobs.append] is one step, so no job is lost
      and none is appended twice;
    - the counter ends above where it started, by at most the number of
      requests; it can go backwards on the way and end at an id that is
      in use ([creations_counter_behind]).

    The proof is an invariant of the schedule ([creates]): each thread is
    at a stage of [create_job] for its own request ([creating]), the jobs
    appended so far are those the threads hold or have returned, and the
    counter is at most as many above its start as threads have written
    it ([stored]). *)

From S2P Require Import Prelude Model Store Handlers Invariants Router.
From S2P Require Import Interleaving.

(** ** Definitions *)

(** The thread has written the counter. *)
Definition has_stored (t : thread) : Prop :=
  match t with
  | Body _ _ _ | Done _ => True
  | _ => False
  end.

#[global] Instance has_stored_dec t : Decision (has_stored t).
Proof. destruct t; apply _. Defined.

(** The number of threads that have written the counter. *)
Definition stored (ts : list thread) : nat := length (filter has_stored ts).

(** The job a thread has returned. *)
Definition created (t : thread) : option Job.t :=
  match t with
  | Done resp => if Response.content resp is JsonJob job then Some job else None
  | _ => None
  end.

(** The job a thread has appended: the job at the position it holds, or
    the job it has returned. *)
Definition job_of (db : Db.t) (t : thread) : option Job.t :=
  match t with
  | CreateLoad i | CreateStore i _ | Body i _ _ => Db.jobs db !! i
  | _ => created t
  end.

(** The jobs appended since [db0]. *)
Definition appended (db0 db : Db.t) : list Job.t :=
  drop (length (Db.jobs db0)) (Db.jobs db).

(** Where a thread that creates a job from [b] can be, when [s] threads
    have written the counter and the counter was [next0] at the start.
    The id it has read is at most [s] above [next0], and less than that
    once the thread has written the counter itself. *)
Definition creating (next0 : Z) (db : Db.t) (s : nat) (b : JobCreate.t)
    (t : thread) : Prop :=
  match t with
  | CreateBuild b' => b' = b
  | CreateAppend job =>
      ∃ id, job = new_job id b ∧ next0 ≤ id ≤ next0 + Z.of_nat s
  | CreateLoad i =>
      ∃ id, Db.jobs db !! i = Some (new_job id b) ∧
        next0 ≤ id ≤ next0 + Z.of_nat s
  | CreateStore i v =>
      ∃ id, Db.jobs db !! i = Some (new_job id b) ∧
        next0 ≤ id ≤ next0 + Z.of_nat s ∧ next0 ≤ v ≤ next0 + Z.of_nat s
  | Body i [] ReturnJob =>
      ∃ id, Db.jobs db !! i = Some (new_job id b) ∧
        next0 ≤ id < next0 + Z.of_nat s
  | Done resp =>
      ∃ id, resp = ok (JsonJob (new_job id b)) ∧
        next0 ≤ id < next0 + Z.of_nat s
  | _ => False
  end.

(** ** One thread *)

Section creating.
Context (next0 : Z).
Implicit Types (db : Db.t) (t : thread) (b : JobCreate.t) (s : nat).

(** Other threads write the counter and append: the thread stays where
    it is. *)
Lemma creating_mono db db' s s' b t :
  creating next0 db s b t → (s ≤ s')%nat →
  Db.jobs db `prefix_of` Db.jobs db' →
  creating next0 db' s' b t.
Proof.
  intros Ht Hs [l Hl].
  destruct t as [| i [|] []| | | | | |]; simpl in *; try done;
    destruct Ht as (id&?); exists id; rewrite ?Hl;
    split_and?; try apply lookup_app_l_Some; try tauto; lia.
Qed.

Lemma creating_job_of db db' s b t :
  creating next0 db s b t → Db.jobs db `prefix_of` Db.jobs db' →
  job_of db' t = job_of db t.
Proof.
  intros Ht [l Hl].
  destruct t as [| i [|] []| | | | | |]; simpl in *; try done;
    destruct Ht as (id&Hi&?); rewrite Hl, Hi; by apply lookup_app_l_Some.
Qed.

Lemma job_of_jobs db db' t :
  Db.jobs db' = Db.jobs db → job_of db' t = job_of db t.
Proof. intros Hj. destruct t; simpl; by rewrite ?Hj. Qed.

Lemma job_of_done db t : is_done t → job_of db t = created t.
Proof. by destruct t. Qed.

Lemma stored_insert ts tid t t' :
  ts !! tid = Some t →
  (stored (<[tid := t']> ts) + (if decide (has_stored t) then 1 else 0)
   = stored ts + (if decide (has_stored t') then 1 else 0))%nat.
Proof. apply filter_insert_length. Qed.

Lemma stored_done ts : Forall is_done ts → stored ts = length ts.
Proof.
  unfold stored. induction 1 as [|t ts Ht _ IH]; [done|].
  rewrite filter_cons_True by (by destruct t). simpl. by rewrite IH.
Qed.

End creating.

(** ** Any number of creations, any schedule *)

Section creations.
Context (bodies : list JobCreate.t) (db0 : Db.t).
Implicit Types (c : config) (db : Db.t) (t : thread) (tid : nat).

(** Every thread is creating the job of its request; the jobs appended
    are those the threads hold or have returned; the counter has moved by
    at most one for each thread that has written it. *)
Record creates (c : config) : Prop := {
  creates_threads :
    Forall2 (creating (Db.next_job_id db0) c.1 (stored c.2)) bodies c.2;
  creates_jobs : Db.jobs db0 `prefix_of` Db.jobs c.1;
  creates_appended : appended db0 c.1 ≡ₚ omap (job_of c.1) c.2;
  creates_drivers : Db.drivers c.1 = Db.drivers db0;
  creates_counter :
    Db.next_job_id db0 ≤ Db.next_job_id c.1
    ≤ Db.next_job_id db0 + Z.of_nat (stored c.2);
  creates_moved :
    (0 < stored c.2)%nat → Db.next_job_id db0 < Db.next_job_id c.1;
}.

Lemma creates_init : creates (db0, start <$> (CreateJob <$> bodies)).
Proof.
  assert (stored (start <$> (CreateJob <$> bodies)) = 0%nat) as Hs
    by (unfold stored; by induction bodies).
  split; simpl; rewrite ?Hs; try done; try lia.
  - apply Forall2_fmap_r, Forall2_fmap_r, Forall_Forall2_diag, Forall_true. done.
  - unfold appended. rewrite drop_all. induction bodies; csimpl; auto.
Qed.

(** The invariant after a step of thread [tid], from what the step does
    to the thread and to the database. *)
Lemma creates_update c tid b t t' db' :
  creates c → bodies !! tid = Some b → c.2 !! tid = Some t →
  Db.jobs c.1 `prefix_of` Db.jobs db' → Db.drivers db' = Db.drivers c.1 →
  (has_stored t → has_stored t') →
  creating (Db.next_job_id db0) db' (stored (<[tid := t']> c.2)) b t' →
  appended db0 db' ≡ₚ omap (job_of db') (<[tid := t']> c.2) →
  Db.next_job_id db0 ≤ Db.next_job_id db'
  ≤ Db.next_job_id db0 + Z.of_nat (stored (<[tid := t']> c.2)) →
  ((0 < stored (<[tid := t']> c.2))%nat →
   Db.next_job_id db0 < Db.next_job_id db') →
  creates (db', <[tid := t']> c.2).
Proof.
  intros Hc Hb Ht Hpre Hdr Hst Ht' Hperm Hcnt Hmoved.
  split; simpl; try done.
  - rewrite <-(list_insert_id bodies tid b Hb). apply Forall2_insert; [|done].
    eapply Forall2_impl; [apply Hc|]. intros b0 t0 Ht0.
    apply (creating_mono _ c.1 _ (stored c.2)); [done| |done].
    pose proof (stored_insert c.2 tid t t' Ht) as Hlen.
    repeat case_decide; try lia. tauto.
  - etrans; [apply Hc|done].
  - rewrite Hdr. apply Hc.
Qed.

(** A step that leaves the jobs and the job of the thread as they are. *)
Lemma creates_appended_same c tid t t' db' :
  creates c → c.2 !! tid = Some t → Db.jobs db' = Db.jobs c.1 →
  job_of c.1 t' = job_of c.1 t →
  appended db0 db' ≡ₚ omap (job_of db') (<[tid := t']> c.2).
Proof.
  intros Hc Ht Hj Ht'. unfold appended. rewrite Hj. fold (appended db0 c.1).
  rewrite (omap_ext_Forall (job_of db') (job_of c.1))
    by (apply Forall_true; intros; by apply job_of_jobs).
  rewrite (omap_insert_eq _ _ _ t) by done. apply Hc.
Qed.

(** The step that appends. *)
Lemma creates_appended_app c tid job :
  creates c → c.2 !! tid = Some (CreateAppend job) →
  appended db0 (Db.set_jobs (Db.jobs c.1 ++ [job]) c.1)
  ≡ₚ omap (job_of (Db.set_jobs (Db.jobs c.1 ++ [job]) c.1))
       (<[tid := CreateLoad (length (Db.jobs c.1))]> c.2).
Proof.
  intros Hc Ht. rewrite omap_insert_None by done. simpl.
  rewrite list_lookup_middle by done. simpl.
  unfold appended. simpl. rewrite drop_app_le by (apply prefix_length, Hc).
  rewrite <-Permutation_cons_append. f_equiv.
  rewrite (creates_appended _ Hc). unfold appended.
  erewrite omap_ext_Forall; [done|].
  eapply Forall2_Forall_r; [apply (creates_threads _ Hc)|]. apply Forall_true.
  intros b t Hbt. symmetry. eapply creating_job_of; [done|]. simpl.
  by apply prefix_app_r.
Qed.

(** What is left to show of [creates_update] for the step in the goal. *)
Local Ltac creates_step Ht :=
  lazymatch goal with
  | |- creates (_, <[?tid := ?t']> _) =>
      let Hs := fresh "Hs" in
      pose proof (stored_insert _ tid _ t' Ht) as Hs; simpl in Hs;
      eapply creates_update; try done; simpl; try lia
  end.

(** Every step of every thread keeps the invariant. *)
Lemma creates_sched_step tid c : creates c → creates (sched_step tid c).
Proof.
  intros Hc. unfold sched_step. destruct (c.2 !! tid) as [t|] eqn:Ht; [|done].
  destruct (Forall2_lookup_r _ _ _ _ _ (creates_threads _ Hc) Ht) as (b&Hb&Hct).
  pose proof (creates_counter _ Hc) as Hcnt. pose proof (creates_moved _ Hc) as Hmv.
  destruct t as [|i [|] []|b'|job|i|i v| |resp]; simpl in Hct; try done.
  - destruct Hct as (id&Hi&?). simpl. rewrite Hi. creates_step Ht.
    + exists id. split; [done|lia].
    + apply (creates_appended_same c tid (Body i [] ReturnJob)); [done..|].
      simpl. by rewrite Hi.
  - subst b'. simpl. creates_step Ht.
    + exists (Db.next_job_id c.1). split; [done|lia].
    + by eapply creates_appended_same.
  - destruct Hct as (id&->&?). simpl. creates_step Ht.
    + by apply prefix_app_r.
    + exists id. split; [by rewrite list_lookup_middle|lia].
    + by apply creates_appended_app.
  - destruct Hct as (id&Hi&?). simpl. creates_step Ht.
    + exists id. split_and!; [done|lia..].
    + by eapply creates_appended_same.
  - destruct Hct as (id&Hi&?&?). simpl. creates_step Ht.
    + exists id. split; [done|lia].
    + by eapply creates_appended_same.
  - simpl. by rewrite list_insert_id; destruct c.
Qed.

Lemma creates_exec sched :
  creates (exec sched (db0, start <$> (CreateJob <$> bodies))).
Proof.
  generalize creates_init. generalize (db0, start <$> (CreateJob <$> bodies)).
  induction sched as [|tid sched IH]; intros c Hc; simpl;
    auto using creates_sched_step.
Qed.

(** *** When the threads have returned *)

Section all_done.
Context (c : config) (Hc : creates c) (Hd : Forall is_done c.2).

Lemma creates_done_stored : stored c.2 = length bodies.
Proof.
  rewrite (stored_done _ Hd). symmetry.
  apply (Forall2_length _ _ _ (creates_threads _ Hc)).
Qed.

(** Every request has its job, under an id in range. *)
Lemma creates_done_threads :
  Forall2 (λ b t, ∃ id,
      t = Done (ok (JsonJob (new_job id b))) ∧
      Db.next_job_id db0 ≤ id < Db.next_job_id db0 + Z.of_nat (length bodies))
    bodies c.2.
Proof.
  rewrite <-creates_done_stored. pose proof (creates_threads _ Hc) as Hts.
  apply Forall2_same_length_lookup. split; [by eapply Forall2_length|].
  intros i b t Hb Ht.
  pose proof (Forall2_lookup_lr _ _ _ _ _ _ Hts Hb Ht) as Hbt.
  pose proof (Forall_lookup_1 _ _ _ _ Hd Ht) as Hdt.
  destruct t; try done. destruct Hbt as (id&->&?). by exists id.
Qed.

(** The jobs appended are the jobs returned. *)
Lemma creates_done_appended : appended db0 c.1 ≡ₚ omap created c.2.
Proof.
  rewrite (creates_appended _ Hc).
  rewrite (omap_ext_Forall (job_of c.1) created); [done|].
  eapply Forall_impl; [done|]. intros t. apply job_of_done.
Qed.

Lemma creates_done_counter :
  bodies ≠ [] →
  Db.next_job_id db0 < Db.next_job_id c.1
  ≤ Db.next_job_id db0 + Z.of_nat (length bodies).
Proof.
  intros Hne. pose proof (creates_counter _ Hc). pose proof (creates_moved _ Hc).
  rewrite creates_done_stored in *. destruct bodies; [done|]. simpl in *. lia.
Qed.

End all_done.

(** C17. Concurrent creations lose no job and issue no id out of range.
    For any number of requests to create a job, started together on any
    database and interleaved by any schedule, once every thread has
    returned: every request has been answered 200 with the job made from
    its body, available and without a driver, under an id that is at
    least the counter at the start and less than that counter plus the
    number of requests; the list of jobs is the list at the start
    followed by the jobs returned, each once, in some order; the drivers
    are as they were; and the counter has moved by at least one and at
    most the number of requests.  What the race of [duplicate_id] can do
    is give two jobs the same id and leave the counter behind; it cannot
    lose a job or touch another. *)
Theorem exec_creations sched :
  let c := exec sched (db0, start <$> (CreateJob <$> bodies)) in
  Forall is_done c.2 →
  Forall2 (λ b t, ∃ id,
      t = Done (ok (JsonJob (new_job id b))) ∧
      Db.next_job_id db0 ≤ id < Db.next_job_id db0 + Z.of_nat (length bodies))
    bodies c.2 ∧
  Db.jobs c.1 = Db.jobs db0 ++ appended db0 c.1 ∧
  appended db0 c.1 ≡ₚ omap created c.2 ∧
  Db.drivers c.1 = Db.drivers db0 ∧
  (bodies ≠ [] →
   Db.next_job_id db0 < Db.next_job_id c.1
   ≤ Db.next_job_id db0 + Z.of_nat (length bodies)).
Proof.
  intros c Hd. pose proof (creates_exec sched) as Hc. fold c in Hc.
  split_and!; [|apply prefix_app_drop|..]; try apply Hc;
    auto using creates_done_threads, creates_done_appended, creates_done_counter.
Qed.

End creations.

(** C29. The counter can go backwards.  [next_job_id += 1] (line 91) is
    a read and a write.  With three concurrent requests there is a
    schedule in which the first thread reads the counter, the two others
    create their jobs, with ids 3 and 4, and the first writes 4: all
    three are answered, the counter is left at 4 while a job has that
    id, and the next job created, alone, is given id 4 again. *)
Theorem creations_counter_behind :
  let bodies := replicate 3 (JobCreate.mk "a" "b" "c") in
  let c := exec [0; 0; 0; 1; 1; 1; 1; 1; 2; 2; 2; 2; 2; 0; 0]%nat
             (Db.init, start <$> (CreateJob <$> bodies)) in
  Forall is_done c.2 ∧
  Job.id <$> omap created c.2 = [3; 3; 4] ∧
  Db.job_ids c.1 = [1; 2; 3; 3; 4] ∧
  Db.next_job_id c.1 = 4 ∧
  Db.job_ids (dispatch (CreateJob (JobCreate.mk "a" "b" "c")) c.1).2
  = [1; 2; 3; 3; 4; 4].
Proof. cbv zeta. split_and!; [by_compute|done..]. Qed.

(** ** Witness *)

Lemma exec_creations_witness :
  let bodies := [JobCreate.mk "a" "b" "c"; JobCreate.mk "d" "e" "f"] in
  let c := exec [0; 0; 0; 1; 1; 1; 0; 1; 0; 1; 0; 1]%nat
             (Db.init, start <$> (CreateJob <$> bodies)) in
  Forall2 (λ b t, ∃ id,
      t = Done (ok (JsonJob (new_job id b))) ∧
      Db.next_job_id Db.init ≤ id
      < Db.next_job_id Db.init + Z.of_nat (length bodies))
    bodies c.2 ∧
  Db.jobs c.1 = Db.jobs Db.init ++ appended Db.init c.1 ∧
  appended Db.init c.1 ≡ₚ omap created c.2 ∧
  Db.drivers c.1 = Db.drivers Db.init ∧
  (bodies ≠ [] →
   Db.next_job_id Db.init < Db.next_job_id c.1
   ≤ Db.next_job_id Db.init + Z.of_nat (length bodies)).
Proof.
  apply (exec_creations [JobCreate.mk "a" "b" "c"; JobCreate.mk "d" "e" "f"] Db.init).
  by_compute.
Defined.
