(* ===== verification/Isolation.v ===== *)
(** * Updates and creations do not interfere

    [Independence] is about requests that update jobs, [Creation] about
    requests that create them.  Here both run together: requests to
    accept, assign or complete jobs that are in the list, each a job of
    its own, and any number of requests to create a job, interleaved in
    any way.  [exec_isolated]: the updates are answered, and leave the
    jobs that were there, as if they had been served one after the other
    with no creation going on, and the creations append and count as
    [Creation.exec_creations] says; [exec_isolated_wait_free]: an update
    returns within as many steps of its own as there were jobs at the
    start, plus five, however many jobs are appended meanwhile.

    The reason is in the code: a scan stops at the first job with the id,
    which stands among the jobs of the start, and [jobs.append] leaves
    those where they are; [create_job] reads the list only to return the
    job it has appended.  So a configuration has two sides, [updates]
    (the updating threads on the first jobs, [below]) and [creations]
    (the creating threads on the jobs appended, [above]); a step of a
    thread is a step of its side and no step of the other
    ([sched_step_updates], [sched_step_creations]), and the invariants of
    the two files hold of the two sides ([isolated]).

    A request for a job that is not yet in the list is not isolated: it
    is answered 404 or 200 as the schedule has it ([update_sees_creation]).

    The threads of the updates are numbered first; thread numbers are
    names, the schedule is arbitrary. *)

From S2P Require Import Prelude Model Store Handlers Invariants Router.
From S2P Require Import Lifecycle Interleaving Independence Creation.

(** ** Definitions *)

(** The request names a job of the list. *)
Definition known (db : Db.t) (req : Request) : Prop :=
  if target req db is Some k then k ∈ Db.job_ids db else False.

#[global] Instance known_dec db req : Decision (known db req).
Proof. unfold known. destruct (target req db); apply _. Defined.

(** The jobs that were there at the start, as they are now, with the
    counter of the start: what the requests that update a job see. *)
Definition below (db0 db : Db.t) : Db.t :=
  Db.mk (Db.drivers db) (take (length (Db.jobs db0)) (Db.jobs db))
    (Db.next_job_id db0).

(** The jobs of the start followed by the jobs appended since, with the
    counter as it is now: what the requests that create a job see. *)
Definition above (db0 db : Db.t) : Db.t :=
  Db.set_jobs (Db.jobs db0 ++ drop (length (Db.jobs db0)) (Db.jobs db)) db.

(** A thread that updates one of the jobs numbered [ids]: its job is
    ahead of the scan, or it holds one of their positions. *)
Definition updating (ids : list Z) (t : thread) : Prop :=
  match t with
  | Scan k i _ _ _ => k ∈ drop i ids
  | Body p _ _ => (p < length ids)%nat
  | Done _ => True
  | _ => False
  end.

(** A thread that creates a job: the position it holds is past the
    first [n]. *)
Definition appending (n : nat) (t : thread) : Prop :=
  match t with
  | CreateBuild _ | CreateAppend _ | Done _ => True
  | CreateLoad i | CreateStore i _ | Body i [] _ => (n ≤ i)%nat
  | _ => False
  end.

(** ** One step, seen from either side *)

Section sides.
Context (db0 : Db.t).
Implicit Types (db : Db.t) (t : thread).

Lemma below_start : below db0 db0 = db0.
Proof. unfold below. rewrite firstn_all. by destruct db0. Qed.

Lemma above_start : above db0 db0 = db0.
Proof. unfold above. rewrite drop_all, app_nil_r. by destruct db0. Qed.

Lemma job_ids_below db :
  Db.job_ids (below db0 db) = take (length (Db.jobs db0)) (Db.job_ids db).
Proof. unfold Db.job_ids. simpl. by rewrite fmap_take. Qed.

(** The first jobs are still there. *)
Lemma below_length db :
  Db.job_ids (below db0 db) = Db.job_ids db0 →
  (length (Db.jobs db0) ≤ length (Db.jobs db))%nat.
Proof.
  intros Hids. apply (f_equal length) in Hids.
  unfold Db.job_ids in Hids. simpl in Hids.
  rewrite !length_fmap, length_take in Hids. lia.
Qed.

Lemma updating_scan_lt i k body r orelse :
  updating (Db.job_ids db0) (Scan k i body r orelse) →
  (i < length (Db.jobs db0))%nat.
Proof.
  simpl. intros Hk. destruct (decide (i < length (Db.jobs db0))%nat); [done|].
  rewrite drop_ge in Hk; [by apply elem_of_nil in Hk|].
  unfold Db.job_ids. rewrite length_fmap. lia.
Qed.

Lemma updating_body_lt p body r :
  updating (Db.job_ids db0) (Body p body r) → (p < length (Db.jobs db0))%nat.
Proof. simpl. unfold Db.job_ids. by rewrite length_fmap. Qed.

(** A thread that updates one of the first jobs does not see the jobs
    appended, and does not touch them. *)
Lemma step_thread_below t db :
  updating (Db.job_ids db0) t →
  step_thread t (below db0 db)
  = ((step_thread t db).1, below db0 (step_thread t db).2) ∧
  above db0 (step_thread t db).2 = above db0 db.
Proof.
  intros Ht. destruct t as [k i body r orelse|p [|[] body] r| | | | | |];
    try done;
    [apply updating_scan_lt in Ht|apply updating_body_lt in Ht..]; simpl.
  1-3: rewrite lookup_take_lt by done; by repeat case_match.
  all: unfold below, above, write, Db.set_jobs; simpl;
    by rewrite take_alter_lt, drop_alter_lt.
Qed.

(** It goes on updating one of them. *)
Lemma step_thread_updating t db :
  updating (Db.job_ids db0) t →
  Db.job_ids (below db0 db) = Db.job_ids db0 →
  updating (Db.job_ids db0) (step_thread t db).1.
Proof.
  intros Ht Hids. destruct t as [k i body r orelse|p [|[] body] r| | | | | |];
    try done; simpl in *; [|by repeat case_match..].
  pose proof (updating_scan_lt _ _ body r orelse Ht) as Hi.
  destruct (Db.jobs db !! i) as [job|] eqn:Hjob; [|done].
  assert (Db.job_ids db0 !! i = Some (Job.id job)) as Hid.
  { rewrite <-Hids, job_ids_below, lookup_take_lt by done.
    unfold Db.job_ids. by rewrite list_lookup_fmap, Hjob. }
  case_decide; simpl.
  - by eapply lookup_lt_Some.
  - rewrite (drop_S _ _ _ Hid) in Ht. by apply elem_of_cons in Ht as [->|Ht].
Qed.

(** A thread that creates a job sees the first jobs only to count
    them, and does not touch them. *)
Lemma step_thread_above t db :
  appending (length (Db.jobs db0)) t →
  (length (Db.jobs db0) ≤ length (Db.jobs db))%nat →
  step_thread t (above db0 db)
  = ((step_thread t db).1, above db0 (step_thread t db).2) ∧
  below db0 (step_thread t db).2 = below db0 db.
Proof.
  intros Ht Hlen. destruct t as [|i [|] r| | | | | |]; try done;
    unfold above, below, Db.set_jobs; simpl in *.
  - rewrite lookup_app_r, lookup_drop by done.
    replace (length (Db.jobs db0) + (i - length (Db.jobs db0)))%nat
      with i by lia.
    by case_match.
  - rewrite length_app, length_drop, take_app_le, drop_app_le, app_assoc
      by done.
    split; [|done]. do 3 f_equal. lia.
Qed.

(** It goes on creating, past the first jobs. *)
Lemma step_thread_appending t db :
  appending (length (Db.jobs db0)) t →
  (length (Db.jobs db0) ≤ length (Db.jobs db))%nat →
  appending (length (Db.jobs db0)) (step_thread t db).1.
Proof.
  intros Ht Hlen. destruct t as [|i [|] r| | | | | |]; try done; simpl in *.
  by case_match.
Qed.

End sides.

(** ** The two sides of a configuration *)

Section isolation.
Context (ups : list Request) (bodies : list JobCreate.t) (db0 : Db.t).
Context (Hupd : Forall is_update ups).
Context (Hnd : NoDup ((λ req, target req db0) <$> ups)).
Context (Hin : Forall (known db0) ups).
Implicit Types (c : config) (t : thread) (tid j : nat) (sched : list nat).

(** The threads that update, on the first jobs. *)
Definition updates (c : config) : config :=
  (below db0 c.1, take (length ups) c.2).

(** The threads that create, on the jobs appended. *)
Definition creations (c : config) : config :=
  (above db0 c.1, drop (length ups) c.2).

(** The invariant of every schedule: each side is as its file says, with
    [ns j] the number of steps the updating thread [j] has taken. *)
Record isolated (ns : nat → nat) (c : config) : Prop := {
  isolated_updates : sim ups db0 ns (updates c);
  isolated_creations : creates bodies db0 (creations c);
  isolated_updating : Forall (updating (Db.job_ids db0)) (updates c).2;
  isolated_appending :
    Forall (appending (length (Db.jobs db0))) (creations c).2;
}.

Lemma isolated_init :
  isolated (λ _, 0%nat) (db0, start <$> (ups ++ (CreateJob <$> bodies))).
Proof.
  split; unfold updates, creations; simpl;
    rewrite fmap_app, <-(length_fmap start ups), ?take_app_length,
      ?drop_app_length, ?below_start, ?above_start.
  - by apply sim_init.
  - apply creates_init.
  - apply Forall_fmap. eapply Forall_impl; [apply Forall_and, (conj Hupd Hin)|].
    intros req [Hreq Hk]. destruct req; try done; simpl; by rewrite drop_0.
  - apply Forall_fmap, Forall_fmap, Forall_true. done.
Qed.

(** A step of a thread that updates is a step of the first side and no
    step of the other. *)
Lemma sched_step_updates tid c :
  (tid < length ups)%nat →
  Db.job_ids (updates c).1 = Db.job_ids db0 →
  Forall (updating (Db.job_ids db0)) (updates c).2 →
  updates (sched_step tid c) = sched_step tid (updates c) ∧
  creations (sched_step tid c) = creations c ∧
  Forall (updating (Db.job_ids db0)) (updates (sched_step tid c)).2.
Proof.
  intros Htid Hids Hts. unfold sched_step, updates, creations in *. simpl in *.
  rewrite lookup_take_lt by done.
  destruct (c.2 !! tid) as [t|] eqn:Ht; [|done].
  assert (updating (Db.job_ids db0) t) as Hu.
  { eapply (Forall_lookup_1 _ _ tid); [apply Hts|]. by rewrite lookup_take_lt. }
  destruct (step_thread_below db0 t c.1 Hu) as [-> Hab].
  pose proof (step_thread_updating db0 t c.1 Hu Hids) as Hu'.
  destruct (step_thread t c.1) as [t' db']. simpl in *.
  rewrite take_insert_lt, drop_insert_lt, Hab by done.
  split_and!; try done. by apply Forall_insert.
Qed.

(** A step of a thread that creates is a step of the second side and no
    step of the first. *)
Lemma sched_step_creations tid c :
  (length ups ≤ tid)%nat →
  (length (Db.jobs db0) ≤ length (Db.jobs c.1))%nat →
  Forall (appending (length (Db.jobs db0))) (creations c).2 →
  updates (sched_step tid c) = updates c ∧
  creations (sched_step tid c) = sched_step (tid - length ups) (creations c) ∧
  Forall (appending (length (Db.jobs db0))) (creations (sched_step tid c)).2.
Proof.
  intros Htid Hlen Hts. unfold sched_step, updates, creations in *. simpl in *.
  rewrite lookup_drop.
  replace (length ups + (tid - length ups))%nat with tid by lia.
  destruct (c.2 !! tid) as [t|] eqn:Ht; [|done].
  assert (appending (length (Db.jobs db0)) t) as Ha.
  { eapply (Forall_lookup_1 _ _ (tid - length ups)); [apply Hts|].
    rewrite lookup_drop, <-Ht. f_equal. lia. }
  destruct (step_thread_above db0 t c.1 Ha Hlen) as [-> Hbe].
  pose proof (step_thread_appending db0 t c.1 Ha Hlen) as Ha'.
  destruct (step_thread t c.1) as [t' db']. simpl in *.
  rewrite take_insert_ge, drop_insert_ge, Hbe by done.
  split_and!; try done. by apply Forall_insert.
Qed.

Lemma isolated_sched_step tid ns c :
  isolated ns c →
  isolated (λ j, if decide (j = tid) then S (ns j) else ns j)
    (sched_step tid c).
Proof.
  intros [Hu Hc Hup Hap]. pose proof Hu as [Hids _].
  destruct (decide (tid < length ups)%nat).
  - destruct (sched_step_updates tid c) as (Hs1&Hs2&?); [done..|].
    split; [rewrite Hs1|by rewrite Hs2|done|by rewrite Hs2].
    apply (sim_step _ _ Hnd tid ns); [by rewrite decide_True| |done].
    intros. by rewrite decide_False.
  - destruct (sched_step_creations tid c) as (Hs1&Hs2&?);
      [lia|by apply (below_length db0)|done|].
    split; [rewrite Hs1|rewrite Hs2|by rewrite Hs1|done].
    + eapply sim_ext; [|done]. intros j ?. rewrite decide_False; [done|lia].
    + by apply creates_sched_step.
Qed.

Lemma isolated_exec_from sched ns ns' c :
  (∀ j, ns' j = (ns j + own j sched)%nat) → isolated ns c →
  isolated ns' (exec sched c).
Proof.
  revert ns c. induction sched as [|tid sched IH]; intros ns c Hns Hc; simpl.
  - destruct Hc. split; try done. eapply sim_ext; [|done].
    intros j _. rewrite Hns. unfold own. simpl. lia.
  - apply (IH (λ j, if decide (j = tid) then S (ns j) else ns j)).
    + intros j. rewrite Hns, own_cons. repeat case_decide; subst; try done; lia.
    + by apply isolated_sched_step.
Qed.

Lemma isolated_exec sched :
  isolated (λ j, own j sched)
    (exec sched (db0, start <$> (ups ++ (CreateJob <$> bodies)))).
Proof. by apply (isolated_exec_from sched (λ _, 0%nat)), isolated_init. Qed.

(** *** When the threads have finished *)

Lemma appended_above c : appended db0 (creations c).1 = appended db0 c.1.
Proof. unfold appended. simpl. by rewrite drop_app_length. Qed.

(** C15. Updates and creations are isolated from each other.  For
    requests to accept, assign or complete jobs that are in the list,
    each a job of its own, and any number of requests to create a job,
    started together on any database and interleaved by any schedule,
    once every thread has returned: the threads of the updates have the
    responses of serving the updates one after the other on the database
    of the start, and the jobs that were there, with the drivers, are as
    that serial run leaves them; every creation has been answered with
    the job made from its body under an id between the counter of the
    start and that counter plus the number of creations; the jobs past
    those of the start are the jobs returned, each once; and the counter
    has moved by at least one and at most the number of creations. *)
Theorem exec_isolated sched :
  let c := exec sched (db0, start <$> (ups ++ (CreateJob <$> bodies))) in
  Forall is_done c.2 →
  updates c = ((run ups db0).2, Done <$> (run ups db0).1) ∧
  Forall2 (λ b t, ∃ id,
      t = Done (ok (JsonJob (new_job id b))) ∧
      Db.next_job_id db0 ≤ id < Db.next_job_id db0 + Z.of_nat (length bodies))
    bodies (creations c).2 ∧
  appended db0 c.1 ≡ₚ omap created (creations c).2 ∧
  (bodies ≠ [] →
   Db.next_job_id db0 < Db.next_job_id c.1
   ≤ Db.next_job_id db0 + Z.of_nat (length bodies)).
Proof.
  intros c Hd. destruct (isolated_exec sched) as [Hu Hc _ _]. fold c in Hu, Hc.
  assert (Forall is_done (creations c).2) as Hdc by (by apply Forall_drop).
  split_and!.
  - eapply sim_done; [done..|]. by apply Forall_take.
  - by apply creates_done_threads.
  - rewrite <-appended_above. by eapply creates_done_appended.
  - by apply (creates_done_counter bodies db0 (creations c)).
Qed.

(** C39. No update waits for a creation: a request to accept, assign or
    complete a job of the list has returned what it returns when served
    alone once its thread has taken as many steps as there were jobs at
    the start, plus five, whatever has been appended meanwhile.  (The
    threads of [updates] are the first threads of the schedule, those of
    the requests [ups].) *)
Theorem exec_isolated_wait_free sched j req :
  ups !! j = Some req →
  (length (Db.jobs db0) + 5 ≤ own j sched)%nat →
  (updates (exec sched (db0, start <$> (ups ++ (CreateJob <$> bodies))))).2 !! j
  = Some (Done (dispatch req db0).1).
Proof.
  intros Hj Hn. destruct (isolated_exec sched) as [Hu _ _ _].
  destruct (sim_lookup _ _ _ _ _ _ Hu Hj) as (t&Ht&k&_&->&_).
  rewrite Ht. destruct (thread_steps req db0) as (n&?&Hrun).
  by rewrite (run_thread_le n _ _ _ _ _ Hrun) by lia.
Qed.

End isolation.

(** A request for a job that is being created is not isolated.  Job 3
    is not in the list at the start: served before the creation the
    request to accept it is answered 404, and in the schedule in which
    the creation runs first it is answered with job 3, assigned. *)
Example update_sees_creation :
  let b := JobCreate.mk "a" "b" "c" in
  let reqs := [AcceptJob 3 (Some 1); CreateJob b] in
  let c := exec [1; 1; 1; 1; 1; 0; 0; 0; 0; 0; 0; 0]%nat
             (Db.init, start <$> reqs) in
  ¬ known Db.init (AcceptJob 3 (Some 1)) ∧
  (dispatch (AcceptJob 3 (Some 1)) Db.init).1 = error job_not_found ∧
  c.2 !! 0%nat
  = Some (Done (ok (JsonJob (assigned (Some 1) (new_job 3 b))))).
Proof. cbv zeta. split_and!; [by_compute|done|by_compute]. Qed.

(** ** Witnesses *)

Lemma exec_isolated_witness :
  let ups := [AcceptJob 1 (Some 2); CompleteJob 2] in
  let bodies := [JobCreate.mk "a" "b" "c"] in
  let c := exec [2; 0; 1; 2; 0; 1; 2; 0; 1; 2; 0; 1; 2; 0]%nat
             (Db.init, start <$> (ups ++ (CreateJob <$> bodies))) in
  updates ups Db.init c
  = ((run ups Db.init).2, Done <$> (run ups Db.init).1) ∧
  Forall2 (λ b t, ∃ id,
      t = Done (ok (JsonJob (new_job id b))) ∧
      Db.next_job_id Db.init ≤ id
      < Db.next_job_id Db.init + Z.of_nat (length bodies))
    bodies (creations ups Db.init c).2 ∧
  appended Db.init c.1 ≡ₚ omap created (creations ups Db.init c).2 ∧
  (bodies ≠ [] →
   Db.next_job_id Db.init < Db.next_job_id c.1
   ≤ Db.next_job_id Db.init + Z.of_nat (length bodies)).
Proof.
  apply (exec_isolated [AcceptJob 1 (Some 2); CompleteJob 2]
           [JobCreate.mk "a" "b" "c"] Db.init); by_compute.
Defined.

Lemma exec_isolated_wait_free_witness :
  let ups := [AcceptJob 1 (Some 2); CompleteJob 2] in
  let bodies := [JobCreate.mk "a" "b" "c"] in
  (updates ups Db.init
     (exec [0; 2; 0; 2; 1; 0; 0; 2; 0; 0; 0]%nat
        (Db.init, start <$> (ups ++ (CreateJob <$> bodies))))).2 !! 0%nat
  = Some (Done (dispatch (AcceptJob 1 (Some 2)) Db.init).1).
Proof.
  apply (exec_isolated_wait_free [AcceptJob 1 (Some 2); CompleteJob 2]
           [JobCreate.mk "a" "b" "c"] Db.init); [by_compute..|reflexivity|by_compute].
Defined.
