(* ===== verification/Accepts.v ===== *)
(** * Concurrent accepts of one job

    [accept_job] tests the status of the job it has found and then writes
    the status and the driver, in three steps (src/main.py, lines
    98-107).  [Interleaving.double_accept] shows that two accepts of a
    job can both succeed.  This file says what any number of them can
    do, in any schedule ([exec_accepts]): when the job is available at
    the start and the requests have returned,
    - at least one request has been answered 200, and the others 400;
    - the job is assigned to the driver of one of the requests answered
      200 (the [winners]), and nothing else has changed;
    - every request answered 200 is shown the job assigned to the driver
      of one of the winners, which need not be its own
      ([accept_shown_other_driver]).

    The proof is an invariant of the schedule ([accepts]): each thread is
    at a stage of [accept_job] for its own request ([accepting]), and the
    job is what the writes so far make it ([held]): as at the start until
    a thread has written the status, then assigned, with the driver of a
    thread that has written its driver. *)

From S2P Require Import Prelude Model Store Handlers Invariants Router.
From S2P Require Import Interleaving.

(** ** Definitions *)

(** The statements of [accept_job] on the job it has found. *)
Definition accept_body (d : option Z) : list instr :=
  [IfNotAvailableRaise; SetStatus "assigned"; SetDriverId d].

(** The thread has written the status. *)
Definition has_assigned (t : thread) : Prop :=
  match t with
  | Body _ body _ => (length body ≤ 1)%nat
  | Done resp => Response.status_code resp = 200
  | _ => False
  end.

#[global] Instance has_assigned_dec t : Decision (has_assigned t).
Proof. destruct t; apply _. Defined.

(** The thread has written the driver. *)
Definition wrote (t : thread) : Prop :=
  match t with
  | Body _ body _ => body = []
  | Done resp => Response.status_code resp = 200
  | _ => False
  end.

#[global] Instance wrote_dec t : Decision (wrote t).
Proof. destruct t; apply _. Defined.

(** The drivers of the requests whose thread is at a stage [P]. *)
Definition those (P : thread → Prop) `{!∀ t, Decision (P t)}
    (ds : list (option Z)) (ts : list thread) : list (option Z) :=
  (filter (λ dt, P dt.2) (zip ds ts)).*1.

(** The drivers of the requests whose thread has written the driver:
    when the threads have returned, of the requests answered 200. *)
Definition winners : list (option Z) → list thread → list (option Z) :=
  those wrote.

Section stages.
Context (P : thread → Prop) `{!∀ t, Decision (P t)}.
Implicit Types (ds : list (option Z)) (ts : list thread) (t : thread).
Implicit Types (d : option Z) (tid : nat).

Lemma elem_of_those ds ts d :
  d ∈ those P ds ts ↔ ∃ i t, ds !! i = Some d ∧ ts !! i = Some t ∧ P t.
Proof.
  unfold those. rewrite list_elem_of_fmap. split.
  - intros ([d' t]&->&[Hw Hin]%list_elem_of_filter).
    apply elem_of_lookup_zip_with in Hin as (i&?&?&[= <- <-]&?&?).
    by exists i, t.
  - intros (i&t&?&?&?). exists (d, t). split; [done|].
    apply list_elem_of_filter. split; [done|].
    by apply (elem_of_lookup_zip_with_2 _ _ _ _ _ (d, t) i).
Qed.

Lemma those_insert ds ts tid t t' d :
  ts !! tid = Some t → (P t → P t') →
  d ∈ those P ds ts → d ∈ those P ds (<[tid := t']> ts).
Proof.
  intros Ht Hw. rewrite !elem_of_those. intros (i&x&?&?&?).
  destruct (decide (i = tid)) as [->|].
  - exists tid, t'. rewrite list_lookup_insert_eq by (by eapply lookup_lt_Some).
    naive_solver.
  - exists i, x. by rewrite list_lookup_insert_ne.
Qed.

Lemma those_insert_inv ds ts tid t t' d :
  ts !! tid = Some t → (P t' → P t) →
  d ∈ those P ds (<[tid := t']> ts) → d ∈ those P ds ts.
Proof.
  intros Ht Hw. rewrite !elem_of_those. intros (i&x&?&Hx&?).
  apply list_lookup_insert_Some in Hx as [(->&->&?)|[? ?]]; eauto 10.
Qed.

Lemma those_insert_here ds ts tid t' d :
  ds !! tid = Some d → (tid < length ts)%nat → P t' →
  d ∈ those P ds (<[tid := t']> ts).
Proof.
  intros. apply elem_of_those. exists tid, t'.
  by rewrite list_lookup_insert_eq.
Qed.

End stages.

Lemma wrote_has_assigned t : wrote t → has_assigned t.
Proof. destruct t as [|i [|] r| | | | | |]; simpl; try done; lia. Qed.

Lemma winners_those ds ts d : d ∈ winners ds ts → d ∈ those has_assigned ds ts.
Proof.
  unfold winners. rewrite !elem_of_those.
  intros (i&t&?&?&?%wrote_has_assigned). eauto.
Qed.

(** ** Accepts of one job *)

Section one_job.
Context (k : Z) (ds : list (option Z)) (db0 : Db.t) (p : nat) (job0 : Job.t).
Context (Hfind :
  list_find (λ job, Job.id job = k) (Db.jobs db0) = Some (p, job0)).
Context (Havail : Job.status job0 = "available").
Implicit Types (c : config) (t : thread) (ts : list thread) (tid : nat).
Implicit Types (d : option Z) (J : Job.t).

(** Some thread has written the status. *)
Definition started (ts : list thread) : Prop :=
  ∃ d, d ∈ those has_assigned ds ts.

(** Where a thread that accepts the job for [d] can be: before the job
    in its scan, at a statement of the body, refused after another has
    written the status, or returned with the job assigned to a driver
    that has been written. *)
Definition accepting (ts : list thread) (d : option Z) (t : thread) : Prop :=
  match t with
  | Scan _ i _ _ _ =>
      (i ≤ p)%nat ∧
      t = Scan k i (accept_body d) ReturnJob (error job_not_found)
  | Body _ _ _ => ∃ n, t = Body p (drop n (accept_body d)) ReturnJob
  | Done resp =>
      (started ts ∧ resp = error job_unavailable) ∨
      ∃ d', d' ∈ winners ds ts ∧ resp = ok (JsonJob (assigned d' job0))
  | _ => False
  end.

(** The job, by what has been written. *)
Definition held (ts : list thread) (J : Job.t) : Prop :=
  (¬ started ts ∧ J = job0) ∨
  (started ts ∧ (∀ d, d ∉ winners ds ts) ∧
   J = Job.set_status "assigned" job0) ∨
  (∃ d, d ∈ winners ds ts ∧ J = assigned d job0).

Record accepts (c : config) : Prop := {
  accepts_threads : Forall2 (accepting c.2) ds c.2;
  accepts_job : ∃ J, c.1 = write p (λ _, J) db0 ∧ held c.2 J;
}.

Lemma find_lookup : Db.jobs db0 !! p = Some job0.
Proof. by apply list_find_Some in Hfind as (?&_). Qed.

Lemma find_id : Job.id job0 = k.
Proof. by apply list_find_Some in Hfind as (_&?&_). Qed.

Lemma find_before i job :
  (i < p)%nat → Db.jobs db0 !! i = Some job → Job.id job ≠ k.
Proof. apply list_find_Some in Hfind as (_&_&Hlt). intros. by eapply Hlt. Qed.

Lemma held_id ts J : held ts J → Job.id J = k.
Proof. intros [[_ ->]|[(_&_&->)|(d&_&->)]]; apply find_id. Qed.

Lemma accepts_init : accepts (db0, start <$> (AcceptJob k <$> ds)).
Proof.
  split; simpl.
  - apply Forall2_fmap_r, Forall2_fmap_r, Forall_Forall2_diag, Forall_true.
    intros d. simpl. split; [lia|done].
  - exists job0. split.
    + unfold write. rewrite (list_alter_fixed _ _ _ _ find_lookup) by done.
      by destruct db0.
    + left. split; [|done]. intros [d (i&t&_&Ht&?)%elem_of_those].
      rewrite <-list_fmap_compose, list_lookup_fmap in Ht.
      destruct (ds !! i); by simplify_eq/=.
Qed.

(** What is written stays written. *)
Lemma accepting_mono ts ts' d t :
  (started ts → started ts') →
  (∀ d', d' ∈ winners ds ts → d' ∈ winners ds ts') →
  accepting ts d t → accepting ts' d t.
Proof. destruct t; simpl; naive_solver. Qed.

Section one_step.
Context (ts : list thread) (tid : nat) (d : option Z) (t t' : thread).
Context (Hts : Forall2 (accepting ts) ds ts).
Context (Hd : ds !! tid = Some d) (Ht : ts !! tid = Some t).
Context (Ha : has_assigned t → has_assigned t') (Hw : wrote t → wrote t').

Lemma started_insert : started ts → started (<[tid := t']> ts).
Proof. intros [d' ?]. exists d'. by eapply those_insert. Qed.

Lemma winners_insert d' :
  d' ∈ winners ds ts → d' ∈ winners ds (<[tid := t']> ts).
Proof. by eapply those_insert. Qed.

(** The invariant after a step of thread [tid], from what the step does
    to the thread and to the job. *)
Lemma accepts_update J' :
  accepting (<[tid := t']> ts) d t' → held (<[tid := t']> ts) J' →
  accepts (write p (λ _, J') db0, <[tid := t']> ts).
Proof.
  intros Ht' HJ'. split; simpl; [|by eauto].
  rewrite <-(list_insert_id ds tid d Hd). apply Forall2_insert; [|done].
  eapply Forall2_impl; [apply Hts|]. intros d0 t0.
  apply accepting_mono; auto using started_insert, winners_insert.
Qed.

(** A step that writes nothing new. *)
Lemma held_same J :
  (has_assigned t' → has_assigned t) → (wrote t' → wrote t) →
  held ts J → held (<[tid := t']> ts) J.
Proof.
  intros Ha' Hw' HJ.
  assert (started (<[tid := t']> ts) → started ts) as Hs
    by (intros [d' ?]; exists d'; by eapply those_insert_inv).
  assert (∀ d', d' ∈ winners ds (<[tid := t']> ts) → d' ∈ winners ds ts)
    as Hws by (intros d'; by eapply those_insert_inv).
  destruct HJ as [[? ->]|[(?&?&->)|(d'&?&->)]].
  - left. eauto.
  - right. left. split_and!; [by apply started_insert| |done]. naive_solver.
  - right. right. exists d'. auto using winners_insert.
Qed.

End one_step.

(** The invariant after a step that writes nothing. *)
Lemma accepts_quiet ts tid d t t' J :
  accepts (write p (λ _, J) db0, ts) → held ts J →
  ds !! tid = Some d → ts !! tid = Some t →
  (has_assigned t ↔ has_assigned t') → (wrote t ↔ wrote t') →
  accepting (<[tid := t']> ts) d t' →
  accepts (write p (λ _, J) db0, <[tid := t']> ts).
Proof.
  intros Hc HJ Hd Ht [??] [??] Ht'.
  apply (accepts_update ts tid d t t'); [apply Hc|done..|].
  by apply (held_same ts tid t t').
Qed.

Lemma lookup_held J i :
  Db.jobs (write p (λ _, J) db0) !! i
  = if decide (i = p) then Some J else Db.jobs db0 !! i.
Proof.
  unfold write. simpl. rewrite list_lookup_alter.
  destruct (decide (p = i)) as [<-|].
  - by rewrite decide_True, find_lookup.
  - by rewrite decide_False.
Qed.

(** The steps of the scan. *)
Lemma accepts_scan tid ts J d i :
  accepts (write p (λ _, J) db0, ts) → held ts J →
  ds !! tid = Some d → (i ≤ p)%nat →
  ts !! tid = Some (Scan k i (accept_body d) ReturnJob (error job_not_found)) →
  accepts (sched_step tid (write p (λ _, J) db0, ts)).
Proof.
  intros Hc HJ Hd Hi Ht. unfold sched_step. cbn [fst snd]. rewrite Ht.
  cbn [step_thread]. rewrite lookup_held.
  destruct (decide (i = p)) as [->|Hne].
  - rewrite decide_True by (by eapply held_id).
    eapply accepts_quiet; [done..|simpl; lia|done|by exists 0%nat].
  - destruct (lookup_lt_is_Some_2 (Db.jobs db0) i) as [job Hjob].
    { pose proof (lookup_lt_Some _ _ _ find_lookup). lia. }
    rewrite Hjob, decide_False by (apply (find_before i); [lia|done]).
    eapply accepts_quiet; [done..|]. split; [lia|done].
Qed.

(** What the job tells. *)
Lemma held_status ts J : held ts J → Job.status J ≠ "available" → started ts.
Proof.
  intros [[_ ->]|[(?&_)|(d&?%winners_those&_)]] ?; [done..|by exists d].
Qed.

Lemma held_started ts J :
  held ts J → started ts →
  Job.status J ≠ "available" ∧ Job.set_status "assigned" J = J.
Proof. by intros [[? _]|[(_&_&->)|(d&_&->)]] ?. Qed.

Lemma held_won ts J d :
  held ts J → d ∈ winners ds ts →
  ∃ d', d' ∈ winners ds ts ∧ J = assigned d' job0.
Proof.
  intros [[Hn _]|[(_&Hn&_)|?]] Hd; [|by destruct (Hn d)|done].
  destruct Hn. exists d. by apply winners_those.
Qed.

Local Ltac step_of Ht :=
  unfold sched_step; cbn [fst snd]; rewrite Ht; cbn [step_thread].

(** The test of the status. *)
Lemma accepts_test tid ts J d :
  accepts (write p (λ _, J) db0, ts) → held ts J → ds !! tid = Some d →
  ts !! tid = Some (Body p (accept_body d) ReturnJob) →
  accepts (sched_step tid (write p (λ _, J) db0, ts)).
Proof.
  intros Hc HJ Hd Ht. step_of Ht. rewrite lookup_held, decide_True by done.
  case_decide as Hst; (eapply accepts_quiet; [done..|simpl; lia|done|]).
  - left. split; [|done].
    eapply started_insert; [done|simpl; lia|by eapply held_status].
  - by exists 1%nat.
Qed.

(** The assignment of the status. *)
Lemma accepts_set_status tid ts J d :
  accepts (write p (λ _, J) db0, ts) → held ts J → ds !! tid = Some d →
  ts !! tid = Some (Body p [SetStatus "assigned"; SetDriverId d] ReturnJob) →
  accepts (sched_step tid (write p (λ _, J) db0, ts)).
Proof.
  intros Hc HJ Hd Ht. step_of Ht. rewrite write_write.
  pose proof (lookup_lt_Some _ _ _ Ht) as Hlt.
  apply (accepts_update ts tid d _ _ (accepts_threads _ Hc) Hd Ht)
    with (J' := Job.set_status "assigned" J);
    [simpl; lia|done|by exists 2%nat|].
  assert (started (<[tid:=Body p [SetDriverId d] ReturnJob]> ts)) as Hs.
  { exists d. apply those_insert_here; [done..|simpl; lia]. }
  destruct HJ as [[Hn ->]|[(?&Hn&->)|(d'&?&->)]].
  - right. left. split_and!; [done| |done]. intros d' Hd'.
    eapply those_insert_inv in Hd'; [|done..]. destruct Hn. exists d'.
    by apply winners_those.
  - right. left. split_and!; [done| |done]. intros d' Hd'.
    eapply those_insert_inv in Hd'; [|done..]. by destruct (Hn d').
  - right. right. exists d'. split; [|done]. by eapply those_insert.
Qed.

(** The assignment of the driver. *)
Lemma accepts_set_driver_id tid ts J d :
  accepts (write p (λ _, J) db0, ts) → held ts J → ds !! tid = Some d →
  ts !! tid = Some (Body p [SetDriverId d] ReturnJob) →
  accepts (sched_step tid (write p (λ _, J) db0, ts)).
Proof.
  intros Hc HJ Hd Ht. step_of Ht. rewrite write_write.
  pose proof (lookup_lt_Some _ _ _ Ht) as Hlt.
  apply (accepts_update ts tid d _ _ (accepts_threads _ Hc) Hd Ht)
    with (J' := Job.set_driver_id d J);
    [simpl; lia|done|by exists 3%nat|].
  right. right. exists d. split; [by apply those_insert_here|].
  assert (started ts) as Hs.
  { exists d. apply elem_of_those. eexists _, _.
    split_and!; [done..|simpl; lia]. }
  by destruct HJ as [[? _]|[(_&_&->)|(d'&_&->)]].
Qed.

(** The return. *)
Lemma accepts_return tid ts J d :
  accepts (write p (λ _, J) db0, ts) → held ts J → ds !! tid = Some d →
  ts !! tid = Some (Body p [] ReturnJob) →
  accepts (sched_step tid (write p (λ _, J) db0, ts)).
Proof.
  intros Hc HJ Hd Ht. step_of Ht. rewrite lookup_held, decide_True by done.
  eapply accepts_quiet; [done..|simpl; lia|done|]. right.
  destruct (held_won ts J d HJ) as (d'&?&->).
  { apply elem_of_those. by eexists _, _. }
  exists d'. split; [|done]. eapply those_insert; [done| |done]. done.
Qed.

Lemma accepts_sched_step tid c : accepts c → accepts (sched_step tid c).
Proof.
  intros Hc. destruct (c.2 !! tid) as [t|] eqn:Ht;
    [|by unfold sched_step; rewrite Ht].
  destruct (Forall2_lookup_r _ _ _ _ _ (accepts_threads _ Hc) Ht) as (d&Hd&Hdt).
  pose proof (accepts_job _ Hc) as (J&Hdb&HJ).
  destruct c as [db ts]; simpl in *; subst db.
  destruct t as [k' i body r orelse|i body r| | | | | |resp]; try done;
    simpl in Hdt.
  - destruct Hdt as [Hi [= -> -> -> ->]]. by eapply accepts_scan.
  - destruct Hdt as [n [= -> -> ->]].
    destruct n as [|[|[|n]]].
    + by eapply accepts_test.
    + by eapply accepts_set_status.
    + by eapply accepts_set_driver_id.
    + simpl in Ht. rewrite drop_nil in Ht. by eapply accepts_return.
  - unfold sched_step. simpl. rewrite Ht. simpl. by rewrite list_insert_id.
Qed.

Lemma accepts_exec sched :
  accepts (exec sched (db0, start <$> (AcceptJob k <$> ds))).
Proof.
  generalize accepts_init. generalize (db0, start <$> (AcceptJob k <$> ds)).
  induction sched as [|tid sched IH]; intros c Hc; simpl;
    auto using accepts_sched_step.
Qed.

(** *** When the threads have returned *)

Section all_done.
Context (c : config) (Hc : accepts c) (Hd : Forall is_done c.2).

(** Whoever has written the status has written the driver. *)
Lemma accepts_done_started : started c.2 → ∃ d, d ∈ winners ds c.2.
Proof.
  intros (d&(i&t&?&Ht&?)%elem_of_those). exists d. apply elem_of_those.
  exists i, t. split_and!; [done..|].
  pose proof (Forall_lookup_1 _ _ _ _ Hd Ht). by destruct t.
Qed.

Lemma accepts_done_threads :
  Forall (λ t, t = Done (error job_unavailable) ∨
      ∃ d, d ∈ winners ds c.2 ∧ t = Done (ok (JsonJob (assigned d job0)))) c.2.
Proof.
  apply Forall_lookup. intros i t Ht.
  destruct (Forall2_lookup_r _ _ _ _ _ (accepts_threads _ Hc) Ht) as (d&_&Hdt).
  pose proof (Forall_lookup_1 _ _ _ _ Hd Ht). destruct t; try done.
  simpl in Hdt. naive_solver.
Qed.

(** Somebody has won. *)
Lemma accepts_done_winner : ds ≠ [] → ∃ d, d ∈ winners ds c.2.
Proof.
  intros Hne. destruct ds as [|d ds'] eqn:Hds; [done|]. rewrite <-Hds in *.
  destruct (Forall2_lookup_l _ _ _ 0 d (accepts_threads _ Hc)) as (t&Ht&Hdt);
    [by rewrite Hds|].
  pose proof (Forall_lookup_1 _ _ _ _ Hd Ht). destruct t; try done.
  destruct Hdt as [[? _]|(d'&?&_)];
    [by apply accepts_done_started|by exists d'].
Qed.

(** The job is assigned to the driver of one of the winners. *)
Lemma accepts_done_db :
  ds ≠ [] → ∃ d, d ∈ winners ds c.2 ∧ c.1 = Db.update_job k (assigned d) db0.
Proof.
  intros (d&Hw)%accepts_done_winner. destruct (accepts_job _ Hc) as (J&->&HJ).
  destruct (held_won _ _ _ HJ Hw) as (d'&?&->). exists d'. split; [done|].
  rewrite (update_job_write _ _ _ _ _ Hfind). unfold write.
  by rewrite <-!(list_insert_as_alter _ _ _ _ find_lookup).
Qed.

End all_done.

End one_job.

(** C16. Concurrent accepts of an available job: the race has a winner
    and nothing is lost but the choice.  For any number of requests to
    accept the same job, available at the start, with any driver ids and
    in any schedule, once every thread has returned: the database is the
    one of the start with the job assigned to the driver of a request
    that was answered 200, so at least one request was; every request
    answered 200 is shown the job assigned to the driver of one of the
    requests answered 200; every other request is answered 400 "Job
    already assigned or completed". *)
Theorem exec_accepts sched k ds db0 job0 :
  let c := exec sched (db0, start <$> (AcceptJob k <$> ds)) in
  Db.find_job k db0 = Some job0 → Job.status job0 = "available" →
  ds ≠ [] → Forall is_done c.2 →
  (∃ d, d ∈ winners ds c.2 ∧ c.1 = Db.update_job k (assigned d) db0) ∧
  Forall (λ t, t = Done (error job_unavailable) ∨
      ∃ d, d ∈ winners ds c.2 ∧ t = Done (ok (JsonJob (assigned d job0))))
    c.2.
Proof.
  intros c Hf Havail Hne Hd. unfold Db.find_job in Hf.
  destruct (list_find _ _) as [[p job]|] eqn:Hfind; simplify_eq/=.
  pose proof (accepts_exec k ds db0 p _ Hfind Havail sched) as Hc.
  eauto using accepts_done_db, accepts_done_threads.
Qed.

(** A request can be answered 200 with the job assigned to the driver of
    another request: both threads pass the test, the first writes driver
    1, the second writes driver 2, and both return the job as it is
    then. *)
Example accept_shown_other_driver :
  let c := exec [0; 0; 1; 1; 0; 0; 1; 1; 0; 1]%nat
             (Db.init, start <$> (AcceptJob 1 <$> [Some 1; Some 2])) in
  ∃ job, c.2 = [Done (ok (JsonJob job)); Done (ok (JsonJob job))] ∧
    Job.driver_id job = Some 2 ∧ Db.find_job 1 c.1 = Some job.
Proof. by eexists. Qed.

(** ** Witness *)

Lemma exec_accepts_witness :
  let ds := [Some 1; Some 2] in
  let job0 := Job.mk 1 "Amazon SODO" "Bellevue Downtown" "Pallet of boxes"
                "available" None in
  let c := exec [0; 0; 1; 1; 0; 0; 0; 1; 1; 1]%nat
             (Db.init, start <$> (AcceptJob 1 <$> ds)) in
  (∃ d, d ∈ winners ds c.2 ∧ c.1 = Db.update_job 1 (assigned d) Db.init) ∧
  Forall (λ t, t = Done (error job_unavailable) ∨
      ∃ d, d ∈ winners ds c.2 ∧ t = Done (ok (JsonJob (assigned d job0))))
    c.2.
Proof.
  apply (exec_accepts [0; 0; 1; 1; 0; 0; 0; 1; 1; 1]%nat 1 [Some 1; Some 2]
           Db.init); by_compute.
Defined.
