(* ===== verification/Quiet.v ===== *)
(** * Requests that change nothing, in any schedule

    Some requests leave the database as it is when they are served: the
    three GET routes, an accept of a job that is not available (answered
    400), an accept, assignment or completion of a job that is not in the
    list (404, or the error dictionary), and an assignment or completion
    that writes what the job already has.  They are the [quiet] requests
    of a database.

    [exec_quiet]: any number of quiet requests, interleaved in any way,
    leave the database untouched at every moment, and each is answered
    as if it were served alone, within the steps its handler takes
    alone.  In particular concurrent accepts of a job that has been
    taken are all refused, whatever the schedule: the race of
    [Interleaving.double_accept] needs a job that is available.

    The proof follows a thread through its handler.  A body is
    [unchanged] for a job when no assignment of it changes the job and
    its test raises otherwise; a thread is [still] when, alone, it never
    changes the database.  A quiet request starts a still thread
    ([quiet_still]); threads that are still do not see one another, so a
    schedule of them is each thread run alone for its own steps
    ([exec_alone]). *)

From S2P Require Import Prelude Model Store Handlers Invariants Router.
From S2P Require Import Lifecycle Interleaving Independence.

(** ** Definitions *)

(** The request, served alone, leaves the database as it is. *)
Definition quiet (db : Db.t) (req : Request) : Prop := (dispatch req db).2 = db.

#[global] Instance quiet_dec db req : Decision (quiet db req).
Proof. unfold quiet. apply _. Defined.

(** No statement of the body changes the job. *)
Fixpoint unchanged (job : Job.t) (body : list instr) : Prop :=
  match body with
  | [] => True
  | IfNotAvailableRaise :: body =>
      Job.status job ≠ "available" ∨ unchanged job body
  | SetStatus v :: body => Job.set_status v job = job ∧ unchanged job body
  | SetDriverId v :: body => Job.set_driver_id v job = job ∧ unchanged job body
  end.

(** The thread, alone, writes nothing new from where it is. *)
Definition still (db : Db.t) (t : thread) : Prop :=
  ∀ n, (run_thread n t db).2 = db.

(** ** Threads that write nothing new *)

Section threads.
Implicit Types (db : Db.t) (t : thread) (job : Job.t) (body : list instr).

(** A thread that has returned writes nothing; one that is still writes
    nothing at its next step, and is still after it. *)
Lemma still_Done db resp : still db (Done resp).
Proof. intros n. by rewrite run_thread_Done. Qed.

Lemma still_step_db db t : still db t → (step_thread t db).2 = db.
Proof. intros Ht. specialize (Ht 1%nat). by rewrite run_thread_S in Ht. Qed.

Lemma still_step db t : still db t → still db (step_thread t db).1.
Proof.
  intros Ht n. pose proof (Ht (S n)) as Hn. rewrite run_thread_S in Hn.
  by rewrite still_step_db in Hn.
Qed.

Lemma still_S db t :
  (step_thread t db).2 = db → still db (step_thread t db).1 → still db t.
Proof.
  intros Hdb Ht [|n]; [done|]. rewrite run_thread_S, Hdb. apply Ht.
Qed.

(** An assignment of the value the attribute has. *)
Lemma write_same i f db job :
  Db.jobs db !! i = Some job → f job = job → write i f db = db.
Proof.
  intros Hi Hf. unfold write, Db.set_jobs. destruct db as [ds js n].
  simpl in *. f_equal. apply list_eq. intros j. destruct (decide (j = i)) as [->|].
  - by rewrite list_lookup_alter_eq, Hi; simpl; rewrite Hf.
  - by rewrite list_lookup_alter_ne.
Qed.

(** A body that leaves its job unchanged. *)
Lemma still_body i body r db job :
  Db.jobs db !! i = Some job → unchanged job body → still db (Body i body r).
Proof.
  intros Hi. induction body as [|[|v|v] body IH]; intros Hbody; apply still_S;
    simpl in *; rewrite ?Hi; try case_decide; simpl; destruct_and?;
    erewrite ?write_same by done; auto using still_Done.
  naive_solver.
Qed.

(** The loop header, from position [length l1] on. *)
Lemma still_scan k body r orelse db l1 l2 :
  Db.jobs db = l1 ++ l2 →
  (∀ j job, list_find (λ job, Job.id job = k) l2 = Some (j, job) →
            unchanged job body) →
  still db (Scan k (length l1) body r orelse).
Proof.
  revert l1. induction l2 as [|job l2 IH]; intros l1 Hjobs Hfind; apply still_S;
    simpl; rewrite Hjobs;
    rewrite ?list_lookup_middle, ?lookup_ge_None_2 by (by rewrite ?length_app; simpl; lia);
    try case_decide; simpl; auto using still_Done.
  - eapply still_body; [by rewrite Hjobs, list_lookup_middle|].
    eapply Hfind. simpl. by rewrite decide_True.
  - replace (S (length l1)) with (length (l1 ++ [job]))
      by (rewrite length_app; simpl; lia).
    apply IH; [by rewrite <-app_assoc|]. intros j job' Hj.
    apply (Hfind (S j)). simpl. rewrite decide_False by done. by rewrite Hj.
Qed.

(** A scanning handler whose body leaves the job found unchanged. *)
Lemma still_scanner k body r orelse db :
  (∀ job, Db.find_job k db = Some job → unchanged job body) →
  still db (Scan k 0 body r orelse).
Proof.
  intros Hfind. apply (still_scan k body r orelse db [] (Db.jobs db)); [done|].
  intros j job Hj. apply Hfind. unfold Db.find_job. by rewrite Hj.
Qed.

End threads.

(** ** Requests that change nothing start threads that write nothing new *)

Section requests.
Implicit Types (db : Db.t) (req : Request) (job : Job.t).

(** A quiet update finds a job that has what it assigns already, or,
    for [accept_job], that is not available. *)
Lemma quiet_job_effect req db k job :
  quiet db req → is_update req → target req db = Some k →
  Db.find_job k db = Some job → job_effect req job = job.
Proof.
  intros Hq Hreq Hk Hf. unfold quiet in Hq.
  rewrite (dispatch_db_effect req db k) in Hq by auto using is_update_not_create.
  apply (f_equal (Db.find_job k)) in Hq.
  rewrite find_job_update_job_eq, Hf in Hq by auto using id_job_effect.
  by simplify_eq/=.
Qed.

(** The requests that are quiet: the reads, the accepts that are
    refused, the updates of a job that is not there. *)
Lemma quiet_read req db : method req = GET → quiet db req.
Proof. by destruct req. Qed.

Lemma quiet_not_found req db k :
  is_update req → target req db = Some k → Db.find_job k db = None →
  quiet db req.
Proof.
  intros Hreq Hk Hf. unfold quiet.
  rewrite (dispatch_db_effect req db k) by auto using is_update_not_create.
  by apply update_job_not_found.
Qed.

Lemma quiet_unavailable k d db job :
  Db.find_job k db = Some job → Job.status job ≠ "available" →
  quiet db (AcceptJob k d).
Proof.
  intros Hf Hs. unfold quiet. rewrite dispatch_db, accept_job_db.
  eapply update_job_fixed; [done|]. unfold accept_effect. by rewrite decide_False.
Qed.

(** The body of a quiet update leaves the job it finds unchanged. *)
Lemma quiet_unchanged req db k job body r orelse :
  quiet db req → start req = Scan k 0 body r orelse →
  Db.find_job k db = Some job → unchanged job body.
Proof.
  intros Hq Hreq Hf.
  destruct req as [| |b|k' d|k' d|k'|]; simplify_eq/=;
    pose proof (quiet_job_effect _ db k job Hq I eq_refl Hf) as He;
    simpl in He; [unfold accept_effect in He; case_decide; [|by left]|..];
    destruct job; unfold assigned, completed, Job.set_status, Job.set_driver_id in *;
    by simplify_eq/=.
Qed.

Lemma quiet_still req db : quiet db req → still db (start req).
Proof.
  intros Hq. destruct req as [| |b|k d|k d|k|];
    try (by apply still_S; [|apply still_Done]);
    try (by apply still_scanner; intros job;
         apply (quiet_unchanged _ _ _ _ _ _ _ Hq eq_refl)).
  unfold quiet in Hq. apply (f_equal Db.next_job_id) in Hq.
  rewrite dispatch_next_job_id in Hq. simpl in Hq. lia.
Qed.

End requests.

(** ** Every schedule of threads that write nothing new *)

Section schedules.
Context (db : Db.t) (ts : list thread).
Context (Hts : Forall (still db) ts).

(** Where the threads are after a schedule: each where it is, alone,
    after its own steps. *)
Definition alone (sched : list nat) : config :=
  (db, imap (λ j t, (run_thread (own j sched) t db).1) ts).

(** The steps of a thread in a schedule and one step more. *)
Lemma own_snoc sched tid j :
  own j (sched ++ [tid])
  = if decide (tid = j) then S (own j sched) else own j sched.
Proof.
  unfold own. rewrite filter_app, length_app, filter_cons, filter_nil.
  case_decide; simpl; lia.
Qed.

Lemma still_run_thread n t : still db t → still db (run_thread n t db).1.
Proof.
  intros Ht m. pose proof (Ht (n + m)%nat) as Hnm.
  by rewrite run_thread_add, (Ht n) in Hnm.
Qed.

(** A step of a still thread among still threads is its next step
    alone. *)
Lemma sched_step_alone sched tid :
  sched_step tid (alone sched) = alone (sched ++ [tid]).
Proof.
  unfold sched_step, alone. simpl. rewrite list_lookup_imap.
  destruct (ts !! tid) as [t|] eqn:Ht; simpl.
  - pose proof (Forall_lookup_1 _ _ _ _ Hts Ht) as Hstill.
    pose proof (run_thread_snoc (own tid sched) t db) as Hs.
    rewrite (Hstill (own tid sched)) in Hs.
    pose proof (Hstill (S (own tid sched))) as Hdb. rewrite Hs in Hdb.
    destruct (step_thread _ db) as [t' db']. cbn [snd] in Hdb. subst db'.
    f_equal. apply list_eq. intros j. rewrite list_lookup_imap, own_snoc.
    destruct (decide (tid = j)) as [<-|].
    + rewrite list_lookup_insert_eq by (by rewrite length_imap; eapply lookup_lt_Some).
      rewrite Ht. cbn [fmap option_fmap option_map]. by rewrite Hs.
    + by rewrite list_lookup_insert_ne, list_lookup_imap by done.
  - f_equal. apply list_eq. intros j. rewrite !list_lookup_imap, own_snoc.
    by case_decide; simplify_eq; rewrite ?Ht.
Qed.

Lemma exec_alone sched : exec sched (db, ts) = alone sched.
Proof.
  induction sched as [|tid sched IH] using rev_ind.
  - unfold alone. simpl. f_equal. apply list_eq. intros j.
    rewrite list_lookup_imap. by destruct (ts !! j).
  - by rewrite exec_snoc, IH, sched_step_alone.
Qed.

End schedules.

(** C21. Requests that change nothing do not disturb one another.  Let
    every request of a list leave the database [db] as it is when served
    alone (a read, an accept that is refused, an update of a job that is
    not there).  Then in every schedule of their threads the database is
    still [db], a request that has returned has returned the response
    [dispatch] gives it in [db], and it has returned once its thread has
    taken as many steps as there are jobs, plus five. *)
Theorem exec_quiet sched reqs db j req :
  Forall (quiet db) reqs → reqs !! j = Some req →
  let c := exec sched (db, start <$> reqs) in
  c.1 = db ∧
  (∀ resp, c.2 !! j = Some (Done resp) → resp = (dispatch req db).1) ∧
  ((length (Db.jobs db) + 5 ≤ own j sched)%nat →
   c.2 !! j = Some (Done (dispatch req db).1)).
Proof.
  intros Hq Hj c. unfold c. rewrite exec_alone.
  2:{ apply Forall_fmap, (Forall_impl _ _ _ Hq). intros ?. apply quiet_still. }
  unfold alone. simpl. rewrite list_lookup_imap, list_lookup_fmap, Hj. simpl.
  split_and!; [done|..].
  - intros resp [= Hd].
    pose proof (run_thread_done (own j sched) req db) as Hrun.
    rewrite Hd in Hrun. specialize (Hrun I). rewrite Hrun in Hd. by simplify_eq/=.
  - intros Hn. destruct (thread_steps req db) as (n&?&Hrun).
    by rewrite (run_thread_le n _ _ _ _ _ Hrun) by lia.
Qed.

(** Job 1 has been completed.  Two accepts of it, a list of the jobs
    and a completion of a job that is not there: in the schedule below
    the second accept has taken seven steps and is refused with 400. *)
Example accepts_refused :
  let db := (dispatch (CompleteJob 1) Db.init).2 in
  let reqs := [AcceptJob 1 (Some 2); AcceptJob 1 (Some 1); GetJobs; CompleteJob 7] in
  (exec [0; 1; 1; 2; 1; 3; 1; 1; 0; 1; 1]%nat (db, start <$> reqs)).2 !! 1%nat
  = Some (Done (error job_unavailable)).
Proof. by_compute. Qed.

(** ** Witness *)

Lemma exec_quiet_witness :
  let db := (dispatch (CompleteJob 1) Db.init).2 in
  let reqs := [AcceptJob 1 (Some 2); AcceptJob 1 (Some 1); GetJobs; CompleteJob 7] in
  let sched := [0; 1; 1; 2; 1; 3; 1; 1; 0; 1; 1]%nat in
  let c := exec sched (db, start <$> reqs) in
  Forall (quiet db) reqs ∧ c.1 = db ∧
  (∀ resp, c.2 !! 1%nat = Some (Done resp) →
           resp = (dispatch (AcceptJob 1 (Some 1)) db).1) ∧
  ((length (Db.jobs db) + 5 ≤ own 1 sched)%nat →
   c.2 !! 1%nat = Some (Done (dispatch (AcceptJob 1 (Some 1)) db).1)).
Proof.
  cbv zeta. split; [by_compute|].
  apply (exec_quiet [0; 1; 1; 2; 1; 3; 1; 1; 0; 1; 1]%nat
           [AcceptJob 1 (Some 2); AcceptJob 1 (Some 1); GetJobs; CompleteJob 7]
           (dispatch (CompleteJob 1) Db.init).2 1 (AcceptJob 1 (Some 1)));
    [by_compute|reflexivity].
Defined.
