(* ===== verification/Frame.v ===== *)
(** * The frame of a schedule: jobs no request names

    [Router.dispatch_frame] says that a request served alone changes at
    most the job it names.  Here the same is shown of requests in
    progress together, whatever they are and however their steps are
    interleaved: a job whose id is in the path of none of the requests
    is, at the end of any schedule, where it was and as it was
    ([exec_frame]).  The races of [Interleaving] are confined to the jobs
    the racing requests name, and to the jobs they create.

    The reason is in the handlers: each assigns to the job its loop has
    stopped at, whose id is the [job_id] of the request, and
    [create_job] appends.  A thread is [bound_to] a list of ids when it
    scans for one of them or holds a job numbered by one of them; a step
    of such a thread [spares] the other jobs and leaves the thread bound.
    No assumption is made on the database: ids may be duplicated. *)

From S2P Require Import Prelude Model Store Handlers Invariants Router.
From S2P Require Import Interleaving Independence.

(** ** Definitions *)

(** The job a request names in its path. *)
Definition job_id (req : Request) : option Z :=
  match req with
  | AcceptJob job_id _ | AssignDriver job_id _ | CompleteJob job_id => Some job_id
  | Home | GetJobs | CreateJob _ | GetDrivers => None
  end.

(** A thread is bound to the ids [ks] when the id it scans for is one
    of them, and the job it holds, if it has statements left to run on
    it, is numbered by one of them. *)
Definition bound_to (ks : list Z) (ids : list Z) (t : thread) : Prop :=
  match t with
  | Scan k _ _ _ _ => k ∈ ks
  | Body p body _ => body = [] ∨ ∃ k, k ∈ ks ∧ ids !! p = Some k
  | _ => True
  end.

(** From [db] to [db'] the jobs numbered outside [ks] are where they
    were and as they were, and no job has changed its id. *)
Definition spares (ks : list Z) (db db' : Db.t) : Prop :=
  Db.job_ids db `prefix_of` Db.job_ids db' ∧
  ∀ p job, Db.jobs db !! p = Some job → Job.id job ∉ ks →
           Db.jobs db' !! p = Some job.

(** ** A step spares the jobs the thread is not bound to *)

Section steps.
Context (ks : list Z).
Implicit Types (db : Db.t) (t : thread) (p : nat) (job : Job.t).

(** [spares] is a preorder; assignments to a job numbered in [ks] and
    appends spare the other jobs. *)
Lemma spares_refl db : spares ks db db.
Proof. done. Qed.

Lemma spares_trans db1 db2 db3 :
  spares ks db1 db2 → spares ks db2 db3 → spares ks db1 db3.
Proof. intros [? H1] [? H2]. split; [by etrans|eauto]. Qed.

Lemma spares_write p f db k :
  (∀ job, Job.id (f job) = Job.id job) →
  k ∈ ks → Db.job_ids db !! p = Some k → spares ks db (write p f db).
Proof.
  intros Hf Hk Hp. split; [by rewrite job_ids_write|].
  intros q job Hq Hid. unfold write. simpl.
  rewrite list_lookup_alter_ne; [done|]. intros ->.
  rewrite job_ids_lookup, Hq in Hp. by simplify_eq/=.
Qed.

Lemma spares_append job db :
  spares ks db (Db.set_jobs (Db.jobs db ++ [job]) db).
Proof.
  split.
  - unfold Db.job_ids. simpl. rewrite fmap_app. by apply prefix_app_r.
  - intros p job' Hp _. simpl. by apply lookup_app_l_Some.
Qed.

(** A thread stays bound when jobs are appended. *)
Lemma bound_to_mono ids ids' t :
  ids `prefix_of` ids' → bound_to ks ids t → bound_to ks ids' t.
Proof.
  intros Hids. destruct t; simpl; try done.
  intros [?|(k&?&?)]; [by left|right]. exists k. eauto using prefix_lookup_Some.
Qed.

Lemma step_thread_spares t db :
  bound_to ks (Db.job_ids db) t → spares ks db (step_thread t db).2.
Proof.
  destruct t as [k i body r orelse|p [|[] body] r| | | | | |]; simpl;
    try (intros; repeat case_match; by auto using spares_refl, spares_append).
  - intros [?|(k&?&?)]; [done|]. eapply spares_write; by eauto.
  - intros [?|(k&?&?)]; [done|]. eapply spares_write; by eauto.
Qed.

Lemma step_thread_bound_to t db :
  bound_to ks (Db.job_ids db) t →
  bound_to ks (Db.job_ids (step_thread t db).2) (step_thread t db).1.
Proof.
  destruct t as [k i body r orelse|p [|[] body] r| | | | | |]; simpl;
    try (intros; repeat case_match; simplify_eq/=; by auto).
  all: [> intros Hk | intros [?|(k&?&?)]; [done|] ..].
  - destruct (Db.jobs db !! i) as [job|] eqn:Hi; [|done].
    case_decide; simpl; [|done]. right. exists k.
    rewrite job_ids_lookup, Hi. simpl. split; [done|congruence].
  - repeat case_match; simpl; eauto.
  - right. exists k. by rewrite job_ids_write.
  - right. exists k. by rewrite job_ids_write.
Qed.

End steps.

(** ** Every schedule spares the jobs no request names *)

Section schedules.
Context (ks : list Z).
Implicit Types (c : config) (db : Db.t) (sched : list nat).

(** The threads of a configuration are bound to [ks]. *)
Definition bound_all (c : config) : Prop :=
  Forall (bound_to ks (Db.job_ids c.1)) c.2.

Lemma sched_step_spares tid c :
  bound_all c → spares ks c.1 (sched_step tid c).1 ∧ bound_all (sched_step tid c).
Proof.
  intros Hc. unfold sched_step. destruct (c.2 !! tid) as [t|] eqn:Ht; [|done].
  pose proof (Forall_lookup_1 _ _ _ _ Hc Ht) as Hb.
  pose proof (step_thread_spares ks t c.1 Hb) as Hs.
  pose proof (step_thread_bound_to ks t c.1 Hb) as Hb'.
  destruct (step_thread t c.1) as [t' db']. simpl in *. split; [done|].
  apply Forall_insert; [|done].
  eapply Forall_impl; [exact Hc|]. intros t0. apply bound_to_mono, Hs.
Qed.

Lemma exec_spares sched c :
  bound_all c → spares ks c.1 (exec sched c).1 ∧ bound_all (exec sched c).
Proof.
  revert c. induction sched as [|tid sched IH]; intros c Hc; simpl; [done|].
  destruct (sched_step_spares tid c Hc) as [Hs Hc'].
  destruct (IH _ Hc') as [Hs' ?]. eauto using spares_trans.
Qed.

End schedules.

(** A request starts bound to the id it names. *)
Lemma bound_to_start reqs ids req :
  req ∈ reqs → bound_to (omap job_id reqs) ids (start req).
Proof.
  intros Hreq. destruct req; simpl; try done;
    apply list_elem_of_omap; eexists; (split; [done|done]).
Qed.

(** C22. Frame of a schedule.  Whatever requests are in progress and
    however their steps are interleaved, a job whose id none of them
    names in its path is left where it is and as it is: no race of
    other requests changes its status or its driver. *)
Theorem exec_frame sched reqs db p job :
  Db.jobs db !! p = Some job →
  Forall (λ req, job_id req ≠ Some (Job.id job)) reqs →
  Db.jobs (exec sched (db, start <$> reqs)).1 !! p = Some job.
Proof.
  intros Hp Hreqs.
  destruct (exec_spares (omap job_id reqs) sched (db, start <$> reqs)) as [[_ Hs] _].
  { apply Forall_fmap, Forall_forall. intros req Hreq. by apply bound_to_start. }
  apply Hs; [done|]. intros (req&Hreq&Hk)%list_elem_of_omap.
  by eapply (Forall_forall _ reqs) in Hreqs.
Qed.

(** ** Witness *)

Lemma exec_frame_witness :
  let reqs := [AcceptJob 1 (Some 2); CreateJob (JobCreate.mk "a" "b" "c");
               CompleteJob 1; GetJobs; AssignDriver 3 1] in
  let job := Job.mk 2 "Port of Seattle Terminal 18" "Redmond Microsoft Campus"
               "Electronics container" "available" None in
  Db.jobs Db.init !! 1%nat = Some job ∧
  Db.jobs (exec [0; 1; 2; 4; 0; 1; 2; 4; 0; 2; 1; 4; 3; 0; 1; 2; 4; 4; 4]%nat
             (Db.init, start <$> reqs)).1 !! 1%nat = Some job.
Proof.
  split; [reflexivity|].
  apply (exec_frame _ [AcceptJob 1 (Some 2); CreateJob (JobCreate.mk "a" "b" "c");
                       CompleteJob 1; GetJobs; AssignDriver 3 1] Db.init 1);
    [reflexivity|by_compute].
Defined.
