(* ===== verification/Wire.v ===== *)
(** * The wire format: JSON values, the models' schemas and their encoding

    The service speaks JSON.  [json] is a parsed JSON value; an object is
    the list of its members, in the order they are written.  [schema] is
    the type language of the pydantic models ([int], [str], [Optional],
    [List], a model with named fields), and [Job_schema],
    [JobCreate_schema] and [Driver_schema] are the field declarations of
    the three classes of src/main.py.  [conforms] checks a value against a
    schema the way a client does: every declared field is present with a
    value of its type.

    [Json] is the interface between a model and the wire: an encoder, a
    decoder and the law that decoding an encoded value gives it back.  The
    instances follow the field names and the field order of the classes.
    [encode] is the body of a response.

    [Job_shape] is the shape of a job the service promises (a schema with
    an enumeration for the status, which [class Job] declares as any
    string); [dispatch_shape] shows that well-formed databases keep the
    promise. *)

From S2P Require Import Prelude Model Store Handlers Invariants Router.

(** ** JSON values *)

Inductive json : Type :=
| JNull
| JBool (b : bool)
| JNumber (n : Z)
| JString (s : string)
| JArray (items : list json)
| JObject (members : list (string * json)).

(** The member [k] of an object; nothing else has members. *)
Definition member (k : string) (j : json) : option json :=
  if j is JObject ms then assoc k ms else None.

(** The names of the members of an object. *)
Definition keys (j : json) : list string :=
  if j is JObject ms then ms.*1 else [].

(** ** Schemas *)

Inductive schema : Type :=
| SInt
| SStr
| SEnum (values : list string)
| SOptional (s : schema)
| SList (s : schema)
| SModel (fields : list (string * schema)).

(** [conforms s j]: the value [j] has the type [s].  A model's value is an
    object that has every declared field, with a value of the field's
    type. *)
Fixpoint conforms (s : schema) (j : json) : bool :=
  match s, j with
  | SInt, JNumber _ => true
  | SStr, JString _ => true
  | SEnum values, JString s => bool_decide (s ∈ values)
  | SOptional _, JNull => true
  | SOptional s, _ => conforms s j
  | SList s, JArray js => forallb (conforms s) js
  | SModel fs, JObject ms =>
      forallb (λ f, if assoc f.1 ms is Some v then conforms f.2 v else false) fs
  | _, _ => false
  end.

(** The names of the fields a model declares. *)
Definition fields (σ : schema) : list string :=
  if σ is SModel fs then fs.*1 else [].

(** [class Job(BaseModel)] *)
Definition Job_schema : schema :=
  SModel [("id", SInt);
          ("pickup_location", SStr);
          ("dropoff_location", SStr);
          ("load_description", SStr);
          ("status", SStr);
          ("driver_id", SOptional SInt)].

(** [class JobCreate(BaseModel)] *)
Definition JobCreate_schema : schema :=
  SModel [("pickup_location", SStr);
          ("dropoff_location", SStr);
          ("load_description", SStr)].

(** [class Driver(BaseModel)] *)
Definition Driver_schema : schema :=
  SModel [("id", SInt); ("name", SStr); ("current_location", SStr)].

(** The shape of a job the service promises its clients: as [Job_schema],
    with the status one of the three the comment on the field names. *)
Definition Job_shape : schema :=
  SModel [("id", SInt);
          ("pickup_location", SStr);
          ("dropoff_location", SStr);
          ("load_description", SStr);
          ("status", SEnum statuses);
          ("driver_id", SOptional SInt)].

(** What the service promises to answer a request with, on success. *)
Definition response_shape (req : Request) : option schema :=
  match req with
  | GetJobs => Some (SList Job_shape)
  | CreateJob _ | AcceptJob _ _ => Some Job_shape
  | GetDrivers => Some (SList Driver_schema)
  | Home | AssignDriver _ _ | CompleteJob _ => None
  end.

(** ** Encoders and decoders *)

Class Json (A : Type) := {
  to_json : A → json;
  of_json : json → option A;
  of_to_json x : of_json (to_json x) = Some x;
}.
#[global] Hint Mode Json ! : typeclass_instances.
#[global] Arguments to_json {_ _} _ : simpl never.
#[global] Arguments of_json {_ _} _ : simpl never.

#[global] Instance Z_json : Json Z := {|
  to_json n := JNumber n;
  of_json j := if j is JNumber n then Some n else None;
  of_to_json n := eq_refl;
|}.

#[global] Instance string_json : Json string := {|
  to_json s := JString s;
  of_json j := if j is JString s then Some s else None;
  of_to_json s := eq_refl;
|}.

(** [Optional[int]]: [None] is [null]. *)
#[global] Instance option_Z_json : Json (option Z) := {|
  to_json o := if o is Some n then JNumber n else JNull;
  of_json j :=
    match j with JNull => Some None | JNumber n => Some (Some n) | _ => None end;
  of_to_json o := match o with Some _ => eq_refl | None => eq_refl end;
|}.

(** [List[A]]: the array of the elements, in order. *)
#[global] Instance list_json `{!Json A} : Json (list A) := {|
  to_json l := JArray (to_json <$> l);
  of_json j := if j is JArray js then mapM of_json js else None;
  of_to_json l := mapM_fmap_Some of_json to_json l of_to_json;
|}.

(** A field of a model. *)
Definition field `{!Json A} (k : string) (j : json) : option A :=
  member k j ≫= of_json.

Definition Job_to_json (job : Job.t) : json :=
  JObject [("id", to_json (Job.id job));
           ("pickup_location", to_json (Job.pickup_location job));
           ("dropoff_location", to_json (Job.dropoff_location job));
           ("load_description", to_json (Job.load_description job));
           ("status", to_json (Job.status job));
           ("driver_id", to_json (Job.driver_id job))].

Definition Job_of_json (j : json) : option Job.t :=
  id ← field "id" j;
  pickup_location ← field "pickup_location" j;
  dropoff_location ← field "dropoff_location" j;
  load_description ← field "load_description" j;
  status ← field "status" j;
  driver_id ← field "driver_id" j;
  Some (Job.mk id pickup_location dropoff_location load_description status driver_id).

Definition JobCreate_to_json (job : JobCreate.t) : json :=
  JObject [("pickup_location", to_json (JobCreate.pickup_location job));
           ("dropoff_location", to_json (JobCreate.dropoff_location job));
           ("load_description", to_json (JobCreate.load_description job))].

Definition JobCreate_of_json (j : json) : option JobCreate.t :=
  pickup_location ← field "pickup_location" j;
  dropoff_location ← field "dropoff_location" j;
  load_description ← field "load_description" j;
  Some (JobCreate.mk pickup_location dropoff_location load_description).

Definition Driver_to_json (driver : Driver.t) : json :=
  JObject [("id", to_json (Driver.id driver));
           ("name", to_json (Driver.name driver));
           ("current_location", to_json (Driver.current_location driver))].

Definition Driver_of_json (j : json) : option Driver.t :=
  id ← field "id" j;
  name ← field "name" j;
  current_location ← field "current_location" j;
  Some (Driver.mk id name current_location).

Lemma Job_of_to_json job : Job_of_json (Job_to_json job) = Some job.
Proof. destruct job as [? ? ? ? ? []]; reflexivity. Qed.

Lemma JobCreate_of_to_json job : JobCreate_of_json (JobCreate_to_json job) = Some job.
Proof. destruct job. reflexivity. Qed.

Lemma Driver_of_to_json driver : Driver_of_json (Driver_to_json driver) = Some driver.
Proof. destruct driver. reflexivity. Qed.

#[global] Instance Job_json : Json Job.t :=
  {| to_json := Job_to_json; of_json := Job_of_json; of_to_json := Job_of_to_json |}.

#[global] Instance JobCreate_json : Json JobCreate.t := {|
  to_json := JobCreate_to_json;
  of_json := JobCreate_of_json;
  of_to_json := JobCreate_of_to_json;
|}.

#[global] Instance Driver_json : Json Driver.t := {|
  to_json := Driver_to_json;
  of_json := Driver_of_json;
  of_to_json := Driver_of_to_json;
|}.

(** The dictionaries the handlers return, key by key. *)
Definition Dict_to_json (d : Dict) : json :=
  match d with
  | Message message => JObject [("message", to_json message)]
  | MessageJob message job =>
      JObject [("message", to_json message); ("job", to_json job)]
  | Error error => JObject [("error", to_json error)]
  end.

(** The body of a response. *)
Definition encode (c : Content) : json :=
  match c with
  | JsonDict d => Dict_to_json d
  | JsonJob job => to_json job
  | JsonJobs jobs => to_json jobs
  | JsonDrivers drivers => to_json drivers
  | JsonDetail detail => JObject [("detail", to_json detail)]
  end.

(** The body of an error response: [{"detail": ...}]. *)
Definition detail_schema : schema := SModel [("detail", SStr)].

(** ** Encoders are injective *)

Section json_laws.
Context `{!Json A}.
Implicit Types x y : A.

#[global] Instance to_json_inj : Inj (=) (=) (to_json (A:=A)).
Proof. intros x y Hxy. apply (inj Some). by rewrite <-!of_to_json, Hxy. Qed.

End json_laws.

(** ** Encoded values have the type of their model *)

Section typed.
Implicit Types (job : Job.t) (driver : Driver.t) (s : schema) (j : json).

Lemma conforms_list s (js : list json) :
  conforms (SList s) (JArray js) ↔ Forall (λ j, conforms s j) js.
Proof. simpl. by rewrite forallb_True. Qed.

Lemma conforms_to_json_list_elem `{!Json A} s (l : list A) :
  (∀ x : A, x ∈ l → conforms s (to_json x)) → conforms (SList s) (to_json l).
Proof. intros Hs. by apply conforms_list, Forall_fmap, Forall_forall. Qed.

Lemma conforms_to_json_list `{!Json A} s (l : list A) :
  (∀ x : A, conforms s (to_json x)) → conforms (SList s) (to_json l).
Proof. intros Hs. apply conforms_to_json_list_elem. auto. Qed.

Lemma Job_conforms job : conforms Job_schema (to_json job).
Proof. by destruct job as [? ? ? ? ? [?|]]. Qed.

Lemma JobCreate_conforms (body : JobCreate.t) : conforms JobCreate_schema (to_json body).
Proof. by destruct body. Qed.

Lemma Driver_conforms driver : conforms Driver_schema (to_json driver).
Proof. by destruct driver. Qed.

(** The encoder of a model writes the declared fields, in the declared
    order, and nothing else. *)
Lemma Job_keys job :
  keys (to_json job) =
    ["id"; "pickup_location"; "dropoff_location"; "load_description"; "status";
     "driver_id"].
Proof. done. Qed.

End typed.

(** ** On well-formed databases jobs have the promised shape *)

Lemma job_ok_shape job : job_ok job → conforms Job_shape (to_json job).
Proof.
  destruct job as [? ? ? ? st [d|]]; intros [Hst _]; simpl in *;
    by rewrite bool_decide_true.
Qed.

(** C32. The invariant shows on the wire: in a well-formed database, a
    200 response to a request for jobs or drivers (the job list, a created
    job, an accepted job, the driver list) has the promised shape: every
    job in it has the six fields with an integer id, string locations and
    description, a status that is "available", "assigned" or "completed",
    and a driver id that is an integer or null. *)
Theorem dispatch_shape req db shape :
  wf db → response_shape req = Some shape →
  Response.status_code (dispatch req db).1 = 200 →
  conforms shape (encode (Response.content (dispatch req db).1)).
Proof.
  intros Hwf. by_step db req; intros [= <-] Hst; try done;
    cbn [fst ok Response.content encode];
    try apply conforms_to_json_list_elem;
    eauto using job_ok_shape, wf_job_ok, Driver_conforms with prog.
Qed.

Lemma dispatch_shape_witness :
  conforms (SList Job_shape) (encode (Response.content (dispatch GetJobs Db.init).1)).
Proof. apply (dispatch_shape GetJobs Db.init); [by_compute|done..]. Defined.

#[export] Hint Resolve Job_conforms JobCreate_conforms Driver_conforms
  conforms_to_json_list : prog.
