(* ===== verification/Http.v ===== *)
(** * The application over HTTP: configuration, route table, validation

    What src/main.py hands to the framework: the application object and
    its CORS middleware ([app], [middleware]), and one route per decorator
    ([home_route] ... [get_drivers_route], gathered in [routes] in the order
    of the file).  A route is the method and the path template of its
    decorator, the [response_model] it declares, and the signature of the
    function below it, read as the binding of the request's parameters to a
    validated [Request].

    A raw request ([Raw.t]) is a method, the segments of a path, the query
    parameters and an optional JSON body.  [parse] finds the first route
    that matches and binds the parameters; [serve_http] then runs
    [dispatch] and encodes the response, or answers that the request is
    unprocessable (422) or that no route of the file matches.

    How the framework converts a path or query parameter to an [int] and a
    JSON value to a [str] depends on its version.  [Validator] is the
    interface the routes rely on: a canonical decimal is converted to its
    number, a JSON string to itself.  The theorems are proved for every
    validator; [strict] is the one that accepts nothing else.

    [denotes] is the specification of parsing, one rule per route, and
    [parse_Valid] shows that the route table implements it.  [render] is
    the request a client sends; [run_http_render] shows that the service
    over HTTP answers rendered requests as [run] answers the requests
    themselves, and [reachable_http_iff] that raw requests reach no other
    database. *)

From Stdlib Require DecimalString DecimalZ DecimalPos.
From stdpp Require Import gmap.
From S2P Require Import Prelude Model Store Handlers Invariants Router Wire.

(** ** The application object and its middleware *)

Module FastAPI.

Record t : Type := mk {
  title : string;
  description : string;
  version : string;
}.

End FastAPI.

(** [app = FastAPI(...)] *)
Definition app : FastAPI.t := {|
  FastAPI.title := "Last-Mile Logistics API";
  FastAPI.description :=
    "Backend API for connecting autonomous trucking companies with local truckers.";
  FastAPI.version := "1.0.0";
|}.

Module CORSMiddleware.

Record t : Type := mk {
  allow_origins : list string;
  allow_credentials : bool;
  allow_methods : list string;
  allow_headers : list string;
}.

(** An origin is allowed when the list names it or holds the wildcard. *)
Definition is_allowed_origin (c : t) (origin : string) : bool :=
  bool_decide ("*" ∈ allow_origins c ∨ origin ∈ allow_origins c).

End CORSMiddleware.

(** [app.add_middleware(CORSMiddleware, ...)] *)
Definition middleware : CORSMiddleware.t := {|
  CORSMiddleware.allow_origins := ["*"];
  CORSMiddleware.allow_credentials := true;
  CORSMiddleware.allow_methods := ["*"];
  CORSMiddleware.allow_headers := ["*"];
|}.

(** ** Validation of parameters *)

(** The canonical decimal of an integer: ["0"], ["17"], ["-4"]. *)
Definition decimal (z : Z) : string :=
  DecimalString.NilZero.string_of_int (Z.to_int z).
#[global] Arguments decimal : simpl never.

Class Validator := {
  int_of_text : string → option Z;
  str_of_json : json → option string;
  int_of_text_decimal z : int_of_text (decimal z) = Some z;
  str_of_json_string s : str_of_json (JString s) = Some s;
}.

(** ** Raw requests *)

Module Raw.

Record t : Type := mk {
  method : string;
  path : list string;
  query : gmap string string;
  body : option json;
}.

End Raw.

Definition Method_name (m : Method) : string :=
  match m with GET => "GET" | POST => "POST" end.

(** ** Routes *)

(** A path template: ["/jobs/{job_id}/accept"] is
    [[Lit "jobs"; Param "job_id"; Lit "accept"]]. *)
Inductive seg : Type :=
| Lit (s : string)
| Param (name : string).

(** The parameters a route's function is called with, before conversion. *)
Module Params.

Record t : Type := mk {
  path : list (string * string);
  query : gmap string string;
  body : option json;
}.

End Params.

Record Route : Type := {
  route_method : Method;
  route_path : list seg;
  response_model : option schema;
  endpoint : Params.t → option Request;
}.

(** A template matches a path segment by segment; a parameter takes one
    segment that is not empty. *)
Fixpoint match_path (template : list seg) (path : list string) :
    option (list (string * string)) :=
  match template, path with
  | [], [] => Some []
  | Lit s :: template, s' :: path =>
      if decide (s = s') then match_path template path else None
  | Param x :: template, s :: path =>
      if decide (s = "") then None else ((x, s) ::.) <$> match_path template path
  | _, _ => None
  end.

(** The path parameters with which a route matches a request. *)
Definition matches (r : Route) (raw : Raw.t) : option (list (string * string)) :=
  if decide (Raw.method raw = Method_name (route_method r))
  then match_path (route_path r) (Raw.path raw)
  else None.

(** The first route that matches. *)
Fixpoint find_route (rs : list Route) (raw : Raw.t) :
    option (Route * list (string * string)) :=
  match rs with
  | [] => None
  | r :: rs =>
      if matches r raw is Some args then Some (r, args) else find_route rs raw
  end.

(** What goes back: a status and a JSON body; the framework's answer to a
    request that fails validation (status 422); or its answer where no
    route of the file matches. *)
Inductive HttpResponse : Type :=
| Sent (status_code : Z) (body : json)
| Unprocessable
| Unrouted.

Definition send (resp : Response.t) : HttpResponse :=
  Sent (Response.status_code resp) (encode (Response.content resp)).

(** The outcome of routing and validation. *)
Inductive routed : Type :=
| Valid (req : Request)
| Invalid
| NoRoute.

Section routes.
Context `{!Validator}.
Implicit Types (q : gmap string string) (b : option json) (s t : string).

(** [name: int] in the path. *)
Definition path_int (name : string) (p : Params.t) : option Z :=
  assoc name (Params.path p) ≫= int_of_text.

(** [name: Optional[int] = None]: a query parameter that may be absent. *)
Definition query_optional_int (name : string) (p : Params.t) : option (option Z) :=
  match Params.query p !! name with
  | None => Some None
  | Some s => Some <$> int_of_text s
  end.

(** A field of the body declared [str]. *)
Definition str_field (k : string) (j : json) : option string :=
  member k j ≫= str_of_json.

(** [job: JobCreate]: the body, validated against the model. *)
Definition body_JobCreate (p : Params.t) : option JobCreate.t :=
  j ← Params.body p;
  pickup_location ← str_field "pickup_location" j;
  dropoff_location ← str_field "dropoff_location" j;
  load_description ← str_field "load_description" j;
  Some (JobCreate.mk pickup_location dropoff_location load_description).

Definition home_route : Route := {|
  route_method := GET;
  route_path := [];
  response_model := None;
  endpoint _ := Some Home;
|}.

Definition get_jobs_route : Route := {|
  route_method := GET;
  route_path := [Lit "jobs"];
  response_model := Some (SList Job_schema);
  endpoint _ := Some GetJobs;
|}.

Definition create_job_route : Route := {|
  route_method := POST;
  route_path := [Lit "jobs"];
  response_model := Some Job_schema;
  endpoint p := job ← body_JobCreate p; Some (CreateJob job);
|}.

Definition accept_job_route : Route := {|
  route_method := POST;
  route_path := [Lit "jobs"; Param "job_id"; Lit "accept"];
  response_model := Some Job_schema;
  endpoint p :=
    job_id ← path_int "job_id" p;
    driver_id ← query_optional_int "driver_id" p;
    Some (AcceptJob job_id driver_id);
|}.

Definition assign_driver_route : Route := {|
  route_method := POST;
  route_path := [Lit "assign"; Param "job_id"; Param "driver_id"];
  response_model := None;
  endpoint p :=
    job_id ← path_int "job_id" p;
    driver_id ← path_int "driver_id" p;
    Some (AssignDriver job_id driver_id);
|}.

Definition complete_job_route : Route := {|
  route_method := POST;
  route_path := [Lit "complete"; Param "job_id"];
  response_model := None;
  endpoint p := job_id ← path_int "job_id" p; Some (CompleteJob job_id);
|}.

Definition get_drivers_route : Route := {|
  route_method := GET;
  route_path := [Lit "drivers"];
  response_model := Some (SList Driver_schema);
  endpoint _ := Some GetDrivers;
|}.

(** The routes of the application, in the order they are registered. *)
Definition routes : list Route :=
  [home_route; get_jobs_route; create_job_route; accept_job_route;
   assign_driver_route; complete_job_route; get_drivers_route].

(** The route that serves a validated request. *)
Definition route_of (req : Request) : Route :=
  match req with
  | Home => home_route
  | GetJobs => get_jobs_route
  | CreateJob _ => create_job_route
  | AcceptJob _ _ => accept_job_route
  | AssignDriver _ _ => assign_driver_route
  | CompleteJob _ => complete_job_route
  | GetDrivers => get_drivers_route
  end.

(** ** Serving a raw request *)

Definition parse (raw : Raw.t) : routed :=
  match find_route routes raw with
  | Some (r, args) =>
      match endpoint r (Params.mk args (Raw.query raw) (Raw.body raw)) with
      | Some req => Valid req
      | None => Invalid
      end
  | None => NoRoute
  end.

Definition serve_http (raw : Raw.t) (db : Db.t) : HttpResponse * Db.t :=
  match parse raw with
  | Valid req => let '(resp, db) := dispatch req db in (send resp, db)
  | Invalid => (Unprocessable, db)
  | NoRoute => (Unrouted, db)
  end.

(** Serve raw requests one after the other. *)
Fixpoint run_http (raws : list Raw.t) (db : Db.t) : list HttpResponse * Db.t :=
  match raws with
  | [] => ([], db)
  | raw :: raws =>
      let '(resp, db) := serve_http raw db in
      let '(resps, db) := run_http raws db in
      (resp :: resps, db)
  end.

(** The databases the service can be in when it is driven by raw
    requests. *)
Inductive reachable_http : Db.t → Prop :=
| reachable_http_init : reachable_http Db.init
| reachable_http_serve db raw :
    reachable_http db → reachable_http (serve_http raw db).2.

(** ** What a raw request means

    The HTTP surface, one rule per route: which raw requests are which
    validated request.  The query and the body are ignored where the
    function takes no parameter from them. *)
Inductive denotes : Raw.t → Request → Prop :=
| denotes_home q b : denotes (Raw.mk "GET" [] q b) Home
| denotes_get_jobs q b : denotes (Raw.mk "GET" ["jobs"] q b) GetJobs
| denotes_create_job q j pickup dropoff load :
    str_field "pickup_location" j = Some pickup →
    str_field "dropoff_location" j = Some dropoff →
    str_field "load_description" j = Some load →
    denotes (Raw.mk "POST" ["jobs"] q (Some j))
      (CreateJob (JobCreate.mk pickup dropoff load))
| denotes_accept_job s q b job_id :
    s ≠ "" → int_of_text s = Some job_id → q !! "driver_id" = None →
    denotes (Raw.mk "POST" ["jobs"; s; "accept"] q b) (AcceptJob job_id None)
| denotes_accept_job_driver s t q b job_id driver_id :
    s ≠ "" → int_of_text s = Some job_id →
    q !! "driver_id" = Some t → int_of_text t = Some driver_id →
    denotes (Raw.mk "POST" ["jobs"; s; "accept"] q b)
      (AcceptJob job_id (Some driver_id))
| denotes_assign_driver s t q b job_id driver_id :
    s ≠ "" → t ≠ "" →
    int_of_text s = Some job_id → int_of_text t = Some driver_id →
    denotes (Raw.mk "POST" ["assign"; s; t] q b) (AssignDriver job_id driver_id)
| denotes_complete_job s q b job_id :
    s ≠ "" → int_of_text s = Some job_id →
    denotes (Raw.mk "POST" ["complete"; s] q b) (CompleteJob job_id)
| denotes_get_drivers q b : denotes (Raw.mk "GET" ["drivers"] q b) GetDrivers.

End routes.

(** The request a client sends for a validated request. *)
Definition render (req : Request) : Raw.t :=
  match req with
  | Home => Raw.mk "GET" [] ∅ None
  | GetJobs => Raw.mk "GET" ["jobs"] ∅ None
  | CreateJob job => Raw.mk "POST" ["jobs"] ∅ (Some (to_json job))
  | AcceptJob job_id driver_id =>
      Raw.mk "POST" ["jobs"; decimal job_id; "accept"]
        (if driver_id is Some d then {["driver_id" := decimal d]} else ∅) None
  | AssignDriver job_id driver_id =>
      Raw.mk "POST" ["assign"; decimal job_id; decimal driver_id] ∅ None
  | CompleteJob job_id => Raw.mk "POST" ["complete"; decimal job_id] ∅ None
  | GetDrivers => Raw.mk "GET" ["drivers"] ∅ None
  end.

(** ** The strict validator

    An [int] is an optional minus sign and digits; a [str] is a JSON
    string. *)

Definition strict_int_of_text (s : string) : option Z :=
  Z.of_int <$> DecimalString.NilZero.int_of_string s.

Lemma strict_int_of_text_decimal z : strict_int_of_text (decimal z) = Some z.
Proof.
  unfold strict_int_of_text, decimal.
  rewrite DecimalString.NilZero.isi; [simpl; by rewrite DecimalZ.of_to|..];
    destruct z; simpl; try done; intros [=Hp];
    by apply DecimalPos.Unsigned.to_uint_nonnil in Hp.
Qed.

#[global] Instance strict : Validator := {|
  int_of_text := strict_int_of_text;
  str_of_json := of_json;
  int_of_text_decimal := strict_int_of_text_decimal;
  str_of_json_string := of_to_json;
|}.

(** A decimal has a digit. *)
Lemma decimal_nonempty z : decimal z ≠ "".
Proof.
  intros Hz. pose proof (strict_int_of_text_decimal z) as Hs. by rewrite Hz in Hs.
Qed.

#[export] Hint Resolve decimal_nonempty : prog.
#[export] Hint Constructors denotes reachable_http : prog.

(** ** Matching, inverted *)

Section matching.
Implicit Types (template : list seg) (path : list string) (s x : string).
Implicit Types (args : list (string * string)) (r : Route) (raw : Raw.t).

Lemma match_path_nil_inv path args :
  match_path [] path = Some args → path = [] ∧ args = [].
Proof. destruct path; naive_solver. Qed.

Lemma match_path_lit_inv s template path args :
  match_path (Lit s :: template) path = Some args →
  ∃ path', path = s :: path' ∧ match_path template path' = Some args.
Proof. destruct path; simpl; [done|]. case_decide; naive_solver. Qed.

Lemma match_path_param_inv x template path args :
  match_path (Param x :: template) path = Some args →
  ∃ s path' args', path = s :: path' ∧ s ≠ "" ∧
    match_path template path' = Some args' ∧ args = (x, s) :: args'.
Proof.
  destruct path as [|s path]; simpl; [done|]. case_decide; [done|].
  intros (args'&?&->)%fmap_Some. by exists s, path, args'.
Qed.

Lemma find_route_Some rs raw r args :
  find_route rs raw = Some (r, args) → r ∈ rs ∧ matches r raw = Some args.
Proof.
  induction rs as [|r' rs IH]; simpl; [done|].
  destruct (matches r' raw) eqn:?; [|set_solver]. intros [= <- <-]. set_solver.
Qed.

End matching.

(** Read the shape of the path off a successful match. *)
Ltac match_path_inv :=
  repeat match goal with
  | H : match_path [] _ = Some _ |- _ => apply match_path_nil_inv in H as [-> ->]
  | H : match_path (Lit _ :: _) _ = Some _ |- _ =>
      apply match_path_lit_inv in H as (?&->&H)
  | H : match_path (Param _ :: _) _ = Some _ |- _ =>
      apply match_path_param_inv in H as (?&?&?&->&?&H&->)
  end.

(** Run the route table on a request whose method and path are known. *)
Ltac route_simpl :=
  unfold parse;
  repeat (progress (unfold matches; simpl; rewrite ?decide_False by done)).

(** The cases of [r ∈ routes]. *)
Ltac by_route Hin :=
  unfold routes in Hin;
  repeat (apply elem_of_cons in Hin as [->|Hin]); [..|by apply elem_of_nil in Hin].

(** ** The route table implements the HTTP surface *)

Section parsing.
Context `{!Validator}.
Implicit Types (raw : Raw.t) (req : Request) (r : Route).

Lemma denotes_parse raw req : denotes raw req → parse raw = Valid req.
Proof.
  destruct 1; route_simpl;
    unfold body_JobCreate, path_int, query_optional_int; simpl;
    by simplify_option_eq.
Qed.

Lemma parse_denotes raw req : parse raw = Valid req → denotes raw req.
Proof.
  unfold parse. destruct (find_route routes raw) as [[r args]|] eqn:Hr; [|done].
  apply find_route_Some in Hr as [Hin Hm]. destruct raw as [m p q b].
  unfold matches in Hm. case_decide; [|done]. simpl in *. subst m.
  by_route Hin; simpl in *; match_path_inv;
    unfold body_JobCreate, path_int, query_optional_int; simpl; intros;
    simplify_option_eq; repeat case_match; simplify_option_eq; by econstructor.
Qed.

(** C14. Routing and validation are the HTTP surface: [parse], which
    searches the route table of src/main.py and binds the parameters the
    functions declare, takes a raw request to a validated request exactly
    when the surface says that the raw request denotes it. *)
Theorem parse_Valid raw req : parse raw = Valid req ↔ denotes raw req.
Proof. split; [apply parse_denotes|apply denotes_parse]. Qed.

Lemma render_denotes req : denotes (render req) req.
Proof.
  destruct req as [| |[]|job_id [d|]|job_id d|job_id|]; simpl; econstructor;
    rewrite ?lookup_singleton_eq, ?lookup_empty;
    eauto using int_of_text_decimal with prog;
    unfold str_field; simpl; apply str_of_json_string.
Qed.

(** Parsing undoes rendering. *)
Lemma parse_render req : parse (render req) = Valid req.
Proof. apply denotes_parse, render_denotes. Qed.

(** What a route binds is a request of that route. *)
Lemma endpoint_route_of r p req :
  r ∈ routes → endpoint r p = Some req → route_of req = r.
Proof. intros Hin. by_route Hin; simpl; intros; by simplify_option_eq. Qed.

(** C23. The route table is unambiguous: at most one of the routes
    registered in src/main.py matches the method and the path of a
    request.  Where one route matches, every other route of the table
    does not, so the order of the decorators does not matter. *)
Theorem routes_unambiguous raw i j r1 r2 :
  i ≠ j → routes !! i = Some r1 → routes !! j = Some r2 →
  is_Some (matches r1 raw) → matches r2 raw = None.
Proof.
  intros Hne Hi Hj [a1 H1]. destruct (matches r2 raw) as [a2|] eqn:H2; [|done].
  exfalso. unfold matches in *. repeat case_decide; try done.
  destruct i as [|[|[|[|[|[|[|?]]]]]]]; simpl in Hi; simplify_eq;
  destruct j as [|[|[|[|[|[|[|?]]]]]]]; simpl in Hj; simplify_eq; try done;
    cbn [route_path route_method home_route get_jobs_route create_job_route
         accept_job_route assign_driver_route complete_job_route
         get_drivers_route] in *;
    revert H2; match_path_inv; intros Hm; simpl in *; repeat case_decide;
    simplify_eq; congruence.
Qed.

(** The routes whose path is fixed, evaluated. *)
Lemma parse_create_job q b :
  parse (Raw.mk "POST" ["jobs"] q b) =
    if body_JobCreate (Params.mk [] q b) is Some job then Valid (CreateJob job)
    else Invalid.
Proof. route_simpl. by destruct (body_JobCreate _). Qed.

Lemma parse_accept_job s q b :
  s ≠ "" →
  parse (Raw.mk "POST" ["jobs"; s; "accept"] q b) =
    if int_of_text s is Some job_id then
      if query_optional_int "driver_id" (Params.mk [("job_id", s)] q b) is Some d
      then Valid (AcceptJob job_id d) else Invalid
    else Invalid.
Proof.
  intros. route_simpl. unfold path_int. simpl.
  destruct (int_of_text s); simpl; [|done]. by destruct (query_optional_int _ _).
Qed.

(** C37. The accept route reads the driver from the query only.  A
    request to POST /jobs/{job_id}/accept is parsed to the same validated
    request, or refused alike, whatever its body: a [driver_id] sent in
    the body is not read. *)
Theorem accept_job_ignores_body s q b b' :
  parse (Raw.mk "POST" ["jobs"; s; "accept"] q b) =
  parse (Raw.mk "POST" ["jobs"; s; "accept"] q b').
Proof.
  destruct (decide (s = "")) as [->|]; [by route_simpl|].
  by rewrite !parse_accept_job.
Qed.

End parsing.

(** ** The service over HTTP is the service *)

Section serving.
Context `{!Validator}.
Implicit Types (raw : Raw.t) (req : Request) (r : Route) (db : Db.t).

Lemma serve_http_Valid raw req db :
  parse raw = Valid req →
  serve_http raw db = (send (dispatch req db).1, (dispatch req db).2).
Proof. unfold serve_http. intros ->. by destruct (dispatch req db). Qed.

Lemma serve_http_render req db :
  serve_http (render req) db = (send (dispatch req db).1, (dispatch req db).2).
Proof. apply serve_http_Valid, parse_render. Qed.

(** A raw request leaves the database as it is or as the request it
    denotes leaves it. *)
Lemma serve_http_db raw db :
  (serve_http raw db).2 = db ∨
  ∃ req, denotes raw req ∧ (serve_http raw db).2 = (dispatch req db).2.
Proof.
  destruct (parse raw) as [req| |] eqn:Hp; [right|left..].
  - exists req. split; [by apply parse_denotes|]. by rewrite (serve_http_Valid _ req).
  - unfold serve_http. by rewrite Hp.
  - unfold serve_http. by rewrite Hp.
Qed.

(** C13. The layers compose: a sequence of validated requests, rendered as
    a client sends them and served over HTTP by routing, validation,
    [dispatch] and encoding, gets the responses of [run] on the requests,
    encoded, and leaves the database [run] leaves, whatever the
    validator. *)
Theorem run_http_render reqs db :
  run_http (render <$> reqs) db = (send <$> (run reqs db).1, (run reqs db).2).
Proof.
  revert db. induction reqs as [|req reqs IH]; intros db; simpl; [done|].
  rewrite serve_http_render. change (handle req db) with (dispatch req db).
  destruct (dispatch req db) as [resp db1]. simpl. rewrite IH.
  by destruct (run reqs db1).
Qed.

(** Raw requests reach the databases validated requests reach, and no
    other: malformed and unrouted requests change nothing, and every
    validated request has a raw request that is parsed to it. *)
Lemma reachable_http_iff db : reachable_http db ↔ reachable db.
Proof.
  split; induction 1 as [|db x _ IH]; try constructor.
  - destruct (serve_http_db x db) as [->|(req&_&->)]; [done|by constructor].
  - replace (dispatch x db).2 with (serve_http (render x) db).2
      by (by rewrite serve_http_render).
    by constructor.
Qed.

(** *** Requests that fail validation *)

(** C31. A body that lacks a field [JobCreate] declares is rejected: POST
    /jobs with a body without one of the three fields is answered as
    unprocessable, and the database is left as it was: no job is created
    and no id is issued. *)
Theorem create_job_missing_field q j k db :
  k ∈ fields JobCreate_schema → member k j = None →
  serve_http (Raw.mk "POST" ["jobs"] q (Some j)) db = (Unprocessable, db).
Proof.
  intros Hk Hm. unfold serve_http. rewrite parse_create_job.
  unfold body_JobCreate, str_field. simpl in *. set_unfold.
  destruct_or!; subst; rewrite Hm; simpl; by repeat case_match; simplify_option_eq.
Qed.

(** A job id that is not an integer is rejected. *)
Lemma accept_job_invalid_id s q b db :
  s ≠ "" → int_of_text s = None →
  serve_http (Raw.mk "POST" ["jobs"; s; "accept"] q b) db = (Unprocessable, db).
Proof. intros ? Hs. unfold serve_http. rewrite parse_accept_job by done. by rewrite Hs. Qed.

End serving.

(** ** The middleware allows every origin *)

Lemma middleware_allows_origin origin :
  CORSMiddleware.is_allowed_origin middleware origin.
Proof. apply bool_decide_pack. left. set_solver. Qed.

(** ** With the strict validator *)

(** Validation of the body is typing: with the strict validator, the
    body of POST /jobs is accepted exactly when it conforms to the fields
    [JobCreate] declares, that is, when it is an object whose
    [pickup_location], [dropoff_location] and [load_description] are
    strings. *)
Lemma strict_body_JobCreate args q j :
  is_Some (body_JobCreate (Params.mk args q (Some j))) ↔
  conforms JobCreate_schema j.
Proof.
  unfold body_JobCreate, str_field, member. simpl.
  destruct j as [| | | | |ms]; try (split; [by intros []|done]).
  destruct (assoc "pickup_location" ms) as [[]|]; simpl;
    try (split; [by intros []|done]).
  destruct (assoc "dropoff_location" ms) as [[]|]; simpl;
    try (split; [by intros []|done]).
  destruct (assoc "load_description" ms) as [[]|]; simpl;
    split; (by intros []) || done.
Qed.

(** *** The scenario of the specification, over HTTP

    A driver accepts job 1, accepts it again, completes it; job 9 does
    not exist; ["one"] is no job id; nothing is registered under DELETE
    /jobs; a driver named in the body of an accept is not read. *)

(** The scenario, request by request: 200 with job 1 assigned to
    driver 2, 400, 200 with job 1 completed, 404, 422, no route, and 200
    with job 2 assigned to no driver. *)
Example http_scenario :
  (run_http
     [Raw.mk "POST" ["jobs"; "1"; "accept"] {["driver_id" := "2"]} None;
      Raw.mk "POST" ["jobs"; "1"; "accept"] {["driver_id" := "2"]} None;
      Raw.mk "POST" ["complete"; "1"] ∅ None;
      Raw.mk "POST" ["jobs"; "9"; "accept"] ∅ None;
      Raw.mk "POST" ["jobs"; "one"; "accept"] ∅ None;
      Raw.mk "DELETE" ["jobs"] ∅ None;
      Raw.mk "POST" ["jobs"; "2"; "accept"] ∅
        (Some (JObject [("driver_id", JNumber 1)]))]
     Db.init).1 =
  [Sent 200
     (to_json (Job.mk 1 "Amazon SODO" "Bellevue Downtown" "Pallet of boxes"
                 "assigned" (Some 2)));
   Sent 400 (JObject [("detail", JString "Job already assigned or completed")]);
   Sent 200
     (JObject
        [("message", JString "Job completed");
         ("job",
          to_json (Job.mk 1 "Amazon SODO" "Bellevue Downtown" "Pallet of boxes"
                     "completed" (Some 2)))]);
   Sent 404 (JObject [("detail", JString "Job not found")]);
   Unprocessable;
   Unrouted;
   Sent 200
     (to_json (Job.mk 2 "Port of Seattle Terminal 18" "Redmond Microsoft Campus"
                 "Electronics container" "assigned" None))].
Proof. by vm_compute. Qed.

(** ** Witnesses *)

Lemma routes_unambiguous_witness :
  (3 ≠ 4)%nat ∧
  matches assign_driver_route (Raw.mk "POST" ["jobs"; "1"; "accept"] ∅ None) = None.
Proof.
  split; [done|].
  apply (routes_unambiguous (Raw.mk "POST" ["jobs"; "1"; "accept"] ∅ None) 3 4
           accept_job_route assign_driver_route);
    [done|reflexivity|reflexivity|by eexists].
Defined.

Lemma create_job_missing_field_witness :
  serve_http (Raw.mk "POST" ["jobs"] ∅ (Some (JObject [("pickup_location", JString "A")])))
    Db.init = (Unprocessable, Db.init).
Proof.
  apply (create_job_missing_field ∅ _ "load_description"); [by_compute|reflexivity].
Defined.
